(** * Guardrails-AI standards synchroniser: parser, merge and validator

    A shallow embedding of [scripts/sync_standards] (parser.py, generator.py,
    validator.py, transformers/base.py) together with the properties the
    specification states about it.

    Conventions.
    - A Python [str] is a [list ascii]; a literal is written as a Rocq string
      and coerced.  Glyphs outside ASCII (the cross and check marks of the
      example classifier) appear as their UTF-8 bytes, and the character
      classes of [str.strip], [str.lower] and [re] ([\s], [\d], [\w], [\b])
      are those of the ASCII range.
    - A Python [dict] is an insertion-ordered association list ([Dict]).
    - The regular expressions of the source are leftmost, non-overlapping
      scans; [Re.scan] is that scan, and every pattern is a [Re.matcher].
    - [self.errors] / [self.warnings] and exceptions of the validator are
      threaded through a small state-and-exception monad. *)

From Stdlib Require Import String Ascii List Bool Arith Lia ZArith DecimalString
  Permutation.
Import ListNotations.
Open Scope string_scope.
Open Scope nat_scope.
Open Scope list_scope.

Abbreviation str := (list ascii).
Coercion list_ascii_of_string : string >-> list.

(** ** Python string primitives *)
Module Str.

Definition nl : ascii := "010"%char.

Definition code_of (c : ascii) : nat := nat_of_ascii c.

Definition between (lo hi : nat) (c : ascii) : bool :=
  (lo <=? code_of c) && (code_of c <=? hi).

(** [str.isspace] on one character: TAB..CR, FS..US and the space. *)
Definition is_space (c : ascii) : bool := between 9 13 c || between 28 32 c.

Definition is_digit (c : ascii) : bool := between 48 57 c.

Definition is_upper (c : ascii) : bool := between 65 90 c.

Definition is_lower (c : ascii) : bool := between 97 122 c.

(** [\w]: letters, digits and the underscore. *)
Definition is_word (c : ascii) : bool :=
  is_upper c || is_lower c || is_digit c || Ascii.eqb c "_"%char.

Definition lower_char (c : ascii) : ascii :=
  if is_upper c then ascii_of_nat (code_of c + 32) else c.

Definition lower (s : str) : str := map lower_char s.

Fixpoint eqb (a b : str) : bool :=
  match a, b with
  | [], [] => true
  | x :: a', y :: b' => Ascii.eqb x y && eqb a' b'
  | _, _ => false
  end.

Fixpoint startswith (p s : str) : bool :=
  match p, s with
  | [], _ => true
  | x :: p', y :: s' => Ascii.eqb x y && startswith p' s'
  | _ :: _, [] => false
  end.

Definition endswith (p s : str) : bool := startswith (rev p) (rev s).

(** [sub in s]. *)
Fixpoint contains (sub s : str) : bool :=
  startswith sub s ||
  match s with
  | [] => false
  | _ :: s' => contains sub s'
  end.

Fixpoint dropwhile (f : ascii -> bool) (s : str) : str :=
  match s with
  | [] => []
  | c :: s' => if f c then dropwhile f s' else s
  end.

Fixpoint takewhile (f : ascii -> bool) (s : str) : str :=
  match s with
  | [] => []
  | c :: s' => if f c then c :: takewhile f s' else []
  end.

(** [s] is empty or begins with a character outside the class [f]. *)
Definition stops (f : ascii -> bool) (s : str) : Prop :=
  match s with [] => True | c :: _ => f c = false end.

Definition lstrip (s : str) : str := dropwhile is_space s.

Fixpoint rstrip (s : str) : str :=
  match s with
  | [] => []
  | c :: s' =>
      match rstrip s' with
      | [] => if is_space c then [] else [c]
      | r => c :: r
      end
  end.

Definition strip (s : str) : str := lstrip (rstrip s).

(** Truthiness of a string: [if s:]. *)
Definition nonempty (s : str) : bool :=
  match s with [] => false | _ :: _ => true end.

(** [sep.join(parts)]. *)
Fixpoint join (sep : str) (parts : list str) : str :=
  match parts with
  | [] => []
  | [p] => p
  | p :: rest => p ++ sep ++ join sep rest
  end.

Definition lines (parts : list str) : str := join [nl] parts.

(** A list of literals. *)
Definition texts (parts : list string) : list str := map list_ascii_of_string parts.

(** Put a character in front of the first piece of a split. *)
Definition cons_head (c : ascii) (parts : list str) : list str :=
  match parts with
  | [] => [[c]]
  | p :: rest => (c :: p) :: rest
  end.

(** [s.split("\n")]. *)
Fixpoint split_lines (s : str) : list str :=
  match s with
  | [] => [[]]
  | c :: s' =>
      if Ascii.eqb c nl then [] :: split_lines s'
      else cons_head c (split_lines s')
  end.

(** A text without a newline: one line. *)
Definition one_line (s : str) : bool :=
  forallb (fun c => negb (Ascii.eqb c nl)) s.

(** [xs[-n:]] for [n > 0]. *)
Definition last_n {A} (n : nat) (xs : list A) : list A :=
  skipn (length xs - n) xs.

(** [str(n)] for a natural number. *)
Definition decimal (n : nat) : str :=
  list_ascii_of_string (NilZero.string_of_uint (Nat.to_uint n)).

End Str.

(** ** Leftmost non-overlapping scanning, as [re] and [str.split] do it *)
Module Re.

(** A pattern tried at one position: it sees the character before the
    position ([None] at the start of the text) and the text from the position
    on, and answers with what it captured and how many characters it
    consumed (at least one for every pattern of this program). *)
Definition matcher (A : Type) := option ascii -> str -> option (A * nat).

Definition push {A} (c : ascii) (r : list (str * A) * str) : list (str * A) * str :=
  match r with
  | ([], rest) => ([], c :: rest)
  | ((t, a) :: segs, rest) => ((c :: t, a) :: segs, rest)
  end.

(** [scan_from m limit prev skip s]: the matches of [m] in [s], at most
    [limit] of them, each with the unmatched text before it, and the
    unmatched text after the last one.  [skip] characters are still inside
    the previous match. *)
Fixpoint scan_from {A} (m : matcher A) (limit : nat) (prev : option ascii)
    (skip : nat) (s : str) : list (str * A) * str :=
  match s with
  | [] => ([], [])
  | c :: s' =>
      match skip with
      | S n => scan_from m limit (Some c) n s'
      | O =>
          match limit with
          | O => push c (scan_from m limit (Some c) 0 s')
          | S limit' =>
              match m prev s with
              | Some (a, len) =>
                  let r := scan_from m limit' (Some c) (len - 1) s' in
                  (([], a) :: fst r, snd r)
              | None => push c (scan_from m limit (Some c) 0 s')
              end
          end
      end
  end.

(** A pattern that begins with [^] (outside MULTILINE mode) matches at the
    start of the text only. *)
Definition anchored {A} (m : matcher A) : Prop :=
  forall p s, m (Some p) s = None.

Definition scan {A} (m : matcher A) (s : str) : list (str * A) * str :=
  scan_from m (length s) None 0 s.

(** [re.sub(pattern, repl, s)] for a constant replacement. *)
Definition sub {A} (m : matcher A) (repl : str) (s : str) : str :=
  let r := scan m s in
  flat_map (fun seg => fst seg ++ repl) (fst r) ++ snd r.

(** The text a scan stands for once every match is replaced by [repl]. *)
Definition render {A} (repl : str) (r : list (str * A) * str) : str :=
  flat_map (fun seg => fst seg ++ repl) (fst r) ++ snd r.

(** The same substitution without the bound on the number of matches:
    [Re.sub] is [sub_from] at the start of the text. *)
Fixpoint sub_from {A} (m : matcher A) (repl : str) (prev : option ascii)
    (skip : nat) (s : str) : str :=
  match s with
  | [] => []
  | c :: s' =>
      match skip with
      | S n => sub_from m repl (Some c) n s'
      | O =>
          match m prev s with
          | Some (_, len) => repl ++ sub_from m repl (Some c) (len - 1) s'
          | None => c :: sub_from m repl (Some c) 0 s'
          end
      end
  end.

(** The number of matches: [len(re.findall(pattern, s))]. *)
Definition count {A} (m : matcher A) (s : str) : nat := length (fst (scan m s)).

(** What [re.findall] returns for a pattern with one group. *)
Definition findall {A} (m : matcher A) (s : str) : list A := map snd (fst (scan m s)).

(** [re.split(pattern, s)] for a pattern without groups, and
    [s.split(sep, maxsplit)] through [scan_from]. *)
Definition pieces {A} (r : list (str * A) * str) : list str :=
  map fst (fst r) ++ [snd r].

Definition split {A} (m : matcher A) (s : str) : list str := pieces (scan m s).

(** A literal separator. *)
Definition literal (sep : str) : matcher unit :=
  fun _ s => if Str.startswith sep s then Some (tt, length sep) else None.

(** [s.split(sep, maxsplit)]. *)
Definition split_max (sep : str) (maxsplit : nat) (s : str) : list str :=
  pieces (scan_from (literal sep) maxsplit None 0 s).

End Re.

(** ** Python dictionaries: insertion-ordered, one entry per key *)
Module Dict.

Definition t (V : Type) := list (str * V).

Definition empty {V} : t V := [].

Fixpoint get {V} (d : t V) (k : str) : option V :=
  match d with
  | [] => None
  | (k', v) :: d' => if Str.eqb k' k then Some v else get d' k
  end.

(** [d[k] = v]: an existing key keeps its place, a new key goes last. *)
Fixpoint set {V} (d : t V) (k : str) (v : V) : t V :=
  match d with
  | [] => [(k, v)]
  | (k', v') :: d' =>
      if Str.eqb k' k then (k', v) :: d' else (k', v') :: set d' k v
  end.

(** [d.update(other)]. *)
Definition update {V} (d other : t V) : t V :=
  fold_left (fun acc kv => set acc (fst kv) (snd kv)) other d.

Definition keys {V} (d : t V) : list str := map fst d.

Definition mem {V} (d : t V) (k : str) : bool :=
  match get d k with Some _ => true | None => false end.

(** Two dictionaries that differ at most in the value filed under [k]. *)
Definition differ_at {V} (k : str) (d d' : t V) : Prop :=
  exists a v1 v2 b, d = a ++ (k, v1) :: b /\ d' = a ++ (k, v2) :: b
                    /\ mem a k = false.

End Dict.

(** ** Grouping into a dictionary of lists *)
Module Grouping.

(** [d[k].append(x)] on a [defaultdict(list)], or after
    [if k not in d: d[k] = []]: a new key opens a list, a known key gets the
    element at the end of its list. *)
Definition append_to {A} (d : Dict.t (list A)) (k : str) (x : A) : Dict.t (list A) :=
  match Dict.get d k with
  | Some xs => Dict.set d k (xs ++ [x])
  | None => Dict.set d k [x]
  end.

(** The loop [for x in xs: d[key(x)].append(x)] from the empty dictionary. *)
Definition group_by {A} (key : A -> str) (xs : list A) : Dict.t (list A) :=
  fold_left (fun d x => append_to d (key x) x) xs Dict.empty.

(** The elements filed under [k], in the order of the list. *)
Definition members {A} (key : A -> str) (k : str) (xs : list A) : list A :=
  filter (fun x => Str.eqb (key x) k) xs.

(** A dictionary entry for a list that is not empty, none otherwise. *)
Definition entry_of {A} (xs : list A) : option (list A) :=
  match xs with [] => None | _ :: _ => Some xs end.

(** The dictionary holds, for every key, the elements seen so far with that
    key. *)
Definition grouped {A} (key : A -> str) (seen : list A) (d : Dict.t (list A)) : Prop :=
  forall k, Dict.get d k = entry_of (members key k seen).

(** The keys in the order in which they first appear; [seen] holds the keys
    met so far. *)
Fixpoint firsts (seen ks : list str) : list str :=
  match ks with
  | [] => []
  | k :: rest =>
      if existsb (Str.eqb k) seen then firsts seen rest
      else k :: firsts (seen ++ [k]) rest
  end.

End Grouping.

(** ** parser.py *)
Module Parser.
Import Str.

Record CodeExample := {
  code : str;
  language : str;
  is_correct : bool;
  explanation : option str
}.

Record Rule := {
  section : str;
  subsection : option str;
  title : str;
  content : str;
  examples : list CodeExample;
  priority : Z;
  scope : list str;
  tags : list str
}.

(** Section priorities (higher = more important), in the order of the class
    attribute. *)
Definition SECTION_PRIORITIES : Dict.t Z :=
  [ ("Security" : str, 100%Z);
    ("Pre-commit" : str, 90%Z);
    ("Bash Standards" : str, 70%Z);
    ("Python Standards" : str, 70%Z);
    ("Design Principles" : str, 60%Z);
    ("YAML" : str, 50%Z);
    ("JSON" : str, 50%Z);
    ("Documentation" : str, 40%Z) ].

Definition SECTION_SCOPES : Dict.t (list str) :=
  [ ("Bash Standards" : str, ["*.sh" : str; "*.bash" : str]);
    ("Python Standards" : str, ["*.py" : str]);
    ("YAML" : str, ["*.yaml" : str]);
    ("JSON" : str, ["*.json" : str]) ].

(** *** The patterns of the parser *)

(** [^\d+\.\s*]: digits, a dot, any white space, at the start of the text. *)
Definition section_ordinal : Re.matcher unit :=
  fun prev s =>
    match prev with
    | Some _ => None
    | None =>
        let ds := takewhile is_digit s in
        match ds, skipn (length ds) s with
        | _ :: _, c :: rest =>
            if Ascii.eqb c "."%char
            then Some (tt, length ds + 1 + length (takewhile is_space rest))
            else None
        | _, _ => None
        end
    end.

(** [^\d+\.\d+\s*]: digits, a dot, digits, any white space, at the start. *)
Definition subsection_ordinal : Re.matcher unit :=
  fun prev s =>
    match prev with
    | Some _ => None
    | None =>
        let ds := takewhile is_digit s in
        match ds, skipn (length ds) s with
        | _ :: _, c :: rest =>
            if Ascii.eqb c "."%char then
              let ms := takewhile is_digit rest in
              match ms with
              | _ :: _ =>
                  Some (tt, length ds + 1 + length ms
                            + length (takewhile is_space (skipn (length ms) rest)))
              | [] => None
              end
            else None
        | _, _ => None
        end
    end.

(** The text before the first occurrence of [sub], when there is one. *)
Fixpoint before (sub s : str) : option str :=
  if startswith sub s then Some []
  else match s with
       | [] => None
       | c :: s' => option_map (cons c) (before sub s')
       end.

(** The fence pattern with its two groups, in DOTALL mode: three backquotes,
    an optional run of word characters (the language), a newline, then the
    shortest text up to the next three backquotes. *)
Definition fence_block : Re.matcher (option str * str) :=
  fun _ s =>
    if startswith "```" s then
      let s1 := skipn 3 s in
      let w := takewhile is_word s1 in
      match skipn (length w) s1 with
      | c :: body =>
          if Ascii.eqb c nl then
            match before "```" body with
            | Some block =>
                Some ((if nonempty w then Some w else None, block),
                      3 + length w + 1 + length block + 3)
            | None => None
            end
          else None
      | [] => None
      end
    else None.

(** [re.split] with the two groups of [fence_block]: text, language, code,
    text, ...; a group that took no part is [None]. *)
Definition split_fences (s : str) : list (option str) :=
  let r := Re.scan fence_block s in
  flat_map (fun seg => [Some (fst seg); fst (snd seg); Some (snd (snd seg))]) (fst r)
  ++ [Some (snd r)].

(** [[.!?]\s+]: the end of a sentence. *)
Definition sentence_end : Re.matcher unit :=
  fun _ s =>
    match s with
    | c :: rest =>
        if Ascii.eqb c "."%char || Ascii.eqb c "!"%char || Ascii.eqb c "?"%char then
          match takewhile is_space rest with
          | [] => None
          | ws => Some (tt, 1 + length ws)
          end
        else None
    | [] => None
    end.

(** [^[-*]\s*]: a leading dash or star and the white space after it. *)
Definition bullet : Re.matcher unit :=
  fun prev s =>
    match prev, s with
    | None, c :: rest =>
        if Ascii.eqb c "-"%char || Ascii.eqb c "*"%char
        then Some (tt, 1 + length (takewhile is_space rest))
        else None
    | _, _ => None
    end.

(** *** Splitting into sections and subsections *)

(** The state of the two splitting loops: the mapping built so far, the
    current heading ([None] before the first one) and the lines gathered
    under it. *)
Record splitter := {
  entries : Dict.t str;
  current : option str;
  gathered : list str
}.

(** [if current_section:] is false for [None] and for the empty title. *)
Definition open_title (current : option str) : option str :=
  match current with
  | Some t => if nonempty t then Some t else None
  | None => None
  end.

Definition save (st : splitter) : Dict.t str :=
  match open_title (current st) with
  | Some t => Dict.set (entries st) t (lines (gathered st))
  | None => entries st
  end.

(** The title of a heading line: [line[3:].strip()] (or [line[4:]]) with the
    numbering removed by [re.sub]. *)
Definition heading_title (marker : str) (ordinal : Re.matcher unit) (line : str) : str :=
  Re.sub ordinal [] (strip (skipn (length marker) line)).

(** One iteration of the loop over the lines; [marker] is ["## "] or
    ["### "] and [ordinal] the pattern that removes the numbering. *)
Definition split_step (marker : str) (ordinal : Re.matcher unit)
    (st : splitter) (line : str) : splitter :=
  if startswith marker line then
    {| entries := save st;
       current := Some (heading_title marker ordinal line);
       gathered := [] |}
  else
    match open_title (current st) with
    | Some _ => {| entries := entries st; current := current st;
                   gathered := gathered st ++ [line] |}
    | None => st
    end.

Definition split_loop (marker : str) (ordinal : Re.matcher unit)
    (text_lines : list str) : Dict.t str :=
  save (fold_left (split_step marker ordinal) text_lines
          {| entries := Dict.empty; current := None; gathered := [] |}).

(** A heading line with title [t], and a line that is no heading. *)
Definition titled (marker : str) (ordinal : Re.matcher unit) (t line : str) : Prop :=
  startswith marker line = true /\ heading_title marker ordinal line = t.

Definition plain (marker line : str) : Prop := startswith marker line = false.

Definition _split_into_sections (document : str) : Dict.t str :=
  split_loop "## " section_ordinal (split_lines document).

Definition _split_into_subsections (body : str) : Dict.t str :=
  split_loop "### " subsection_ordinal (split_lines body).

(** *** Classification *)

(** [key] is a substring of [title_text] when case is ignored. *)
Definition occurs_in (key title_text : str) : Prop :=
  exists a b, lower title_text = a ++ lower key ++ b.

(** The loop of [_get_priority] and [_get_scope]: the value of the first key
    that occurs in the title, both in lower case. *)
Fixpoint first_match {V} (table : Dict.t V) (title_text : str) (default : V) : V :=
  match table with
  | [] => default
  | (key, v) :: rest =>
      if contains (lower key) (lower title_text) then v
      else first_match rest title_text default
  end.

Definition _get_priority (section_title : str) : Z :=
  first_match SECTION_PRIORITIES section_title 50%Z.

Definition _get_scope (section_title : str) : list str :=
  first_match SECTION_SCOPES section_title ["all" : str].

Definition tag_map : Dict.t (list str) :=
  [ ("bash" : str, ["bash" : str; "shell" : str; "script" : str]);
    ("python" : str, ["python" : str]);
    ("security" : str, ["security" : str; "secret" : str; "credential" : str]);
    ("yaml" : str, ["yaml" : str]);
    ("json" : str, ["json" : str]);
    ("documentation" : str, ["documentation" : str; "doc" : str]) ].

Definition _get_tags (section_title : str) : list str :=
  let section_lower := lower section_title in
  map fst
    (filter (fun entry => existsb (fun keyword => contains keyword section_lower) (snd entry))
       tag_map).

(** *** Examples and titles *)

Definition incorrect_indicators : list str :=
  ["wrong" : str; "incorrect" : str; "bad" : str; "don't" : str; "never" : str;
   "avoid" : str; "❌" : str].

Definition correct_indicators : list str :=
  ["correct" : str; "right" : str; "good" : str; "do this" : str; "✅" : str].

Definition last_text_of (preceding_text : str) : str :=
  lower (join " " (last_n 3 (split_lines (strip preceding_text)))).

Definition _is_correct_example (preceding_text code_text : str) : bool :=
  let last_text := last_text_of preceding_text in
  if existsb (fun indicator => contains indicator last_text) incorrect_indicators then false
  else if existsb (fun indicator => contains indicator last_text) correct_indicators then true
  else if contains "# WRONG" code_text || contains "# BAD" code_text
          || contains "# ❌" code_text then false
  else if contains "# CORRECT" code_text || contains "# GOOD" code_text
          || contains "# ✅" code_text then true
  else true.

(** What the classifier can find: an indicator in the text it looks at, or
    a marker of a wrong example in the code. *)
Definition negative_near (preceding_text : str) : Prop :=
  exists indicator, In indicator incorrect_indicators
                    /\ contains indicator (last_text_of preceding_text) = true.

Definition positive_near (preceding_text : str) : Prop :=
  exists indicator, In indicator correct_indicators
                    /\ contains indicator (last_text_of preceding_text) = true.

Definition negative_marker (code_text : str) : Prop :=
  contains "# WRONG" code_text = true \/ contains "# BAD" code_text = true
  \/ contains "# ❌" code_text = true.

Definition or_empty (part : option str) : str :=
  match part with Some s => s | None => [] end.

(** One iteration of the loop over [enumerate(parts)]. *)
Definition extract_step (parts : list (option str))
    (st : list str * list CodeExample) (ip : nat * option str)
    : list str * list CodeExample :=
  let i := fst ip in
  if i mod 3 =? 0 then (fst st ++ [or_empty (snd ip)], snd st)
  else if i mod 3 =? 2 then
    let language :=
      match nth (i - 1) parts None with
      | Some l => if nonempty l then l else ("text" : str)
      | None => "text" : str
      end in
    let code := strip (or_empty (snd ip)) in
    let preceding_text := last (fst st) [] in
    (fst st,
     snd st ++ [ {| code := code; language := language;
                    is_correct := _is_correct_example preceding_text code;
                    explanation := None |} ])
  else st.

Definition _extract_content_and_examples (body : str) : str * list CodeExample :=
  let parts := split_fences body in
  let r := fold_left (extract_step parts) (combine (seq 0 (length parts)) parts) ([], []) in
  (List.concat (fst r), snd r).

(** The first sentence of the prose, as [_extract_title] takes it: the
    leading bullet removed, the text cut at the first sentence end, the
    white space around it dropped.  ([re.split] never returns an empty
    list.) *)
Definition first_sentence (text : str) : option str :=
  let text := Re.sub bullet [] (strip text) in
  match Re.split sentence_end text with
  | first :: _ => Some (strip first)
  | [] => None
  end.

Definition _extract_title (text : str) : str :=
  match first_sentence text with
  | Some title =>
      if 60 <? length title then firstn 57 title ++ "..." else title
  | None => "Rule"
  end.

(** *** Rules *)

Definition _create_rule (section_title : str) (subsection_title : option str)
    (body : str) (prio : Z) (globs tag_list : list str) : option Rule :=
  let extracted := _extract_content_and_examples body in
  let text_content := fst extracted in
  if nonempty (strip text_content) then
    Some {| section := section_title;
            subsection := subsection_title;
            title := match open_title subsection_title with
                     | Some t => t
                     | None => _extract_title text_content
                     end;
            content := strip text_content;
            examples := snd extracted;
            priority := prio;
            scope := globs;
            tags := tag_list |}
  else None.

(** A body has prose when something other than white space is left of it
    once the code blocks are taken out. *)
Definition has_prose (body : str) : bool :=
  nonempty (strip (fst (_extract_content_and_examples body))).

Definition rule_list (r : option Rule) : list Rule :=
  match r with Some rule => [rule] | None => [] end.

Definition _parse_section (section_title section_content : str) : list Rule :=
  let prio := _get_priority section_title in
  let globs := _get_scope section_title in
  let tag_list := _get_tags section_title in
  let subsections := _split_into_subsections section_content in
  match subsections with
  | _ :: _ =>
      flat_map (fun kv => rule_list (_create_rule section_title (Some (fst kv)) (snd kv)
                                       prio globs tag_list))
               subsections
  | [] => rule_list (_create_rule section_title None section_content prio globs tag_list)
  end.

Definition parse (document : str) : list Rule :=
  flat_map (fun kv => _parse_section (fst kv) (snd kv)) (_split_into_sections document).

(** The headings one expects a rule for: the section itself when it has no
    subsection, and otherwise each of its subsections, in the order of the
    mapping; a heading whose body has no prose is left out. *)
Definition rule_headings (section_title section_content : str) : list (str * option str) :=
  match _split_into_subsections section_content with
  | [] => if has_prose section_content then [(section_title, None)] else []
  | subsections =>
      map (fun kv => (section_title, Some (fst kv)))
          (filter (fun kv => has_prose (snd kv)) subsections)
  end.

Definition heading_of (r : Rule) : str * option str := (section r, subsection r).

(** What holds of one rule of [parse]. *)
Definition well_formed (document : str) (r : Rule) : Prop :=
  In (section r) (Dict.keys (_split_into_sections document))
  /\ section r <> []
  /\ content r <> [] /\ strip (content r) = content r
  /\ priority r = _get_priority (section r)
  /\ (40 <= priority r <= 100)%Z
  /\ scope r = _get_scope (section r) /\ scope r <> []
  /\ tags r = _get_tags (section r)
  /\ match subsection r with
     | Some t => t <> [] /\ title r = t
     | None => length (title r) <= 60
     end.

(** What holds of every example. *)
Definition tidy_example (e : CodeExample) : Prop :=
  language e <> [] /\ strip (code e) = code e /\ explanation e = None.

(** The example made of one match of the fence pattern: [seg] is the text
    before the block, the language group and the code group. *)
Definition example_of (seg : str * (option str * str)) : CodeExample :=
  {| code := strip (snd (snd seg));
     language := match fst (snd seg) with
                 | Some l => if nonempty l then l else ("text" : str)
                 | None => "text" : str
                 end;
     is_correct := _is_correct_example (fst seg) (strip (snd (snd seg)));
     explanation := None |}.

End Parser.

(** ** transformers/base.py *)
Module BaseTransformer.
Import Str.

(** [\bword\b] under [re.IGNORECASE], for a lower-case [word] that begins and
    ends with a letter: no word character before, the word in any case, no
    word character after. *)
Definition word_bounded (word : str) : Re.matcher unit :=
  fun prev s =>
    let before_ok := match prev with Some p => negb (is_word p) | None => true end in
    let after_ok := match skipn (length word) s with
                    | c :: _ => negb (is_word c)
                    | [] => true
                    end in
    if before_ok && Str.eqb (lower (firstn (length word) s)) word && after_ok
    then Some (tt, length word) else None.

(** The table of [_make_imperative], in the order of the dictionary; the key
    [r"\bmust\b"] is kept as the word between the two [\b]. *)
Definition replacements : Dict.t str :=
  [ ("must" : str, "MUST" : str);
    ("should" : str, "MUST" : str);
    ("may" : str, "CAN" : str);
    ("never" : str, "NEVER" : str);
    ("always" : str, "ALWAYS" : str);
    ("require" : str, "REQUIRE" : str);
    ("do not" : str, "DO NOT" : str);
    ("don't" : str, "DO NOT" : str) ].

Definition _make_imperative (text : str) : str :=
  fold_left (fun text entry => Re.sub (word_bounded (fst entry)) (snd entry) text)
            replacements text.

(** *** What the substitution means, in words of the text

    A text is a sequence of tokens: the maximal runs of word characters (the
    words) and, one by one, the characters between them. *)
Fixpoint tokens (s : str) : list str :=
  match s with
  | [] => []
  | c :: s' =>
      if is_word c then
        match tokens s' with
        | (d :: t) :: ts => if is_word d then (c :: d :: t) :: ts else [c] :: (d :: t) :: ts
        | ts => [c] :: ts
        end
      else [c] :: tokens s'
  end.

Definition is_word_token (t : str) : bool := nonempty t && forallb is_word t.

Definition is_sep_token (t : str) : bool :=
  match t with
  | [c] => negb (is_word c)
  | _ => false
  end.

Definition sep_or_end (ts : list str) : bool :=
  match ts with
  | [] => true
  | t :: _ => is_sep_token t
  end.

(** Words and separators, no two words side by side. *)
Fixpoint valid (ts : list str) : bool :=
  match ts with
  | [] => true
  | t :: ts' => (is_sep_token t || (is_word_token t && sep_or_end ts')) && valid ts'
  end.

(** The tokens of a pattern, in lower case, at the head of a token list, case
    ignored. *)
Fixpoint prefix_ci (pattern ts : list str) : bool :=
  match pattern, ts with
  | [], _ => true
  | p :: pattern', t :: ts' => Str.eqb (lower t) p && prefix_ci pattern' ts'
  | _ :: _, [] => false
  end.

(** One substitution on tokens: every occurrence of [pattern], from left to
    right, becomes [repl]. *)
Fixpoint rewrite (pattern repl : list str) (skip : nat) (ts : list str) : list str :=
  match ts with
  | [] => []
  | t :: ts' =>
      match skip with
      | S n => rewrite pattern repl n ts'
      | O =>
          if prefix_ci pattern ts
          then repl ++ rewrite pattern repl (length pattern - 1) ts'
          else t :: rewrite pattern repl 0 ts'
      end
  end.

(** A pattern as tokens: in lower case, words and separators in turn, a word
    at both ends. *)
Definition pattern_ok (pattern : list str) : Prop :=
  valid pattern = true
  /\ is_word_token (hd [] pattern) = true
  /\ is_word_token (last pattern []) = true
  /\ map lower pattern = pattern.

(** [\b] before a position: no word character in front of it. *)
Definition boundary (prev : option ascii) : bool :=
  match prev with
  | Some p => negb (is_word p)
  | None => true
  end.

(** The one-word entries of the table. *)
Definition single_words : Dict.t str := firstn 6 replacements.

Definition replace_word (t : str) : str :=
  match Dict.get single_words (lower t) with
  | Some r => r
  | None => t
  end.

(** A token that no one-word entry produces or consumes: it is no key of the
    table and no replacement in lower case. *)
Definition untouched (k : str) : Prop :=
  Dict.get single_words k = None
  /\ existsb (fun e => Str.eqb (lower (snd e)) k) single_words = false.

(** "do not" and "don't", in any case, as three tokens. *)
Definition do_not_window (t1 t2 t3 : str) : bool :=
  (Str.eqb (lower t1) "do" && Str.eqb t2 " " && Str.eqb (lower t3) "not")
  || (Str.eqb (lower t1) "don" && Str.eqb t2 "'" && Str.eqb (lower t3) "t").

(** The imperative style in one pass over the tokens: "do not" and "don't"
    become "DO NOT", a word of the table becomes its replacement, and every
    other token stays. *)
Fixpoint imperative_tokens (ts : list str) : list str :=
  match ts with
  | [] => []
  | t1 :: rest =>
      match rest with
      | t2 :: t3 :: rest3 =>
          if do_not_window t1 t2 t3
          then ("DO" : str) :: (" " : str) :: ("NOT" : str) :: imperative_tokens rest3
          else replace_word t1 :: imperative_tokens rest
      | _ => replace_word t1 :: imperative_tokens rest
      end
  end.

Definition imperative_spec (text : str) : str :=
  List.concat (imperative_tokens (tokens text)).

(** The words the specification lists for the imperative style. *)
Definition listed_words : list str :=
  ["must" : str; "should" : str; "never" : str; "always" : str; "may" : str;
   "do not" : str; "don't" : str].

(** *** The other text filters *)

Definition conversational_starters : list str :=
  texts ["you must"; "you should"; "you need to"].

Definition emphatic_starts : list str :=
  texts ["MUST"; "Must"; "NEVER"; "Never"; "ALWAYS"; "Always"].

Definition _make_conversational (text : str) : str :=
  let text := strip text in
  if negb (existsb (fun starter => startswith starter (lower text)) conversational_starters)
  then
    if existsb (fun start => startswith start text) emphatic_starts
    then "You " ++ lower text
    else if negb (startswith "you" (lower text))
    then "You should " ++ lower text
    else text
  else text.

(** [re.split] never returns an empty list, so the last branch is never
    taken. *)
Definition _summarize (text : str) : str :=
  match Re.split Parser.sentence_end (strip text) with
  | summary :: _ => if endswith "." summary then summary else summary ++ "."
  | [] => text
  end.

(** One line of [_comment_wrap]. *)
Definition wrap_line (prefix line : str) : str :=
  if nonempty (strip line) then prefix ++ line else strip prefix.

Definition _comment_wrap (text prefix : str) : str :=
  lines (map (wrap_line prefix) (split_lines text)).

(** The default of the [prefix] parameter. *)
Definition default_prefix : str := "# ".

Definition reasoning_map : Dict.t str :=
  [ ("security" : str,
     "This prevents security vulnerabilities and protects sensitive data." : str);
    ("bash" : str,
     "This ensures scripts are reliable, safe, and handle errors properly." : str);
    ("python" : str,
     "This improves code quality, maintainability, and catches errors early." : str);
    ("secret" : str,
     "Committed secrets can be exploited and are nearly impossible to remove from git history." : str);
    ("credential" : str,
     "Hardcoded credentials are a critical security risk." : str) ].

Definition default_reasoning : str :=
  "This ensures code quality, security, and maintainability.".

(** [for tag in rule.tags: if tag in reasoning_map: return reasoning_map[tag]]. *)
Fixpoint by_tag (table : Dict.t str) (tag_list : list str) : option str :=
  match tag_list with
  | [] => None
  | tag :: rest =>
      match Dict.get table tag with
      | Some reasoning => Some reasoning
      | None => by_tag table rest
      end
  end.

(** [for keyword, v in table.items(): if keyword in content_lower: return v]. *)
Fixpoint by_keyword (table : Dict.t str) (content_lower : str) : option str :=
  match table with
  | [] => None
  | (keyword, v) :: rest =>
      if contains keyword content_lower then Some v else by_keyword rest content_lower
  end.

Definition _generate_reasoning (rule : Parser.Rule) : str :=
  match by_tag reasoning_map (Parser.tags rule) with
  | Some reasoning => reasoning
  | None =>
      match by_keyword reasoning_map (lower (Parser.content rule)) with
      | Some reasoning => reasoning
      | None => default_reasoning
      end
  end.

End BaseTransformer.

(** ** generator.py *)
Module SyncGenerator.

(** A transformer, seen from the generator: [transform(rules)] returns a
    mapping from output path to content. *)
Definition transformer := list Parser.Rule -> Dict.t str.

Section Roster.

Variables CursorTransformer ClaudeTransformer CopilotTransformer AiderTransformer
  : transformer.

(** [self.transformers], in the order of the dictionary literal. *)
Definition transformers : Dict.t transformer :=
  [ ("Cursor" : str, CursorTransformer);
    ("Claude" : str, ClaudeTransformer);
    ("GitHub Copilot" : str, CopilotTransformer);
    ("Aider" : str, AiderTransformer) ].

(** Step 2 of [sync]: every transformer in turn, its files merged into
    [all_files] with [dict.update]. *)
Definition transform_all (rules : list Parser.Rule) : Dict.t str :=
  fold_left (fun all_files tool => Dict.update all_files (snd tool rules))
            transformers Dict.empty.

End Roster.

(** [len(set(rule.section for rule in rules))]. *)
Definition _count_sections (rules : list Parser.Rule) : nat :=
  length (nodup (list_eq_dec ascii_dec) (map Parser.section rules)).

End SyncGenerator.

(** ** What the validator sees of PyYAML *)
Module Yaml.

(** The Python values [yaml.safe_load] builds. *)
#[local] Unset Elimination Schemes.
Inductive value :=
| Null
| Boolean (b : bool)
| Int (n : Z)
| Float (repr : str)
| Text (s : str)
| Bytes (b : str)
| Timestamp (repr : str)
| Seq (items : list value)
| SetOf (items : list value)
| Map (items : list (value * value)).
#[local] Set Elimination Schemes.

(** [yaml.safe_load(text)] returns a value, raises a [yaml.YAMLError], or
    raises something else (a [ValueError] from a malformed timestamp, ...). *)
Inductive outcome :=
| Loaded (v : value)
| YAMLError (message : str)
| OtherError (message : str).

Definition loader := str -> outcome.

Definition is_text (s : str) (v : value) : bool :=
  match v with
  | Text t => Str.eqb t s
  | _ => false
  end.

(** [s in v] for a string [s]: membership in a mapping's keys, a sequence or
    a set, a substring test in a string, and a [TypeError] ([None] here) for
    the values that are not containers. *)
Definition py_in (s : str) (v : value) : option bool :=
  match v with
  | Text t => Some (Str.contains s t)
  | Seq items | SetOf items => Some (existsb (is_text s) items)
  | Map items => Some (existsb (fun kv => is_text s (fst kv)) items)
  | Null | Boolean _ | Int _ | Float _ | Bytes _ | Timestamp _ => None
  end.

End Yaml.

(** ** validator.py *)
Module Validator.
Import Str.

(** [self.errors] and [self.warnings]. *)
Record state := { errors : list str; warnings : list str }.

Inductive exn :=
| TypeError (message : str)
| Propagated (message : str).

(** A method call either returns, or raises; both leave a state behind. *)
Inductive result (A : Type) :=
| Returned (a : A) (st : state)
| Raised (e : exn) (st : state).
Arguments Returned {A} a st.
Arguments Raised {A} e st.

Definition M (A : Type) := state -> result A.

Definition ret {A} (a : A) : M A := fun st => Returned a st.

Definition bind {A B} (m : M A) (k : A -> M B) : M B :=
  fun st =>
    match m st with
    | Returned a st' => k a st'
    | Raised e st' => Raised e st'
    end.

Definition raise {A} (e : exn) : M A := fun st => Raised e st.

Notation "m ;; k" := (bind m (fun _ => k)) (at level 61, right associativity).

Definition append_error (message : str) : M unit :=
  fun st => Returned tt {| errors := errors st ++ [message]; warnings := warnings st |}.

Definition append_warning (message : str) : M unit :=
  fun st => Returned tt {| errors := errors st; warnings := warnings st ++ [message] |}.

Definition when (b : bool) (m : M unit) : M unit := if b then m else ret tt.

(** What a call does to [self.errors] when it returns: it never takes an
    error away, and some calls add at least one. *)
Definition keeps_errors {A} (m : M A) : Prop :=
  forall st a st', m st = Returned a st' -> length (errors st) <= length (errors st').

Definition adds_error {A} (m : M A) : Prop :=
  forall st a st', m st = Returned a st' -> length (errors st) < length (errors st').

Definition returns {A} (m : M A) : Prop :=
  forall st, exists a st', m st = Returned a st'.

(** A [for] loop whose body may raise. *)
Fixpoint for_each {A} (xs : list A) (body : A -> M unit) : M unit :=
  match xs with
  | [] => ret tt
  | x :: rest => body x ;; for_each rest body
  end.

(** [enumerate(xs, start)]. *)
Definition enumerate {A} (start : nat) (xs : list A) : list (nat * A) :=
  combine (seq start (length xs)) xs.

(** [Path(filepath).name]: the last component that is neither empty nor a
    single dot. *)
Definition path_name (filepath : str) : str :=
  last (filter (fun part => nonempty part && negb (Str.eqb part "."))
               (Re.split (Re.literal "/") filepath)) [].

(** [Path(filepath).suffix]: the name from its last dot on, when that dot is
    neither the first nor the last character of the name. *)
Definition suffix (filepath : str) : str :=
  let name := path_name filepath in
  let ext := rev (takewhile (fun c => negb (Ascii.eqb c "."%char)) (rev name)) in
  if (length ext <? length name) && (1 <? length name - length ext) && (0 <? length ext)
  then skipn (length name - length ext - 1) name
  else [].

(** [^(#{1,6})\s+] under [re.MULTILINE]; the group is returned as its
    length. *)
Definition heading : Re.matcher nat :=
  fun prev s =>
    let at_line_start := match prev with
                         | None => true
                         | Some p => Ascii.eqb p nl
                         end in
    let hashes := takewhile (fun c => Ascii.eqb c "#"%char) s in
    let ws := takewhile is_space (skipn (length hashes) s) in
    if at_line_start && (1 <=? length hashes) && (length hashes <=? 6) && (1 <=? length ws)
    then Some (length hashes, length hashes + length ws) else None.

Definition fence_count (text : str) : nat := Re.count (Re.literal "```") text.

(** [len(fences) % 2 != 0]. *)
Definition odd_fences (text : str) : bool := negb (fence_count text mod 2 =? 0).

(** The three reasons for which [_validate_mdc] reports an error that do not
    depend on YAML: no leading delimiter, fewer than two delimiters, or an
    odd number of fences in the part after the second delimiter. *)
Definition mdc_rejected (text : str) : bool :=
  negb (startswith "---" text)
  || (length (Re.split_max "---" 2 text) <? 3)
  || odd_fences (nth 2 (Re.split_max "---" 2 text) []).

(** A call that returns and leaves [self.errors] as it was: it can only
    warn. *)
Definition only_warns {A} (m : M A) : Prop :=
  forall st, exists a st', m st = Returned a st' /\ errors st' = errors st.

(** A call that returns, and adds exactly [new_errors] to [self.errors]. *)
Definition reports {A} (m : M A) (new_errors : list str) : Prop :=
  forall st, exists a st', m st = Returned a st' /\ errors st' = errors st ++ new_errors.

(** The one error a Markdown text can give. *)
Definition fence_errors (filepath text : str) : list str :=
  if odd_fences text then [filepath ++ ": Unclosed code fence"] else [].

(** The suffixes [_validate_file] has a check for. *)
Definition checked_suffixes : list str := texts [".yaml"; ".yml"; ".mdc"; ".md"].

Section WithYaml.

Variable safe_load : Yaml.loader.

Definition _validate_yaml (filepath text : str) : M unit :=
  match safe_load text with
  | Yaml.Loaded _ => ret tt
  | Yaml.YAMLError e => append_error (filepath ++ ": Invalid YAML syntax: " ++ e)
  | Yaml.OtherError e => raise (Propagated e)
  end.

Definition _validate_markdown (filepath text : str) : M unit :=
  when (odd_fences text)
       (append_error (filepath ++ ": Unclosed code fence")) ;;
  let levels := Re.findall heading text in
  for_each (seq 1 (length levels - 1))
    (fun i =>
       when (nth (i - 1) levels 0 + 1 <? nth i levels 0)
            (append_warning (filepath ++ ": Heading hierarchy skip (#"
                               ++ decimal (nth (i - 1) levels 0) ++ " -> #"
                               ++ decimal (nth i levels 0) ++ ")"))).

(** [if key not in metadata: self.warnings.append(...)]. *)
Definition warn_if_missing (filepath key : str) (metadata : Yaml.value) : M unit :=
  match Yaml.py_in key metadata with
  | Some present =>
      when (negb present)
           (append_warning (filepath ++ ": Missing '" ++ key ++ "' in frontmatter"))
  | None => raise (TypeError "argument is not iterable")
  end.

Definition _validate_mdc (filepath text : str) : M unit :=
  if negb (startswith "---" text) then
    append_error (filepath ++ ": Missing YAML frontmatter")
  else
    let parts := Re.split_max "---" 2 text in
    if length parts <? 3 then
      append_error (filepath ++ ": Invalid frontmatter structure")
    else
      let frontmatter := nth 1 parts [] in
      let markdown_content := nth 2 parts [] in
      match safe_load frontmatter with
      | Yaml.Loaded metadata =>
          warn_if_missing filepath "priority" metadata ;;
          warn_if_missing filepath "globs" metadata
      | Yaml.YAMLError e =>
          append_error (filepath ++ ": Invalid frontmatter YAML: " ++ e)
      | Yaml.OtherError e => raise (Propagated e)
      end ;;
      _validate_markdown filepath markdown_content.

(** The last loop of [_validate_common], with [in_code_block] as an
    accumulator. *)
Fixpoint long_lines (filepath : str) (in_code_block : bool)
    (numbered : list (nat * str)) : M unit :=
  match numbered with
  | [] => ret tt
  | (i, line) :: rest =>
      if startswith "```" (strip line) then long_lines filepath (negb in_code_block) rest
      else
        when (negb in_code_block && (120 <? length line))
             (append_warning (filepath ++ ":" ++ decimal i ++ ": Line too long ("
                                ++ decimal (length line) ++ " chars)")) ;;
        long_lines filepath in_code_block rest
  end.

Definition _validate_common (filepath text : str) : M unit :=
  let text_lines := split_lines text in
  for_each (enumerate 1 text_lines)
    (fun il =>
       when (endswith " " (snd il) || endswith [ascii_of_nat 9] (snd il))
            (append_warning (filepath ++ ":" ++ decimal (fst il) ++ ": Trailing whitespace"))) ;;
  when (nonempty text && negb (endswith [nl] text))
       (append_warning (filepath ++ ": Missing final newline")) ;;
  long_lines filepath false (enumerate 1 text_lines).

Definition _validate_file (filepath text : str) : M unit :=
  (if Str.eqb (suffix filepath) ".yaml" || Str.eqb (suffix filepath) ".yml"
   then _validate_yaml filepath text
   else if Str.eqb (suffix filepath) ".mdc" then _validate_mdc filepath text
   else if Str.eqb (suffix filepath) ".md" then _validate_markdown filepath text
   else ret tt) ;;
  _validate_common filepath text.

Definition validate_all (files : Dict.t str) : M bool :=
  fun _ =>
    bind (for_each files (fun file => _validate_file (fst file) (snd file)))
         (fun _ st => Returned (length (errors st) =? 0) st)
         {| errors := []; warnings := [] |}.

End WithYaml.

(** The files the validator reports an error for, whatever YAML says. *)
Definition blocked (filepath text : str) : Prop :=
  (suffix filepath = ".md" /\ odd_fences text = true)
  \/ (suffix filepath = ".mdc" /\ mdc_rejected text = true).

(** A loader that never makes the validator raise: every text loads as a
    mapping or is a YAML syntax error. *)
Definition mapping_or_error (safe_load : Yaml.loader) : Prop :=
  forall text, (exists items, safe_load text = Yaml.Loaded (Yaml.Map items))
               \/ (exists e, safe_load text = Yaml.YAMLError e).

(** PyYAML on the frontmatter blocks of the examples below: a block of
    comments and [key: value] lines loads as a mapping with those keys, and
    a block without any content loads as [None]. *)
Definition example_loader : Yaml.loader :=
  fun text =>
    if Str.eqb text (lines (texts [""; "# ```"; "priority: 100"; "globs: []"; ""]))
    then Yaml.Loaded (Yaml.Map [(Yaml.Text "priority", Yaml.Int 100%Z);
                                (Yaml.Text "globs", Yaml.Seq [])])
    else if Str.eqb text (lines (texts [""; "priority: 100"; "globs: []"; ""]))
    then Yaml.Loaded (Yaml.Map [(Yaml.Text "priority", Yaml.Int 100%Z);
                                (Yaml.Text "globs", Yaml.Seq [])])
    else if Str.eqb text (lines (texts [""; "title: Security"; ""]))
    then Yaml.Loaded (Yaml.Map [(Yaml.Text "title", Yaml.Text "Security")])
    else if Str.eqb text [nl]
    then Yaml.Loaded Yaml.Null
    else Yaml.YAMLError "not one of the example documents".

Definition fresh : state := {| errors := []; warnings := [] |}.

End Validator.

(** ** transformers/cursor.py

    Jinja2 is outside this development: [_render_template] is a parameter,
    the text the environment renders for a template name and a rule. *)
Module CursorTransformer.
Import Str Parser.

Definition TEMPLATE_NAME : str := "cursor.mdc.j2".

Definition FILE_MAPPING : Dict.t str :=
  [ ("Design Principles" : str, ".cursor/rules/001_workspace.mdc" : str);
    ("Bash Standards" : str, ".cursor/rules/003_bash_standards.mdc" : str);
    ("Python Standards" : str, ".cursor/rules/004_python_standards.mdc" : str);
    ("YAML" : str, ".cursor/rules/005_config_standards.mdc" : str);
    ("JSON" : str, ".cursor/rules/005_config_standards.mdc" : str);
    ("Security" : str, ".cursor/rules/006_security.mdc" : str);
    ("Pre-commit" : str, ".cursor/rules/007_precommit.mdc" : str);
    ("Documentation" : str, ".cursor/rules/008_documentation.mdc" : str) ].

(** [tag in rule.tags]. *)
Definition has_tag (tag : str) (rule : Rule) : bool :=
  existsb (Str.eqb tag) (tags rule).

(** The section mapping first, in the order of the table; then the tags;
    then the workspace file. *)
Definition _get_output_file (rule : Rule) : str :=
  first_match FILE_MAPPING (section rule)
    (if has_tag "security" rule then ".cursor/rules/006_security.mdc" : str
     else if has_tag "bash" rule then ".cursor/rules/003_bash_standards.mdc" : str
     else if has_tag "python" rule then ".cursor/rules/004_python_standards.mdc" : str
     else ".cursor/rules/001_workspace.mdc" : str).

(** The files a rule can go to. *)
Definition output_files : list str :=
  texts [ ".cursor/rules/001_workspace.mdc";
          ".cursor/rules/003_bash_standards.mdc";
          ".cursor/rules/004_python_standards.mdc";
          ".cursor/rules/005_config_standards.mdc";
          ".cursor/rules/006_security.mdc";
          ".cursor/rules/007_precommit.mdc";
          ".cursor/rules/008_documentation.mdc" ].

(** ["\n\n---\n\n"]. *)
Definition separator : str := [nl; nl] ++ "---" ++ [nl; nl].

Section Templates.

Variable _render_template : str -> Rule -> str.

Definition _generate_file_content (rules : list Rule) : str :=
  join separator (map (_render_template TEMPLATE_NAME) rules).

(** The first loop of [transform]: [files_rules]. *)
Definition files_rules (rules : list Rule) : Dict.t (list Rule) :=
  fold_left (fun d rule =>
               let output_file := _get_output_file rule in
               if nonempty output_file then Grouping.append_to d output_file rule else d)
            rules Dict.empty.

Definition transform (rules : list Rule) : Dict.t str :=
  fold_left (fun output_files entry =>
               Dict.set output_files (fst entry) (_generate_file_content (snd entry)))
            (files_rules rules) Dict.empty.

End Templates.

End CursorTransformer.

(** ** transformers/claude.py *)
Module ClaudeTransformer.
Import Str Parser.

Definition TEMPLATE_NAME : str := "claude.md.j2".

Definition OUTPUT_FILE : str := "CLAUDE.md".

Definition _build_header : str :=
  lines (texts
    [ "# Claude AI Instructions for Engineering Projects";
      "";
      "You are Claude, an AI assistant working on a software engineering project that follows";
      "strict quality and security standards. This document defines your operational guardrails.";
      "";
      "**IMPORTANT:** This document is automatically generated from CONTEXT.md.";
      "Any manual edits will be overwritten. To update, modify CONTEXT.md and run the sync script.";
      "";
      "---";
      "";
      "## 🎯 Your Role";
      "";
      "You are working within a **governed framework** where:";
      "";
      "- **Documentation is authoritative** - Follow all standards defined here";
      "- **Security is paramount** - Never commit secrets or credentials";
      "- **Quality is enforced** - All changes must pass pre-commit checks";
      "- **Explicitness is required** - No implicit assumptions";
      "";
      "---";
      "" ]).

Section Templates.

Variable _render_template : str -> Rule -> str.

(** The dictionary [sections]: the rules of each section, the sections in
    the order in which they first appear. *)
Definition sections (rules : list Rule) : Dict.t (list Rule) :=
  fold_left (fun d rule => Grouping.append_to d (section rule) rule) rules Dict.empty.

(** What one section adds to [parts]: its heading, then its rules. *)
Definition section_parts (section_name : str) (section_rules : list Rule) : list str :=
  ("## " ++ section_name)
  :: map (fun rule => strip (_render_template TEMPLATE_NAME rule)) section_rules.

Definition parts (rules : list Rule) : list str :=
  fold_left (fun parts entry => parts ++ section_parts (fst entry) (snd entry))
            (sections rules) [rstrip _build_header].

Definition transform (rules : list Rule) : Dict.t str :=
  [(OUTPUT_FILE, join [nl; nl] (parts rules) ++ [nl])].

End Templates.

End ClaudeTransformer.

(** * Facts about the string primitives *)
Module StrFacts.
Import Str.

Lemma eqb_refl (a : str) : Str.eqb a a = true.
Proof.
  induction a as [|x a IH]; simpl; [reflexivity|].
  now rewrite Ascii.eqb_refl, IH.
Qed.

Lemma eqb_eq (a b : str) : Str.eqb a b = true <-> a = b.
Proof.
  split.
  - revert b; induction a as [|x a IH]; intros [|y b] H; simpl in H;
      try discriminate; [reflexivity|].
    apply andb_true_iff in H as [Hxy Hab].
    apply Ascii.eqb_eq in Hxy. subst y. f_equal. now apply IH.
  - intros ->. apply eqb_refl.
Qed.

Lemma eqb_neq (a b : str) : Str.eqb a b = false <-> a <> b.
Proof.
  split.
  - intros H E. apply eqb_eq in E. congruence.
  - intros H. destruct (Str.eqb a b) eqn:E; [|reflexivity].
    apply eqb_eq in E. contradiction.
Qed.

Lemma startswith_app (p s : str) : startswith p (p ++ s) = true.
Proof.
  induction p as [|x p IH]; simpl; [reflexivity|].
  now rewrite Ascii.eqb_refl, IH.
Qed.

Lemma startswith_spec (p s : str) :
  startswith p s = true <-> exists r, s = p ++ r.
Proof.
  split.
  - revert s; induction p as [|x p IH]; intros s H.
    + now exists s.
    + destruct s as [|y s]; simpl in H; [discriminate|].
      apply andb_true_iff in H as [Hxy Hps].
      apply Ascii.eqb_eq in Hxy. subst y.
      destruct (IH _ Hps) as [r ->]. now exists r.
  - intros [r ->]. apply startswith_app.
Qed.

Lemma contains_cons (sub : str) (c : ascii) (s : str) :
  contains sub (c :: s) = startswith sub (c :: s) || contains sub s.
Proof. reflexivity. Qed.

Lemma contains_nil (sub : str) : contains sub [] = startswith sub [].
Proof. simpl. apply orb_false_r. Qed.

Lemma contains_prefix (sub s : str) : startswith sub s = true -> contains sub s = true.
Proof. destruct s; [now rewrite contains_nil | rewrite contains_cons; now intros ->]. Qed.

Lemma contains_app (sub a b : str) : contains sub (a ++ sub ++ b) = true.
Proof.
  induction a as [|x a IH].
  - simpl app. apply contains_prefix, startswith_app.
  - simpl app. rewrite contains_cons, IH. apply orb_true_r.
Qed.

Lemma contains_spec (sub s : str) :
  contains sub s = true <-> exists a b, s = a ++ sub ++ b.
Proof.
  split.
  - induction s as [|x s IH]; intros H.
    + rewrite contains_nil in H. apply startswith_spec in H as [r Hr].
      now exists [], r.
    + rewrite contains_cons in H. apply orb_true_iff in H as [H|H].
      * apply startswith_spec in H as [r Hr]. now exists [], r.
      * destruct (IH H) as (a & b & ->). now exists (x :: a), b.
  - intros (a & b & ->). apply contains_app.
Qed.

Lemma lower_app (a b : str) : lower (a ++ b) = lower a ++ lower b.
Proof. apply map_app. Qed.

Lemma takewhile_dropwhile (f : ascii -> bool) (s : str) :
  takewhile f s ++ dropwhile f s = s.
Proof.
  induction s as [|c s IH]; simpl; [reflexivity|].
  destruct (f c); simpl; [now rewrite IH | reflexivity].
Qed.

Lemma skipn_takewhile (f : ascii -> bool) (s : str) :
  skipn (length (takewhile f s)) s = dropwhile f s.
Proof.
  induction s as [|c s IH]; simpl; [reflexivity|].
  destruct (f c); simpl; [exact IH | reflexivity].
Qed.

Lemma takewhile_app (f : ascii -> bool) (a s : str) :
  forallb f a = true -> stops f s -> takewhile f (a ++ s) = a.
Proof.
  intros Ha Hs. induction a as [|c a IH]; simpl in *.
  - destruct s as [|c s]; [reflexivity|]. simpl in *. now rewrite Hs.
  - apply andb_true_iff in Ha as [Hc Ha]. rewrite Hc. f_equal. now apply IH.
Qed.

Lemma dropwhile_app (f : ascii -> bool) (a s : str) :
  forallb f a = true -> stops f s -> dropwhile f (a ++ s) = s.
Proof.
  intros Ha Hs. induction a as [|c a IH]; simpl in *.
  - destruct s as [|c s]; [reflexivity|]. simpl in *. now rewrite Hs.
  - apply andb_true_iff in Ha as [Hc Ha]. rewrite Hc. now apply IH.
Qed.

Lemma dropwhile_stops (f : ascii -> bool) (s : str) : stops f (dropwhile f s).
Proof.
  induction s as [|c s IH]; simpl; [exact I|].
  destruct (f c) eqn:E; [exact IH | exact E].
Qed.

Lemma dropwhile_fixed (f : ascii -> bool) (s : str) :
  stops f s -> dropwhile f s = s.
Proof. destruct s as [|c s]; simpl; [reflexivity|]. now intros ->. Qed.

Lemma dropwhile_length (f : ascii -> bool) (s : str) :
  length (dropwhile f s) <= length s.
Proof.
  induction s as [|c s IH]; simpl; [lia|]. destruct (f c); simpl; lia.
Qed.

Lemma dropwhile_same_length (f : ascii -> bool) (s : str) :
  length (dropwhile f s) = length s -> dropwhile f s = s.
Proof.
  destruct s as [|c s]; simpl; [reflexivity|].
  destruct (f c); [|reflexivity].
  intros H. pose proof (dropwhile_length f s). lia.
Qed.

(** *** [rstrip] *)

Lemma rstrip_nil_iff (s : str) : rstrip s = [] <-> forallb is_space s = true.
Proof.
  induction s as [|c s IH]; simpl; [tauto|].
  destruct (rstrip s) as [|r rs] eqn:E.
  - destruct (is_space c); simpl; [|split; discriminate].
    split; intros _; [now apply IH | reflexivity].
  - split; [discriminate|]. intros H. apply andb_true_iff in H as [_ H].
    apply IH in H. discriminate.
Qed.

Lemma rstrip_cons (c : ascii) (s : str) :
  rstrip s <> [] -> rstrip (c :: s) = c :: rstrip s.
Proof. simpl. destruct (rstrip s); [contradiction | reflexivity]. Qed.

Lemma rstrip_app (a b : str) : rstrip b <> [] -> rstrip (a ++ b) = a ++ rstrip b.
Proof.
  intros Hb. induction a as [|c a IH]; [reflexivity|].
  simpl app. rewrite rstrip_cons; [now rewrite IH|].
  rewrite IH. now destruct a.
Qed.

Lemma rstrip_spaces (a ws : str) :
  forallb is_space ws = true -> rstrip (a ++ ws) = rstrip a.
Proof.
  intros Hws. apply rstrip_nil_iff in Hws.
  induction a as [|c a IH]; simpl; [exact Hws|]. now rewrite IH.
Qed.

Lemma rstrip_length (s : str) : length (rstrip s) <= length s.
Proof.
  induction s as [|c s IH]; simpl; [lia|].
  destruct (rstrip s); [destruct (is_space c)|]; simpl in *; lia.
Qed.

Lemma rstrip_same_length (s : str) : length (rstrip s) = length s -> rstrip s = s.
Proof.
  induction s as [|c s IH]; simpl; [reflexivity|].
  pose proof (rstrip_length s) as Hl.
  destruct (rstrip s) as [|r rs] eqn:E.
  - destruct (is_space c); simpl in *; intros H; [lia|].
    f_equal. apply IH. simpl. lia.
  - simpl. intros H. f_equal. apply IH. simpl in *. lia.
Qed.

Lemma rstrip_idem (s : str) : rstrip (rstrip s) = rstrip s.
Proof.
  induction s as [|c s IH]; simpl; [reflexivity|].
  destruct (rstrip s) as [|r rs] eqn:E.
  - destruct (is_space c) eqn:Ec; simpl; [reflexivity | now rewrite Ec].
  - rewrite rstrip_cons; [now rewrite IH | rewrite IH; discriminate].
Qed.

(** A text that [strip] leaves alone has white space at neither end. *)
Lemma strip_fixed (t : str) : strip t = t -> lstrip t = t /\ rstrip t = t.
Proof.
  unfold strip, lstrip. intros H.
  pose proof (dropwhile_length is_space (rstrip t)) as H1.
  pose proof (rstrip_length t) as H2.
  assert (Hr : rstrip t = t).
  { apply rstrip_same_length. rewrite H in H1. lia. }
  split; [now rewrite Hr in H | exact Hr].
Qed.

Lemma lstrip_stops (t : str) : lstrip t = t -> stops is_space t.
Proof. intros <-. apply dropwhile_stops. Qed.

End StrFacts.

(** * Facts about the scanner *)
Module ReFacts.
Import Str.

Lemma scan_from_anchored {A} (m : Re.matcher A) :
  Re.anchored m ->
  forall s limit p skip, Re.scan_from m limit (Some p) skip s = ([], skipn skip s).
Proof.
  intros Hm. induction s as [|c s IH]; intros limit p skip.
  - now rewrite skipn_nil.
  - destruct skip as [|k]; simpl.
    + destruct limit as [|l]; [|rewrite Hm]; now rewrite IH.
    + apply IH.
Qed.

Lemma sub_anchored_match {A} (m : Re.matcher A) (repl s : str) (a : A) (k : nat) :
  Re.anchored m -> m None s = Some (a, S k) -> s <> [] ->
  Re.sub m repl s = repl ++ skipn (S k) s.
Proof.
  intros Hm Hs Hne. unfold Re.sub, Re.scan.
  destruct s as [|c s]; [contradiction|].
  cbn [length Re.scan_from]. rewrite Hs.
  rewrite (scan_from_anchored m Hm). cbn. now rewrite Nat.sub_0_r, app_nil_r.
Qed.

Lemma sub_anchored_nomatch {A} (m : Re.matcher A) (repl s : str) :
  Re.anchored m -> m None s = None -> Re.sub m repl s = s.
Proof.
  intros Hm Hs. unfold Re.sub, Re.scan.
  destruct s as [|c s]; [reflexivity|].
  cbn [length Re.scan_from]. rewrite Hs.
  now rewrite (scan_from_anchored m Hm).
Qed.

End ReFacts.

(** * The heading ordinals *)
Module OrdinalFacts.
Import Str Parser StrFacts ReFacts.

Ltac by_ascii_cases c :=
  destruct c as [[] [] [] [] [] [] [] []]; vm_compute; try reflexivity; try discriminate.

Lemma digit_not_space (c : ascii) : is_digit c = true -> is_space c = false.
Proof. by_ascii_cases c. Qed.

Lemma space_not_digit (c : ascii) : is_space c = true -> is_digit c = false.
Proof. by_ascii_cases c. Qed.

Lemma section_ordinal_anchored : Re.anchored section_ordinal.
Proof. intros p s. reflexivity. Qed.

Lemma subsection_ordinal_anchored : Re.anchored subsection_ordinal.
Proof. intros p s. reflexivity. Qed.

(** What [strip] leaves of a numbered heading: the white space between the
    ordinal and the title goes only when the title is empty. *)
Lemma strip_numbered (pre ws t : str) :
  pre <> [] -> stops is_space pre -> rstrip pre = pre ->
  forallb is_space ws = true -> strip t = t ->
  exists ws', forallb is_space ws' = true /\ (t <> [] -> ws' = ws) /\
              strip (pre ++ ws ++ t) = pre ++ ws' ++ t.
Proof.
  intros Hne Hpre Hrp Hws Ht. apply strip_fixed in Ht as [Hlt Hrt].
  assert (Hl : forall rest, lstrip (pre ++ rest) = pre ++ rest).
  { intros rest. apply dropwhile_fixed. destruct pre; [contradiction | exact Hpre]. }
  destruct t as [|c t].
  - exists []. repeat split; [congruence|].
    unfold strip. rewrite !app_nil_r, rstrip_spaces, Hrp by exact Hws.
    specialize (Hl []). now rewrite app_nil_r in Hl.
  - exists ws. repeat split; [exact Hws|].
    unfold strip. rewrite app_assoc, rstrip_app by (rewrite Hrt; discriminate).
    rewrite Hrt, <- app_assoc. apply Hl.
Qed.

Lemma skipn_app_length {A} (a b : list A) : skipn (length a) (a ++ b) = b.
Proof. induction a; simpl; auto. Qed.

Lemma section_ordinal_match (n ws t : str) :
  n <> [] -> forallb is_digit n = true -> forallb is_space ws = true ->
  stops is_space t ->
  Re.sub section_ordinal [] (n ++ "." ++ ws ++ t) = t.
Proof.
  intros Hn Hd Hws Ht.
  assert (Hm : section_ordinal None (n ++ "." ++ ws ++ t)
               = Some (tt, S (length n + length ws))).
  { unfold section_ordinal. cbv zeta.
    rewrite takewhile_app by (auto; reflexivity).
    destruct n as [|d n]; [contradiction|]. rewrite skipn_app_length.
    cbn [list_ascii_of_string app]. rewrite Ascii.eqb_refl.
    rewrite takewhile_app by assumption. do 2 f_equal. lia. }
  rewrite (sub_anchored_match _ _ _ _ _ section_ordinal_anchored Hm)
    by (destruct n; [contradiction | discriminate]).
  rewrite app_nil_l.
  replace (S (length n + length ws)) with (length (n ++ "." ++ ws))
    by (rewrite !length_app; simpl; lia).
  replace (n ++ "." ++ ws ++ t) with ((n ++ "." ++ ws) ++ t)
    by (now rewrite <- !app_assoc).
  apply skipn_app_length.
Qed.

Lemma subsection_ordinal_match (n m ws t : str) :
  n <> [] -> forallb is_digit n = true ->
  m <> [] -> forallb is_digit m = true ->
  forallb is_space ws = true -> stops is_space t ->
  stops is_digit (ws ++ t) ->
  Re.sub subsection_ordinal [] (n ++ "." ++ m ++ ws ++ t) = t.
Proof.
  intros Hn Hd Hm Hdm Hws Ht Hstop.
  assert (H : subsection_ordinal None (n ++ "." ++ m ++ ws ++ t)
              = Some (tt, S (length n + length m + length ws))).
  { unfold subsection_ordinal. cbv zeta.
    rewrite takewhile_app by (auto; reflexivity).
    destruct n as [|d n]; [contradiction|]. rewrite skipn_app_length.
    cbn [list_ascii_of_string app]. rewrite Ascii.eqb_refl. cbv zeta.
    rewrite takewhile_app by assumption.
    destruct m as [|e m]; [contradiction|]. rewrite skipn_app_length.
    rewrite takewhile_app by assumption. do 2 f_equal. lia. }
  rewrite (sub_anchored_match _ _ _ _ _ subsection_ordinal_anchored H)
    by (destruct n; [contradiction | discriminate]).
  rewrite app_nil_l.
  replace (S (length n + length m + length ws)) with (length (n ++ "." ++ m ++ ws))
    by (rewrite !length_app; simpl; lia).
  replace (n ++ "." ++ m ++ ws ++ t) with ((n ++ "." ++ m ++ ws) ++ t)
    by (now rewrite <- !app_assoc).
  apply skipn_app_length.
Qed.

Lemma digits_stop_space (n : str) : n <> [] -> forallb is_digit n = true -> stops is_space n.
Proof.
  destruct n as [|d n]; [contradiction|]. simpl. intros _ H.
  apply andb_true_iff in H as [H _]. now apply digit_not_space.
Qed.

Lemma rstrip_keeps (s : str) (c : ascii) : is_space c = false -> rstrip (s ++ [c]) = s ++ [c].
Proof.
  intros Hc. assert (H : rstrip [c] = [c]) by (simpl; now rewrite Hc).
  rewrite rstrip_app; rewrite H; [reflexivity | discriminate].
Qed.

Lemma rstrip_digits (n : str) : forallb is_digit n = true -> rstrip n = n.
Proof.
  induction n as [|d n IH]; simpl; [reflexivity|]. intros H.
  apply andb_true_iff in H as [Hd Hn]. rewrite (IH Hn).
  destruct n; [now rewrite (digit_not_space _ Hd) | reflexivity].
Qed.



End OrdinalFacts.

(** * Priority and scope of a section *)
Module ClassificationFacts.
Import Str Parser StrFacts.

Lemma occurs_in_iff (key title_text : str) :
  contains (lower key) (lower title_text) = true <-> occurs_in key title_text.
Proof. apply contains_spec. Qed.

Lemma first_match_hit {V} (pre post : Dict.t V) (key : str) (v default : V) (title_text : str) :
  occurs_in key title_text ->
  (forall k' v', In (k', v') pre -> ~ occurs_in k' title_text) ->
  first_match (pre ++ (key, v) :: post) title_text default = v.
Proof.
  intros Hkey Hpre. induction pre as [|[k' v'] pre IH]; simpl.
  - apply occurs_in_iff in Hkey. now rewrite Hkey.
  - destruct (contains (lower k') (lower title_text)) eqn:E.
    + apply occurs_in_iff in E. exfalso. apply (Hpre k' v'); [now left | exact E].
    + apply IH. intros k'' v'' Hin. apply (Hpre k'' v''). now right.
Qed.

Lemma first_match_miss {V} (table : Dict.t V) (default : V) (title_text : str) :
  (forall k v, In (k, v) table -> ~ occurs_in k title_text) ->
  first_match table title_text default = default.
Proof.
  intros H. induction table as [|[k v] table IH]; simpl; [reflexivity|].
  destruct (contains (lower k) (lower title_text)) eqn:E.
  - apply occurs_in_iff in E. exfalso. apply (H k v); [now left | exact E].
  - apply IH. intros k' v' Hin. apply (H k' v'). now right.
Qed.


End ClassificationFacts.

(** * Classifying a code example *)
Module ExampleFacts.
Import Str Parser StrFacts.

Lemma dropwhile_keeps_suffix (f : ascii -> bool) (pre x : str) :
  x <> [] -> stops f x -> exists q, dropwhile f (pre ++ x) = q ++ x.
Proof.
  intros Hx Hs. induction pre as [|c pre IH]; simpl.
  - exists []. now apply dropwhile_fixed.
  - destruct (f c); [exact IH | now exists (c :: pre)].
Qed.

(** [strip] keeps a text that ends the string, up to trailing white space,
    when the text has no white space at its own ends. *)
Lemma strip_keeps_suffix (pre x ws : str) :
  x <> [] -> stops is_space x -> rstrip x = x -> forallb is_space ws = true ->
  exists q, strip (pre ++ x ++ ws) = q ++ x.
Proof.
  intros Hx Hs Hr Hws. unfold strip, lstrip.
  rewrite app_assoc, rstrip_spaces by exact Hws.
  rewrite rstrip_app by (now rewrite Hr). rewrite Hr.
  now apply dropwhile_keeps_suffix.
Qed.

Lemma split_lines_single (x : str) :
  forallb (fun c => negb (Ascii.eqb c nl)) x = true -> split_lines x = [x].
Proof.
  induction x as [|c x IH]; simpl; [reflexivity|]. intros H.
  apply andb_true_iff in H as [Hc Hx]. apply negb_true_iff in Hc.
  now rewrite Hc, (IH Hx).
Qed.

(** The last line of a text that ends with a newline-free [x] ends with [x]. *)
Lemma split_lines_suffix (q x : str) :
  forallb (fun c => negb (Ascii.eqb c nl)) x = true ->
  exists init l, split_lines (q ++ x) = init ++ [l ++ x].
Proof.
  intros Hx. induction q as [|c q (init & l & IH)]; simpl.
  - exists [], []. now apply split_lines_single.
  - rewrite IH. destruct (Ascii.eqb c nl).
    + now exists ([] :: init), l.
    + destruct init as [|i init]; simpl.
      * now exists [], (c :: l).
      * now exists ((c :: i) :: init), l.
Qed.

Lemma last_n_keeps_last {A} (n : nat) (init : list A) (y : A) :
  0 < n -> exists init', last_n n (init ++ [y]) = init' ++ [y].
Proof.
  intros Hn. unfold last_n. rewrite length_app, skipn_app. simpl length.
  replace (length init + 1 - n - length init) with 0 by lia.
  now exists (skipn (length init + 1 - n) init).
Qed.

Lemma join_keeps_suffix (sep : str) (init : list str) (l x : str) :
  exists r, join sep (init ++ [l ++ x]) = r ++ x.
Proof.
  induction init as [|i init (r & IH)].
  - now exists l.
  - change ((i :: init) ++ [l ++ x]) with (i :: (init ++ [l ++ x])).
    destruct (init ++ [l ++ x]) as [|j rest] eqn:E.
    + destruct init; discriminate.
    + cbn [join]. cbn [join] in IH. exists (i ++ sep ++ r).
      rewrite <- !app_assoc. do 2 f_equal.
      destruct rest; exact IH.
Qed.

(** A text whose last line ends with [x] keeps [lower x] at the end of the
    text the classifier looks at. *)
Lemma last_text_suffix (pre x ws : str) :
  x <> [] -> stops is_space x -> rstrip x = x ->
  forallb (fun c => negb (Ascii.eqb c nl)) x = true ->
  forallb is_space ws = true ->
  exists r, last_text_of (pre ++ x ++ ws) = r ++ lower x.
Proof.
  intros Hx Hs Hr Hnl Hws. unfold last_text_of.
  destruct (strip_keeps_suffix pre x ws Hx Hs Hr Hws) as [q ->].
  destruct (split_lines_suffix q x Hnl) as (init & l & ->).
  destruct (last_n_keeps_last 3 init (l ++ x)) as [init' ->]; [lia|].
  destruct (join_keeps_suffix " " init' l x) as [r ->].
  exists (lower r). apply lower_app.
Qed.

Lemma existsb_near (indicators : list str) (text : str) :
  existsb (fun indicator => contains indicator text) indicators = true <->
  exists indicator, In indicator indicators /\ contains indicator text = true.
Proof. apply existsb_exists. Qed.

Lemma not_near (indicators : list str) (text : str) :
  ~ (exists indicator, In indicator indicators /\ contains indicator text = true) ->
  existsb (fun indicator => contains indicator text) indicators = false.
Proof.
  intros H. destruct (existsb _ indicators) eqn:E; [|reflexivity].
  apply existsb_near in E. contradiction.
Qed.

Lemma negative_marker_iff (code_text : str) :
  contains "# WRONG" code_text || contains "# BAD" code_text
    || contains "# ❌" code_text = true <-> negative_marker code_text.
Proof. unfold negative_marker. rewrite !orb_true_iff. tauto. Qed.


End ExampleFacts.

(** * Rules: how many, and their titles *)
Module RuleFacts.
Import Str Parser StrFacts.

Lemma create_rule_cases (section_title : str) (sub : option str) (body : str)
    (prio : Z) (globs tag_list : list str) :
  (has_prose body = true /\
   exists r, _create_rule section_title sub body prio globs tag_list = Some r
             /\ section r = section_title /\ subsection r = sub
             /\ title r = match open_title sub with
                          | Some t => t
                          | None => _extract_title (fst (_extract_content_and_examples body))
                          end)
  \/ (has_prose body = false /\
      _create_rule section_title sub body prio globs tag_list = None).
Proof.
  unfold _create_rule, has_prose. cbv zeta.
  destruct (nonempty (strip (fst (_extract_content_and_examples body)))).
  - left. split; [reflexivity|]. eexists. repeat split.
  - now right.
Qed.

Lemma headings_of_subsections (section_title : str) (prio : Z) (globs tag_list : list str)
    (subsections : Dict.t str) :
  map heading_of
      (flat_map (fun kv => rule_list (_create_rule section_title (Some (fst kv)) (snd kv)
                                        prio globs tag_list)) subsections)
  = map (fun kv => (section_title, Some (fst kv)))
        (filter (fun kv => has_prose (snd kv)) subsections).
Proof.
  induction subsections as [|[k v] rest IH]; [reflexivity|].
  cbn [flat_map filter fst snd]. rewrite map_app, IH.
  destruct (create_rule_cases section_title (Some k) v prio globs tag_list)
    as [(Hp & r & -> & Hs & Hsub & _) | (Hp & ->)]; rewrite Hp.
  - unfold heading_of. simpl. now rewrite Hs, Hsub.
  - reflexivity.
Qed.

Lemma parse_section_headings (section_title section_content : str) :
  map heading_of (_parse_section section_title section_content)
  = rule_headings section_title section_content.
Proof.
  unfold _parse_section, rule_headings. cbv zeta.
  destruct (_split_into_subsections section_content) as [|kv rest].
  - destruct (create_rule_cases section_title None section_content
                (_get_priority section_title) (_get_scope section_title)
                (_get_tags section_title))
      as [(Hp & r & -> & Hs & Hsub & _) | (Hp & ->)]; rewrite Hp.
    + unfold heading_of. simpl. now rewrite Hs, Hsub.
    + reflexivity.
  - apply headings_of_subsections.
Qed.

Lemma filter_all {A} (f : A -> bool) (l : list A) :
  forallb f l = true -> filter f l = l.
Proof.
  induction l as [|x l IH]; simpl; [reflexivity|]. intros H.
  apply andb_true_iff in H as [-> H]. now rewrite IH.
Qed.




End RuleFacts.

(** * Titles *)
Module TitleFacts.
Import Str Parser StrFacts RuleFacts.

Lemma endswith_app (a p : str) : endswith p (a ++ p) = true.
Proof. unfold endswith. rewrite rev_app_distr. apply startswith_app. Qed.

Lemma first_sentence_total (text : str) : exists derived, first_sentence text = Some derived.
Proof.
  unfold first_sentence, Re.split, Re.pieces. cbv zeta.
  destruct (map fst _ ++ [_]) as [|first rest] eqn:E.
  - destruct (map fst _); discriminate.
  - now exists (strip first).
Qed.

Lemma extract_title_long (text derived : str) :
  first_sentence text = Some derived -> 60 < length derived ->
  _extract_title text = firstn 57 derived ++ "..."
  /\ length (_extract_title text) = 60
  /\ endswith "..." (_extract_title text) = true.
Proof.
  intros Hd Hlen. unfold _extract_title. rewrite Hd.
  apply Nat.ltb_lt in Hlen as Hb. rewrite Hb.
  split; [reflexivity|]. split.
  - rewrite length_app, firstn_length_le by lia. reflexivity.
  - apply endswith_app.
Qed.

Lemma extract_title_short (text derived : str) :
  first_sentence text = Some derived -> length derived <= 60 ->
  _extract_title text = derived.
Proof.
  intros Hd Hlen. unfold _extract_title. rewrite Hd.
  apply Nat.ltb_ge in Hlen. now rewrite Hlen.
Qed.

Lemma extract_title_bound (text : str) : length (_extract_title text) <= 60.
Proof.
  destruct (first_sentence_total text) as [derived Hd].
  destruct (Nat.le_gt_cases (length derived) 60) as [H|H].
  - now rewrite (extract_title_short _ _ Hd H).
  - destruct (extract_title_long _ _ Hd H) as (_ & -> & _). lia.
Qed.




End TitleFacts.

(** * Facts about dictionaries *)
Module DictFacts.
Import StrFacts.

Section WithValues.
Context {V : Type}.
Implicit Types (d : Dict.t V) (k : str) (v : V).

Lemma get_set_same d k v : Dict.get (Dict.set d k v) k = Some v.
Proof.
  induction d as [|[k' v'] d IH]; simpl.
  - now rewrite eqb_refl.
  - destruct (Str.eqb k' k) eqn:E; simpl; rewrite E; [reflexivity | exact IH].
Qed.

Lemma get_set_other d k k' v : k <> k' -> Dict.get (Dict.set d k v) k' = Dict.get d k'.
Proof.
  intros Hne. induction d as [|[k0 v0] d IH]; simpl.
  - apply eqb_neq in Hne. now rewrite Hne.
  - destruct (Str.eqb k0 k) eqn:E; simpl.
    + apply eqb_eq in E. subst k0. apply eqb_neq in Hne. now rewrite Hne.
    + now rewrite IH.
Qed.

Lemma keys_set d k v :
  Dict.keys (Dict.set d k v) = if Dict.mem d k then Dict.keys d else Dict.keys d ++ [k].
Proof.
  unfold Dict.mem. induction d as [|[k' v'] d IH]; simpl; [reflexivity|].
  destruct (Str.eqb k' k) eqn:E; simpl; [reflexivity|].
  rewrite IH. now destruct (Dict.get d k).
Qed.

Lemma mem_in d k : Dict.mem d k = true <-> In k (Dict.keys d).
Proof.
  unfold Dict.mem. induction d as [|[k' v'] d IH]; simpl.
  - split; [discriminate | contradiction].
  - destruct (Str.eqb k' k) eqn:E.
    + apply eqb_eq in E. tauto.
    + apply eqb_neq in E. rewrite IH. split; [tauto | now intros [H|H]].
Qed.

Lemma set_keeps_nodup d k v : NoDup (Dict.keys d) -> NoDup (Dict.keys (Dict.set d k v)).
Proof.
  intros H. rewrite keys_set. destruct (Dict.mem d k) eqn:E; [exact H|].
  apply NoDup_app; [exact H | repeat constructor; intros [] |].
  intros x Hx [<-|[]]. apply mem_in in Hx. congruence.
Qed.

Lemma set_app_left (a b : Dict.t V) k v :
  Dict.mem a k = true -> Dict.set (a ++ b) k v = Dict.set a k v ++ b.
Proof.
  unfold Dict.mem. induction a as [|[k' v'] a IH]; simpl; [discriminate|].
  destruct (Str.eqb k' k); [reflexivity|]. intros H. now rewrite IH.
Qed.

Lemma set_app_right (a b : Dict.t V) k v :
  Dict.mem a k = false -> Dict.set (a ++ b) k v = a ++ Dict.set b k v.
Proof.
  unfold Dict.mem. induction a as [|[k' v'] a IH]; simpl; [reflexivity|].
  destruct (Str.eqb k' k); [discriminate|]. intros H. now rewrite IH.
Qed.

Lemma mem_set_other (a : Dict.t V) k k' v :
  k <> k' -> Dict.mem (Dict.set a k v) k' = Dict.mem a k'.
Proof. intros H. unfold Dict.mem. now rewrite get_set_other. Qed.

Lemma differ_at_start d k v1 v2 : Dict.differ_at k (Dict.set d k v1) (Dict.set d k v2).
Proof.
  induction d as [|[k' v'] d (a & w1 & w2 & b & E1 & E2 & Ha)]; simpl.
  - now exists [], v1, v2, [].
  - destruct (Str.eqb k' k) eqn:E.
    + apply eqb_eq in E. subst k'. now exists [], v1, v2, d.
    + exists ((k', v') :: a), w1, w2, b. rewrite E1, E2.
      repeat split. unfold Dict.mem in *. simpl. now rewrite E.
Qed.

Lemma differ_at_set_same d d' k v :
  Dict.differ_at k d d' -> Dict.set d k v = Dict.set d' k v.
Proof.
  intros (a & v1 & v2 & b & -> & -> & Ha).
  rewrite !set_app_right by exact Ha. simpl. now rewrite eqb_refl.
Qed.

Lemma differ_at_set_other d d' k k' v :
  k <> k' -> Dict.differ_at k d d' -> Dict.differ_at k (Dict.set d k' v) (Dict.set d' k' v).
Proof.
  intros Hne (a & v1 & v2 & b & -> & -> & Ha).
  destruct (Dict.mem a k') eqn:E.
  - rewrite !set_app_left by exact E.
    exists (Dict.set a k' v), v1, v2, b. repeat split.
    rewrite mem_set_other; [exact Ha | congruence].
  - rewrite !set_app_right by exact E. simpl.
    apply eqb_neq in Hne. rewrite Hne.
    now exists a, v1, v2, (Dict.set b k' v).
Qed.

End WithValues.

End DictFacts.

(** * The two splitting loops *)
Module SplitFacts.
Import Str Parser StrFacts DictFacts.

Section Loop.
Variable marker : str.
Variable ordinal : Re.matcher unit.

Local Abbreviation step := (split_step marker ordinal).
Local Abbreviation run := (fold_left (split_step marker ordinal)).
Local Abbreviation title_of := (heading_title marker ordinal).

Lemma open_title_some (t : str) : t <> [] -> open_title (Some t) = Some t.
Proof. destruct t; [contradiction | reflexivity]. Qed.

Lemma open_title_inv (c : option str) (t : str) :
  open_title c = Some t -> c = Some t /\ t <> [].
Proof.
  destruct c as [[|x s]|]; simpl; try discriminate.
  intros [= <-]. split; [reflexivity | discriminate].
Qed.

Lemma step_heading (st : splitter) (line : str) :
  startswith marker line = true ->
  step st line = {| entries := save st; current := Some (title_of line); gathered := [] |}.
Proof. intros H. unfold split_step. now rewrite H. Qed.

Lemma step_plain_open (st : splitter) (line t : str) :
  plain marker line -> open_title (current st) = Some t ->
  step st line = {| entries := entries st; current := current st;
                    gathered := gathered st ++ [line] |}.
Proof. intros H Ho. unfold split_step. now rewrite H, Ho. Qed.

Lemma step_plain_closed (st : splitter) (line : str) :
  plain marker line -> open_title (current st) = None -> step st line = st.
Proof. intros H Ho. unfold split_step. now rewrite H, Ho. Qed.

Lemma run_plain_open (body : list str) (st : splitter) (t : str) :
  Forall (plain marker) body -> open_title (current st) = Some t ->
  run body st = {| entries := entries st; current := current st;
                   gathered := gathered st ++ body |}.
Proof.
  intros Hb. revert st. induction Hb as [|l body Hl Hb IH]; intros st Ho; simpl.
  - rewrite app_nil_r. now destruct st.
  - rewrite (step_plain_open st l t Hl Ho), IH by exact Ho. simpl.
    now rewrite <- app_assoc.
Qed.

Lemma run_plain_closed (body : list str) (st : splitter) :
  Forall (plain marker) body -> open_title (current st) = None -> run body st = st.
Proof.
  intros Hb Ho. induction Hb as [|l body Hl Hb IH]; simpl; [reflexivity|].
  now rewrite (step_plain_closed st l Hl Ho).
Qed.

(** *** The mapping has one entry per title *)

Lemma save_nodup (st : splitter) :
  NoDup (Dict.keys (entries st)) -> NoDup (Dict.keys (save st)).
Proof.
  intros H. unfold save. destruct (open_title (current st)); [|exact H].
  now apply set_keeps_nodup.
Qed.

Lemma run_nodup (text_lines : list str) (st : splitter) :
  NoDup (Dict.keys (entries st)) -> NoDup (Dict.keys (entries (run text_lines st))).
Proof.
  revert st. induction text_lines as [|l rest IH]; intros st H; simpl; [exact H|].
  apply IH. unfold split_step.
  destruct (startswith marker l); simpl; [now apply save_nodup|].
  now destruct (open_title (current st)).
Qed.

Lemma split_loop_nodup (text_lines : list str) :
  NoDup (Dict.keys (split_loop marker ordinal text_lines)).
Proof. apply save_nodup, run_nodup. constructor. Qed.

(** *** The body of the last heading with a given title is the one kept *)

Lemma save_other (st : splitter) (t : str) :
  open_title (current st) <> Some t -> Dict.get (save st) t = Dict.get (entries st) t.
Proof.
  intros H. unfold save. destruct (open_title (current st)) as [k|] eqn:E; [|reflexivity].
  apply get_set_other. congruence.
Qed.

Lemma run_keeps_entry (post : list str) (st : splitter) (t : str) (v : str) :
  Forall (fun l => ~ titled marker ordinal t l) post ->
  open_title (current st) <> Some t ->
  Dict.get (entries st) t = Some v ->
  Dict.get (save (run post st)) t = Some v.
Proof.
  intros Hp. revert st. induction Hp as [|l post Hl Hp IH]; intros st Hc Hg; simpl.
  - now rewrite save_other.
  - destruct (startswith marker l) eqn:E.
    + rewrite (step_heading st l E). apply IH; cbn [current entries].
      * intros Ho. apply open_title_inv in Ho as [[= Ho] _]. apply Hl. now split.
      * now rewrite save_other.
    + destruct (open_title (current st)) as [k|] eqn:Eo.
      * rewrite (step_plain_open st l k E Eo).
        apply IH; cbn [current entries]; [now rewrite Eo | exact Hg].
      * rewrite (step_plain_closed st l E Eo). apply IH; [now rewrite Eo | exact Hg].
Qed.

Lemma save_open (e : Dict.t str) (t : str) (g : list str) :
  t <> [] ->
  save {| entries := e; current := Some t; gathered := g |} = Dict.set e t (lines g).
Proof. intros H. unfold save. cbn [current entries gathered]. now rewrite open_title_some. Qed.

Lemma last_body_kept (pre body post : list str) (h t : str) :
  titled marker ordinal t h -> t <> [] ->
  Forall (plain marker) body ->
  (post = [] \/ exists h' post', post = h' :: post' /\ startswith marker h' = true) ->
  Forall (fun l => ~ titled marker ordinal t l) post ->
  Dict.get (split_loop marker ordinal (pre ++ h :: body ++ post)) t = Some (lines body).
Proof.
  intros [Hh Ht] Hne Hbody Hpost Hlast. unfold split_loop.
  rewrite fold_left_app. cbn [fold_left]. rewrite fold_left_app.
  set (st0 := run pre _).
  rewrite (step_heading st0 h Hh), Ht.
  rewrite (run_plain_open body _ t Hbody)
    by (cbn [current]; now apply open_title_some).
  cbn [current entries gathered app].
  destruct Hpost as [-> | (h' & post' & -> & Hh')].
  - cbn [fold_left]. rewrite save_open by exact Hne. apply get_set_same.
  - cbn [fold_left]. rewrite (step_heading _ h' Hh').
    apply Forall_inv in Hlast as Hh't. apply Forall_inv_tail in Hlast.
    apply run_keeps_entry; cbn [current entries]; [exact Hlast | |].
    + intros Ho. apply open_title_inv in Ho as [[= Ho] _]. apply Hh't. now split.
    + rewrite save_open by exact Hne. apply get_set_same.
Qed.

(** *** The body of an earlier heading with the same title leaves no trace *)

Lemma save_differ (st st' : splitter) (t : str) :
  Dict.differ_at t (entries st) (entries st') ->
  current st = current st' -> gathered st = gathered st' ->
  (open_title (current st) = Some t /\ save st = save st')
  \/ (open_title (current st) <> Some t /\ Dict.differ_at t (save st) (save st')).
Proof.
  intros Hd Hc Hg. unfold save. rewrite <- Hc, <- Hg.
  destruct (open_title (current st)) as [k|] eqn:E.
  - destruct (Str.eqb k t) eqn:Ek.
    + apply eqb_eq in Ek. subst k. left. split; [reflexivity|].
      now apply differ_at_set_same.
    + apply eqb_neq in Ek. right. split; [congruence|].
      apply differ_at_set_other; [congruence | exact Hd].
  - right. split; [discriminate | exact Hd].
Qed.

Lemma run_differ (rest : list str) (st st' : splitter) (t : str) :
  Dict.differ_at t (entries st) (entries st') ->
  current st = current st' -> gathered st = gathered st' ->
  open_title (current st) = Some t \/ Exists (titled marker ordinal t) rest ->
  t <> [] ->
  save (run rest st) = save (run rest st').
Proof.
  intros Hd Hc Hg Hpending Hne. revert st st' Hd Hc Hg Hpending.
  induction rest as [|l rest IH]; intros st st' Hd Hc Hg Hpending; cbn [fold_left].
  - destruct Hpending as [Ho | Hex]; [|inversion Hex].
    destruct (save_differ st st' t Hd Hc Hg) as [[_ H] | [H _]]; [exact H | contradiction].
  - destruct (startswith marker l) eqn:El.
    + rewrite !step_heading by exact El.
      destruct (save_differ st st' t Hd Hc Hg) as [[_ H] | [Hno H]].
      * now rewrite H.
      * apply IH; cbn [current entries gathered]; auto.
        destruct Hpending as [Ho | Hex]; [contradiction|].
        apply Exists_cons in Hex as [[_ Hl] | Hex]; [left | now right].
        rewrite Hl. now apply open_title_some.
    + assert (Hrest : open_title (current st) = Some t
                      \/ Exists (titled marker ordinal t) rest).
      { destruct Hpending as [Ho | Hex]; [now left|].
        apply Exists_cons in Hex as [[Hl _] | Hex]; [congruence | now right]. }
      destruct (open_title (current st)) as [k|] eqn:Eo.
      * rewrite (step_plain_open st l k El Eo).
        rewrite (step_plain_open st' l k El) by (now rewrite <- Hc).
        apply IH; cbn [current entries gathered]; auto.
        -- now rewrite Hg.
        -- destruct Hrest as [Ho | Hex]; [left | now right].
           now rewrite Eo.
      * rewrite (step_plain_closed st l El Eo).
        rewrite (step_plain_closed st' l El) by (now rewrite <- Hc).
        apply IH; auto.
        destruct Hrest as [Ho | Hex]; [discriminate | now right].
Qed.

Lemma run_same_gathered (rest : list str) (e : Dict.t str) (t : str) (g g' : list str) :
  t <> [] -> Exists (titled marker ordinal t) rest ->
  save (run rest {| entries := e; current := Some t; gathered := g |})
  = save (run rest {| entries := e; current := Some t; gathered := g' |}).
Proof.
  intros Hne Hex. revert g g'. induction rest as [|l rest IH]; intros g g'; [inversion Hex|].
  cbn [fold_left]. destruct (startswith marker l) eqn:El.
  - rewrite !step_heading by exact El. rewrite !save_open by exact Hne.
    apply run_differ with (t := t); cbn [current entries gathered]; auto.
    + apply differ_at_start.
    + apply Exists_cons in Hex as [[_ Hl] | Hex]; [left | now right].
      rewrite Hl. now apply open_title_some.
  - rewrite !(step_plain_open _ l t El) by (cbn [current]; now apply open_title_some).
    cbn [current entries gathered]. apply IH.
    apply Exists_cons in Hex as [[Hl _] | Hex]; [congruence | exact Hex].
Qed.

Lemma earlier_body_dropped (pre body rest : list str) (h : str) :
  startswith marker h = true -> Forall (plain marker) body ->
  Exists (titled marker ordinal (title_of h)) rest ->
  split_loop marker ordinal (pre ++ h :: body ++ rest)
  = split_loop marker ordinal (pre ++ h :: rest).
Proof.
  intros Hh Hbody Hex. unfold split_loop.
  rewrite !fold_left_app. cbn [fold_left]. rewrite fold_left_app.
  set (st0 := run pre _). rewrite (step_heading st0 h Hh).
  destruct (title_of h) as [|c t] eqn:Et.
  - rewrite (run_plain_closed body) by (auto; reflexivity). reflexivity.
  - rewrite (run_plain_open body _ (c :: t) Hbody) by reflexivity.
    cbn [current entries gathered app].
    apply run_same_gathered; [discriminate | exact Hex].
Qed.

(** A heading with a title that is not empty always leaves an entry. *)
Lemma run_keeps_mem (rest : list str) (st : splitter) (t : str) :
  Dict.mem (entries st) t = true \/ open_title (current st) = Some t ->
  Dict.mem (save (run rest st)) t = true.
Proof.
  assert (Hsave : forall st, Dict.mem (entries st) t = true \/ open_title (current st) = Some t ->
                             Dict.mem (save st) t = true).
  { intros s [H | H]; unfold save.
    - destruct (open_title (current s)) as [k|]; [|exact H].
      destruct (Str.eqb k t) eqn:E.
      + apply eqb_eq in E. subst k. unfold Dict.mem. now rewrite get_set_same.
      + apply eqb_neq in E. now rewrite mem_set_other.
    - rewrite H. unfold Dict.mem. now rewrite get_set_same. }
  revert st. induction rest as [|l rest IH]; intros st H; simpl; [now apply Hsave|].
  apply IH. destruct (startswith marker l) eqn:El.
  - rewrite (step_heading st l El). left. now apply Hsave.
  - destruct (open_title (current st)) as [k|] eqn:E.
    + rewrite (step_plain_open st l k El E). cbn [current entries].
      destruct H as [H | H]; [now left | right; congruence].
    + rewrite (step_plain_closed st l El E).
      destruct H as [H | H]; [now left | discriminate].
Qed.

Lemma titled_leaves_entry (text_lines : list str) (t : str) :
  t <> [] -> Exists (titled marker ordinal t) text_lines ->
  Dict.mem (split_loop marker ordinal text_lines) t = true.
Proof.
  intros Hne Hex. unfold split_loop.
  apply Exists_exists in Hex as (h & Hin & Hh & Ht).
  apply in_split in Hin as (pre & post & ->).
  rewrite fold_left_app. simpl. rewrite (step_heading _ h Hh), Ht.
  apply run_keeps_mem. right. simpl. now apply open_title_some.
Qed.

End Loop.

End SplitFacts.

(** * Headings with the same title *)
Module DuplicateFacts.
Import Str Parser StrFacts DictFacts SplitFacts.

Lemma parse_section_same_subsections (section_title body body' : str) :
  _split_into_subsections body = _split_into_subsections body' ->
  _split_into_subsections body <> [] ->
  _parse_section section_title body = _parse_section section_title body'.
Proof.
  intros E Hne. unfold _parse_section. cbv zeta. rewrite <- E.
  destruct (_split_into_subsections body); [contradiction | reflexivity].
Qed.

Lemma mem_not_nil {V} (d : Dict.t V) (k : str) : Dict.mem d k = true -> d <> [].
Proof. now destruct d. Qed.




End DuplicateFacts.

(** * Merging the files of the transformers *)
Module MergeFacts.
Import StrFacts DictFacts.

Lemma get_none_iff {V} (d : Dict.t V) (k : str) :
  Dict.get d k = None <-> ~ In k (Dict.keys d).
Proof.
  rewrite <- mem_in. unfold Dict.mem. destruct (Dict.get d k); split; intros H;
    try discriminate; try reflexivity; exfalso; now apply H.
Qed.

(** [d.update(other)]: the entries of [other] win, the rest of [d] stays. *)
Lemma get_update {V} (other d : Dict.t V) (k : str) :
  NoDup (Dict.keys other) ->
  Dict.get (Dict.update d other) k
  = match Dict.get other k with
    | Some v => Some v
    | None => Dict.get d k
    end.
Proof.
  unfold Dict.update. revert d.
  induction other as [|[k0 v0] other IH]; intros d Hnd; [reflexivity|].
  cbn [fold_left fst snd]. inversion Hnd as [|? ? Hk0 Hnd']; subst.
  rewrite IH by exact Hnd'. cbn [Dict.get].
  destruct (Str.eqb k0 k) eqn:E.
  - apply eqb_eq in E. subst k0.
    apply get_none_iff in Hk0. now rewrite Hk0, get_set_same.
  - apply eqb_neq in E. now rewrite get_set_other.
Qed.

Lemma update_nodup {V} (other d : Dict.t V) :
  NoDup (Dict.keys d) -> NoDup (Dict.keys (Dict.update d other)).
Proof.
  unfold Dict.update. revert d.
  induction other as [|[k0 v0] other IH]; intros d H; [exact H|].
  cbn [fold_left fst snd]. apply IH. now apply set_keeps_nodup.
Qed.

(** C4: the merged file map holds, for every path, the content of the last
    transformer of the roster (Cursor, Claude, GitHub Copilot, Aider) that
    emits the path: on a collision the later transformer wins, a path only
    one transformer emits keeps that content, and a path no transformer emits
    is absent.  The keys of the merged map are unique. *)
Theorem C4_later_transformer_wins
    (cursor claude copilot aider : SyncGenerator.transformer)
    (rules : list Parser.Rule) (path : str) :
  NoDup (Dict.keys (cursor rules)) -> NoDup (Dict.keys (claude rules)) ->
  NoDup (Dict.keys (copilot rules)) -> NoDup (Dict.keys (aider rules)) ->
  Dict.get (SyncGenerator.transform_all cursor claude copilot aider rules) path
  = match Dict.get (aider rules) path with
    | Some text => Some text
    | None =>
        match Dict.get (copilot rules) path with
        | Some text => Some text
        | None =>
            match Dict.get (claude rules) path with
            | Some text => Some text
            | None => Dict.get (cursor rules) path
            end
        end
    end
  /\ NoDup (Dict.keys (SyncGenerator.transform_all cursor claude copilot aider rules)).
Proof.
  intros H1 H2 H3 H4. unfold SyncGenerator.transform_all, SyncGenerator.transformers.
  cbn [fold_left snd]. split.
  - rewrite !get_update by assumption. cbn [Dict.get Dict.empty].
    now destruct (Dict.get (cursor rules) path).
  - repeat apply update_nodup. constructor.
Qed.

Lemma C4_later_transformer_wins_witness :
  Dict.get
    (SyncGenerator.transform_all
       (fun _ => [(".cursor/rules/006_security.mdc" : str, "cursor text" : str)])
       (fun _ => [("CLAUDE.md" : str, "claude text" : str);
                  (".cursor/rules/006_security.mdc" : str, "claude security" : str)])
       (fun _ => [(".github/copilot-instructions.md" : str, "copilot text" : str)])
       (fun _ => [(".aider/.aider.conf.yml" : str, "aider text" : str)])
       [])
    ".cursor/rules/006_security.mdc"
  = Some ("claude security" : str).
Proof.
  refine (eq_trans (proj1 (C4_later_transformer_wins _ _ _ _ [] _ _ _ _ _)) _);
    try reflexivity; repeat constructor; simpl; intuition discriminate.
Defined.

End MergeFacts.

(** * The validator *)
Module ValidatorFacts.
Import Str Validator StrFacts.

Section Monad.
Context {A B : Type}.

Lemma keeps_ret (a : A) : keeps_errors (ret a).
Proof. intros st a' st' [= _ <-]. lia. Qed.

Lemma keeps_raise (e : exn) : keeps_errors (raise (A := A) e).
Proof. intros st a st' H. discriminate. Qed.

Lemma adds_raise (e : exn) : adds_error (raise (A := A) e).
Proof. intros st a st' H. discriminate. Qed.

Lemma adds_keeps (m : M A) : adds_error m -> keeps_errors m.
Proof. intros H st a st' E. apply H in E. lia. Qed.

Lemma keeps_bind (m : M A) (k : A -> M B) :
  keeps_errors m -> (forall a, keeps_errors (k a)) -> keeps_errors (bind m k).
Proof.
  intros Hm Hk st b st' E. unfold bind in E.
  destruct (m st) as [a st1 | e st1] eqn:Em; [|discriminate].
  apply Hm in Em. apply Hk in E. lia.
Qed.

Lemma adds_bind_l (m : M A) (k : A -> M B) :
  adds_error m -> (forall a, keeps_errors (k a)) -> adds_error (bind m k).
Proof.
  intros Hm Hk st b st' E. unfold bind in E.
  destruct (m st) as [a st1 | e st1] eqn:Em; [|discriminate].
  apply Hm in Em. apply Hk in E. lia.
Qed.

Lemma adds_bind_r (m : M A) (k : A -> M B) :
  keeps_errors m -> (forall a, adds_error (k a)) -> adds_error (bind m k).
Proof.
  intros Hm Hk st b st' E. unfold bind in E.
  destruct (m st) as [a st1 | e st1] eqn:Em; [|discriminate].
  apply Hm in Em. apply Hk in E. lia.
Qed.

Lemma returns_ret (a : A) : returns (ret a).
Proof. intros st. now exists a, st. Qed.

Lemma returns_bind (m : M A) (k : A -> M B) :
  returns m -> (forall a, returns (k a)) -> returns (bind m k).
Proof.
  intros Hm Hk st. destruct (Hm st) as (a & st1 & Em).
  destruct (Hk a st1) as (b & st2 & Ek). exists b, st2.
  unfold bind. now rewrite Em.
Qed.

End Monad.

Lemma adds_append_error (message : str) : adds_error (append_error message).
Proof.
  intros st a st' [= _ <-]. cbn [errors]. rewrite length_app. simpl. lia.
Qed.

Lemma keeps_append_warning (message : str) : keeps_errors (append_warning message).
Proof. intros st a st' [= _ <-]. cbn [errors]. lia. Qed.

Lemma returns_append_error (message : str) : returns (append_error message).
Proof. intros st. eexists _, _. reflexivity. Qed.

Lemma returns_append_warning (message : str) : returns (append_warning message).
Proof. intros st. eexists _, _. reflexivity. Qed.

Lemma keeps_when (b : bool) (m : M unit) : keeps_errors m -> keeps_errors (when b m).
Proof. intros H. destruct b; [exact H | apply keeps_ret]. Qed.

Lemma returns_when (b : bool) (m : M unit) : returns m -> returns (when b m).
Proof. intros H. destruct b; [exact H | apply returns_ret]. Qed.

Lemma keeps_for_each {A} (xs : list A) (body : A -> M unit) :
  (forall x, keeps_errors (body x)) -> keeps_errors (for_each xs body).
Proof.
  intros H. induction xs as [|x xs IH]; cbn [for_each].
  - apply keeps_ret.
  - apply keeps_bind; [apply H | intros _; exact IH].
Qed.

Lemma returns_for_each {A} (xs : list A) (body : A -> M unit) :
  (forall x, returns (body x)) -> returns (for_each xs body).
Proof.
  intros H. induction xs as [|x xs IH]; cbn [for_each].
  - apply returns_ret.
  - apply returns_bind; [apply H | intros _; exact IH].
Qed.

Lemma adds_for_each {A} (xs : list A) (body : A -> M unit) (x : A) :
  (forall y, keeps_errors (body y)) -> In x xs -> adds_error (body x) ->
  adds_error (for_each xs body).
Proof.
  intros Hk Hin Hx. induction xs as [|y xs IH]; [contradiction|].
  cbn [for_each]. destruct Hin as [-> | Hin].
  - apply adds_bind_l; [exact Hx | intros _; now apply keeps_for_each].
  - apply adds_bind_r; [apply Hk | intros _; now apply IH].
Qed.

Create HintDb validator.
#[local] Hint Resolve keeps_ret keeps_raise adds_keeps adds_append_error
  keeps_append_warning keeps_when keeps_for_each returns_ret returns_append_error
  returns_append_warning returns_when returns_for_each : validator.

Section WithYaml.
Variable safe_load : Yaml.loader.

Lemma keeps_validate_yaml (filepath text : str) :
  keeps_errors (_validate_yaml safe_load filepath text).
Proof. unfold _validate_yaml. destruct (safe_load text); auto with validator. Qed.

Lemma keeps_validate_markdown (filepath text : str) :
  keeps_errors (_validate_markdown filepath text).
Proof.
  unfold _validate_markdown. apply keeps_bind; [auto with validator|].
  intros _. auto with validator.
Qed.

Lemma adds_validate_markdown (filepath text : str) :
  odd_fences text = true -> adds_error (_validate_markdown filepath text).
Proof.
  intros H. unfold _validate_markdown. rewrite H. cbn [when].
  apply adds_bind_l; [apply adds_append_error|]. intros _. auto with validator.
Qed.

Lemma returns_validate_markdown (filepath text : str) :
  returns (_validate_markdown filepath text).
Proof.
  unfold _validate_markdown. apply returns_bind; [auto with validator|].
  intros _. auto with validator.
Qed.

Lemma keeps_warn_if_missing (filepath key : str) (metadata : Yaml.value) :
  keeps_errors (warn_if_missing filepath key metadata).
Proof. unfold warn_if_missing. destruct (Yaml.py_in key metadata); auto with validator. Qed.

Lemma keeps_frontmatter (filepath frontmatter : str) :
  keeps_errors
    (match safe_load frontmatter with
     | Yaml.Loaded metadata =>
         warn_if_missing filepath "priority" metadata ;;
         warn_if_missing filepath "globs" metadata
     | Yaml.YAMLError e => append_error (filepath ++ ": Invalid frontmatter YAML: " ++ e)
     | Yaml.OtherError e => raise (Propagated e)
     end).
Proof.
  destruct (safe_load frontmatter); auto with validator.
  apply keeps_bind; [|intros _]; apply keeps_warn_if_missing.
Qed.

Lemma keeps_validate_mdc (filepath text : str) :
  keeps_errors (_validate_mdc safe_load filepath text).
Proof.
  unfold _validate_mdc. destruct (negb (startswith "---" text)); [auto with validator|].
  cbv zeta. destruct (length (Re.split_max "---" 2 text) <? 3); [auto with validator|].
  apply keeps_bind; [apply keeps_frontmatter | intros _; apply keeps_validate_markdown].
Qed.

Lemma adds_validate_mdc (filepath text : str) :
  mdc_rejected text = true -> adds_error (_validate_mdc safe_load filepath text).
Proof.
  unfold mdc_rejected, _validate_mdc. intros H.
  destruct (negb (startswith "---" text)); [apply adds_append_error|].
  cbv zeta. destruct (length (Re.split_max "---" 2 text) <? 3); [apply adds_append_error|].
  cbn [orb] in H.
  apply adds_bind_r; [apply keeps_frontmatter | intros _; now apply adds_validate_markdown].
Qed.

Lemma keeps_long_lines (filepath : str) (numbered : list (nat * str)) (in_code_block : bool) :
  keeps_errors (long_lines filepath in_code_block numbered).
Proof.
  revert in_code_block. induction numbered as [|[i line] rest IH]; intros in_code_block;
    cbn [long_lines]; [auto with validator|].
  destruct (startswith "```" (strip line)); [apply IH|].
  apply keeps_bind; [auto with validator | intros _; apply IH].
Qed.

Lemma returns_long_lines (filepath : str) (numbered : list (nat * str)) (in_code_block : bool) :
  returns (long_lines filepath in_code_block numbered).
Proof.
  revert in_code_block. induction numbered as [|[i line] rest IH]; intros in_code_block;
    cbn [long_lines]; [auto with validator|].
  destruct (startswith "```" (strip line)); [apply IH|].
  apply returns_bind; [auto with validator | intros _; apply IH].
Qed.

Lemma keeps_validate_common (filepath text : str) :
  keeps_errors (_validate_common filepath text).
Proof.
  unfold _validate_common. cbv zeta.
  apply keeps_bind; [auto with validator | intros _].
  apply keeps_bind; [auto with validator | intros _]. apply keeps_long_lines.
Qed.

Lemma returns_validate_common (filepath text : str) :
  returns (_validate_common filepath text).
Proof.
  unfold _validate_common. cbv zeta.
  apply returns_bind; [auto with validator | intros _].
  apply returns_bind; [auto with validator | intros _]. apply returns_long_lines.
Qed.

Lemma keeps_validate_file (filepath text : str) :
  keeps_errors (_validate_file safe_load filepath text).
Proof.
  unfold _validate_file.
  apply keeps_bind; [|intros _; apply keeps_validate_common].
  destruct (_ || _); [apply keeps_validate_yaml|].
  destruct (Str.eqb (suffix filepath) ".mdc"); [apply keeps_validate_mdc|].
  destruct (Str.eqb (suffix filepath) ".md");
    [apply keeps_validate_markdown | apply keeps_ret].
Qed.

Lemma adds_validate_file (filepath text : str) :
  blocked filepath text -> adds_error (_validate_file safe_load filepath text).
Proof.
  intros H. unfold _validate_file.
  apply adds_bind_l; [|intros _; apply keeps_validate_common].
  destruct H as [[-> H] | [-> H]]; cbn [Str.eqb orb].
  - change (Str.eqb ".md" ".yaml" || Str.eqb ".md" ".yml") with false.
    change (Str.eqb ".md" ".mdc") with false.
    change (Str.eqb ".md" ".md") with true. cbv iota.
    now apply adds_validate_markdown.
  - change (Str.eqb ".mdc" ".yaml" || Str.eqb ".mdc" ".yml") with false.
    change (Str.eqb ".mdc" ".mdc") with true. cbv iota.
    now apply adds_validate_mdc.
Qed.

Hypothesis loader_ok : mapping_or_error safe_load.

Lemma returns_validate_yaml (filepath text : str) :
  returns (_validate_yaml safe_load filepath text).
Proof.
  unfold _validate_yaml.
  destruct (loader_ok text) as [[items ->] | [e ->]]; auto with validator.
Qed.

Lemma returns_validate_mdc (filepath text : str) :
  returns (_validate_mdc safe_load filepath text).
Proof.
  unfold _validate_mdc. destruct (negb (startswith "---" text)); [auto with validator|].
  cbv zeta. destruct (length (Re.split_max "---" 2 text) <? 3); [auto with validator|].
  apply returns_bind; [|intros _; apply returns_validate_markdown].
  destruct (loader_ok (nth 1 (Re.split_max "---" 2 text) [])) as [[items ->] | [e ->]];
    [|auto with validator].
  apply returns_bind; [|intros _]; unfold warn_if_missing; cbn [Yaml.py_in];
    auto with validator.
Qed.

Lemma returns_validate_file (filepath text : str) :
  returns (_validate_file safe_load filepath text).
Proof.
  unfold _validate_file.
  apply returns_bind; [|intros _; apply returns_validate_common].
  destruct (_ || _); [apply returns_validate_yaml|].
  destruct (Str.eqb (suffix filepath) ".mdc"); [apply returns_validate_mdc|].
  destruct (Str.eqb (suffix filepath) ".md");
    [apply returns_validate_markdown | apply returns_ret].
Qed.

End WithYaml.

Lemma length_zero_iff {A} (l : list A) : (length l =? 0) = true <-> l = [].
Proof. destruct l; simpl; split; intros H; congruence. Qed.




(** C3: the empty frontmatter.  PyYAML loads a block without content as
    [None]; the membership test on it raises a [TypeError], which is not a
    [YAMLError] and leaves [validate_all] as an exception: no boolean is
    returned and no warning is recorded.  A frontmatter that is a mapping
    without the two keys gives the two warnings and no error. *)
Theorem C3_empty_frontmatter_raises (safe_load : Yaml.loader) (st0 : state) :
  safe_load [nl] = Yaml.Loaded Yaml.Null ->
  validate_all safe_load
    [(".cursor/rules/001_workspace.mdc" : str, lines (texts ["---"; "---"; "# Workspace"; ""]))]
    st0
  = Raised (TypeError "argument is not iterable") {| errors := []; warnings := [] |}.
Proof.
  intros H. unfold validate_all, bind. cbn [for_each fst snd].
  unfold _validate_file, bind.
  change (suffix ".cursor/rules/001_workspace.mdc") with (".mdc" : str).
  cbn [Str.eqb orb].
  change (Str.eqb ".mdc" ".yaml" || Str.eqb ".mdc" ".yml") with false.
  change (Str.eqb ".mdc" ".mdc") with true. cbv iota.
  unfold _validate_mdc.
  change (Re.split_max "---" 2 (lines (texts ["---"; "---"; "# Workspace"; ""])))
    with ([[]; [nl]; lines (texts [""; "# Workspace"; ""])]).
  cbn [negb startswith length Nat.ltb Nat.leb nth]. cbv zeta.
  change (negb (startswith "---" (lines (texts ["---"; "---"; "# Workspace"; ""]))))
    with false. cbv iota.
  unfold bind. rewrite H. reflexivity.
Qed.

Lemma C3_empty_frontmatter_raises_witness :
  validate_all example_loader
    [(".cursor/rules/001_workspace.mdc" : str, lines (texts ["---"; "---"; "# Workspace"; ""]))]
    fresh
  = Raised (TypeError "argument is not iterable") {| errors := []; warnings := [] |}
  /\ validate_all example_loader
       [(".cursor/rules/001_workspace.mdc" : str,
         lines (texts ["---"; "title: Security"; "---"; "# Workspace"; ""]))]
       fresh
     = Returned true
         {| errors := [];
            warnings := [".cursor/rules/001_workspace.mdc: Missing 'priority' in frontmatter" : str;
                         ".cursor/rules/001_workspace.mdc: Missing 'globs' in frontmatter" : str] |}.
Proof.
  split; [|reflexivity].
  apply (C3_empty_frontmatter_raises example_loader fresh). reflexivity.
Defined.

End ValidatorFacts.

(** * Substitution without the bound, and tokens *)
Module TokenFacts.
Import Str BaseTransformer StrFacts OrdinalFacts.

Section Sub.
Context {A : Type} (m : Re.matcher A) (repl : str).

Local Abbreviation render := (Re.render repl).

Lemma render_push (c : ascii) (r : list (str * A) * str) :
  render (Re.push c r) = c :: render r.
Proof. destruct r as [[|[t a] segs] rest]; reflexivity. Qed.

Lemma render_scan_from (s : str) :
  forall limit prev skip, length s <= limit ->
    render (Re.scan_from m limit prev skip s) = Re.sub_from m repl prev skip s.
Proof.
  induction s as [|c s IH]; intros limit prev skip Hl; [reflexivity|].
  simpl in Hl. destruct skip as [|n]; cbn [Re.scan_from Re.sub_from].
  - destruct limit as [|limit']; [lia|].
    destruct (m prev (c :: s)) as [[a len]|].
    + unfold Re.render. cbn [fst snd flat_map app]. rewrite <- app_assoc.
      f_equal. apply IH. lia.
    + rewrite render_push. f_equal. apply IH. lia.
  - apply IH. lia.
Qed.

Lemma sub_unbounded (s : str) : Re.sub m repl s = Re.sub_from m repl None 0 s.
Proof. unfold Re.sub, Re.scan. now apply render_scan_from. Qed.

Lemma last_cons {B} (l : list B) (x d : B) : last (x :: l) d = last l x.
Proof.
  revert x d. induction l as [|y l IH]; intros x d; [reflexivity|].
  change (last (x :: y :: l) d) with (last (y :: l) d). now rewrite !IH.
Qed.

(** Skipping the rest of a match. *)
Lemma sub_from_skip (a b : str) (prev : option ascii) :
  Re.sub_from m repl prev (length a) (a ++ b)
  = Re.sub_from m repl (last (map Some a) prev) 0 b.
Proof.
  revert prev. induction a as [|c a IH]; intros prev; [reflexivity|].
  cbn [length app Re.sub_from]. rewrite IH. f_equal.
  cbn [map]. now rewrite last_cons.
Qed.

End Sub.

(** *** Character classes under [lower] *)

Lemma is_word_lower (c : ascii) : is_word (lower_char c) = is_word c.
Proof. by_ascii_cases c. Qed.

Lemma forallb_word_lower (t : str) : forallb is_word (lower t) = forallb is_word t.
Proof. induction t as [|c t IH]; simpl; [reflexivity|]. now rewrite is_word_lower, IH. Qed.

Lemma lower_length (t : str) : length (lower t) = length t.
Proof. apply length_map. Qed.

Lemma lower_concat (ts : list str) : lower (concat ts) = concat (map lower ts).
Proof. unfold lower. apply concat_map. Qed.

(** *** Tokens *)

Lemma concat_tokens (s : str) : concat (tokens s) = s.
Proof.
  induction s as [|c s IH]; [reflexivity|]. cbn [tokens].
  destruct (is_word c); [|simpl; now rewrite IH].
  destruct (tokens s) as [|[|d t] ts]; simpl in *; try (now rewrite IH).
  destruct (is_word d); simpl; now rewrite <- IH.
Qed.

Lemma tokens_sep (c : ascii) (s : str) :
  is_word c = false -> tokens (c :: s) = [c] :: tokens s.
Proof. intros H. cbn [tokens]. now rewrite H. Qed.

Lemma tokens_no_empty (s : str) : ~ In [] (tokens s).
Proof.
  induction s as [|c s IH]; [intros []|]. cbn [tokens].
  destruct (is_word c).
  - destruct (tokens s) as [|[|d t] ts] eqn:E.
    + intros [H|[]]. discriminate.
    + exfalso. apply IH. now left.
    + destruct (is_word d); intros [H|H]; try discriminate.
      * apply IH. now right.
      * apply IH. exact H.
  - intros [H|H]; [discriminate | now apply IH].
Qed.

(** The head of the tokens of a text that does not begin with a word
    character is a separator. *)
Lemma tokens_stops (s : str) : stops is_word s -> sep_or_end (tokens s) = true.
Proof.
  destruct s as [|c s]; [reflexivity|]. simpl. intros H.
  rewrite H. simpl. now rewrite H.
Qed.

Lemma sep_or_end_head (ts : list str) :
  sep_or_end ts = true ->
  match ts with (d :: _) :: _ => is_word d = false | _ => True end.
Proof.
  destruct ts as [|[|d [|e t]] ts]; simpl; try exact (fun _ => I); try discriminate.
  intros H. now apply negb_true_iff in H.
Qed.

Lemma tokens_word_cons (c : ascii) (s : str) :
  is_word c = true -> stops is_word s -> tokens (c :: s) = [c] :: tokens s.
Proof.
  intros Hc Hs. cbn [tokens]. rewrite Hc.
  pose proof (sep_or_end_head _ (tokens_stops s Hs)) as H.
  destruct (tokens s) as [|[|d t] ts]; try reflexivity. now rewrite H.
Qed.

Lemma tokens_cons_word (c : ascii) (s : str) :
  is_word c = true ->
  tokens (c :: s)
  = match tokens s with
    | (d :: t) :: ts => if is_word d then (c :: d :: t) :: ts else [c] :: (d :: t) :: ts
    | ts => [c] :: ts
    end.
Proof. intros H. cbn [tokens]. now rewrite H. Qed.

Lemma tokens_word_run (x y : str) :
  x <> [] -> forallb is_word x = true -> stops is_word y ->
  tokens (x ++ y) = x :: tokens y.
Proof.
  intros Hx Hw Hy. induction x as [|c x IH]; [contradiction|].
  simpl in Hw. apply andb_true_iff in Hw as [Hc Hw].
  destruct x as [|d x].
  - now apply tokens_word_cons.
  - change ((c :: d :: x) ++ y) with (c :: ((d :: x) ++ y)).
    rewrite tokens_cons_word by exact Hc.
    rewrite IH by (auto; discriminate).
    simpl in Hw. apply andb_true_iff in Hw as [Hd _]. now rewrite Hd.
Qed.

Lemma word_token_spec (t : str) :
  is_word_token t = true <-> t <> [] /\ forallb is_word t = true.
Proof.
  unfold is_word_token. rewrite andb_true_iff. destruct t; simpl; split; intros [H1 H2];
    split; auto; try discriminate; congruence.
Qed.

Lemma sep_token_spec (t : str) :
  is_sep_token t = true <-> exists c, t = [c] /\ is_word c = false.
Proof.
  destruct t as [|c [|d t]]; simpl; split; try discriminate.
  - intros (c & H & _). discriminate.
  - intros H. exists c. split; [reflexivity | now apply negb_true_iff].
  - intros (c' & [= <-] & H). now apply negb_true_iff.
  - intros (c' & H & _). discriminate.
Qed.

Lemma concat_stops (ts : list str) : sep_or_end ts = true -> stops is_word (concat ts).
Proof.
  destruct ts as [|t ts]; [exact (fun _ => I)|]. simpl. intros H.
  apply sep_token_spec in H as (c & -> & Hc). exact Hc.
Qed.

Lemma tokens_concat (ts : list str) : valid ts = true -> tokens (concat ts) = ts.
Proof.
  induction ts as [|t ts IH]; [reflexivity|]. cbn [valid concat].
  intros H. apply andb_true_iff in H as [Ht Hv]. specialize (IH Hv).
  apply orb_true_iff in Ht as [Ht | Ht].
  - apply sep_token_spec in Ht as (c & -> & Hc).
    simpl app. now rewrite tokens_sep, IH.
  - apply andb_true_iff in Ht as [Ht Hnext]. apply word_token_spec in Ht as [Hne Hw].
    rewrite tokens_word_run, IH; auto. now apply concat_stops.
Qed.

Ltac tok_simpl :=
  cbn [valid]; unfold is_sep_token, is_word_token, sep_or_end; cbn [nonempty forallb].

Lemma tokens_valid (s : str) : valid (tokens s) = true.
Proof.
  induction s as [|c s IH]; [reflexivity|]. cbn [tokens].
  destruct (is_word c) eqn:Hc.
  - destruct (tokens s) as [|[|d t] ts] eqn:E.
    + tok_simpl. now rewrite Hc.
    + exfalso. apply (tokens_no_empty s). rewrite E. now left.
    + destruct (is_word d) eqn:Hd.
      * cbn [valid] in *. apply andb_true_iff in IH as [Hh Hv]. rewrite Hv, andb_true_r.
        apply orb_true_iff in Hh as [Hh | Hh].
        -- apply sep_token_spec in Hh as (c' & [= -> ->] & Hc'). congruence.
        -- apply andb_true_iff in Hh as [Hw Hn]. rewrite Hn, andb_true_r.
           apply orb_true_iff. right. apply word_token_spec in Hw as [_ Hw].
           apply word_token_spec. split; [discriminate|].
           cbn [forallb]. now rewrite Hc.
      * cbn [valid] in *. rewrite IH, andb_true_r.
        apply orb_true_iff. right. apply andb_true_iff. split.
        -- tok_simpl. now rewrite Hc.
        -- apply andb_true_iff in IH as [Hh _]. cbn [sep_or_end].
           apply orb_true_iff in Hh as [Hh | Hh]; [exact Hh|].
           apply andb_true_iff in Hh as [Hw _]. apply word_token_spec in Hw as [_ Hw].
           cbn [forallb] in Hw. now rewrite Hd in Hw.
  - cbn [valid]. rewrite IH, andb_true_r. tok_simpl. now rewrite Hc.
Qed.

Lemma tokens_lower (s : str) : tokens (lower s) = map lower (tokens s).
Proof.
  induction s as [|c s IH]; [reflexivity|].
  cbn [lower map tokens]. fold (lower s). rewrite is_word_lower, IH.
  destruct (is_word c); [|reflexivity].
  destruct (tokens s) as [|[|d t] ts]; try reflexivity.
  cbn [map lower]. rewrite is_word_lower. now destruct (is_word d).
Qed.

End TokenFacts.

(** * One substitution of the imperative style, on tokens *)
Module PassFacts.
Import Str BaseTransformer StrFacts OrdinalFacts TokenFacts.

(** *** Tokens of a text cut at a word boundary *)

Lemma tokens_head (c : ascii) (s : str) : exists t ts, tokens (c :: s) = (c :: t) :: ts.
Proof.
  cbn [tokens]. destruct (is_word c); [|now eexists _, _].
  destruct (tokens s) as [|[|d t] ts]; try (now eexists _, _).
  destruct (is_word d); now eexists _, _.
Qed.

Lemma tokens_app_boundary (x y : str) :
  x <> [] -> is_word (last x "000"%char) = true -> stops is_word y ->
  tokens (x ++ y) = tokens x ++ tokens y.
Proof.
  intros Hx Hl Hy. induction x as [|c x IH]; [contradiction|].
  destruct x as [|d x].
  - simpl in Hl. simpl app. rewrite tokens_word_cons by assumption.
    cbn [tokens]. now rewrite Hl.
  - change ((c :: d :: x) ++ y) with (c :: ((d :: x) ++ y)).
    assert (E : tokens ((d :: x) ++ y) = tokens (d :: x) ++ tokens y)
      by (apply IH; [discriminate | exact Hl]).
    destruct (is_word c) eqn:Hc.
    + rewrite !tokens_cons_word by exact Hc. rewrite E.
      destruct (tokens_head d x) as (t & ts & ->). cbn [app].
      now destruct (is_word d).
    + rewrite !tokens_sep by exact Hc. now rewrite E.
Qed.

(** *** Patterns at the head of a token list *)

Lemma prefix_ci_app (pattern a b : list str) :
  map lower a = pattern -> prefix_ci pattern (a ++ b) = true.
Proof.
  intros <-. induction a as [|t a IH]; [reflexivity|].
  cbn [map app prefix_ci]. now rewrite eqb_refl, IH.
Qed.

Lemma prefix_ci_split (pattern ts : list str) :
  prefix_ci pattern ts = true -> exists a b, ts = a ++ b /\ map lower a = pattern.
Proof.
  revert ts. induction pattern as [|p pattern IH]; intros ts H.
  - now exists [], ts.
  - destruct ts as [|t ts]; [discriminate|]. cbn [prefix_ci] in H.
    apply andb_true_iff in H as [Ht H]. apply eqb_eq in Ht.
    destruct (IH ts H) as (a & b & -> & Ha). exists (t :: a), b.
    split; [reflexivity|]. cbn [map]. now rewrite Ht, Ha.
Qed.

Lemma word_token_lower (t : str) : is_word_token (lower t) = is_word_token t.
Proof.
  unfold is_word_token. rewrite forallb_word_lower. now destruct t.
Qed.

Lemma last_map {A B} (f : A -> B) (l : list A) (d : A) :
  last (map f l) (f d) = f (last l d).
Proof.
  induction l as [|x l IH]; [reflexivity|]. destruct l; [reflexivity|]. exact IH.
Qed.

Lemma valid_app_sep (a b : list str) :
  valid (a ++ b) = true -> a <> [] -> is_word_token (last a []) = true ->
  sep_or_end b = true.
Proof.
  intros Hv Hne Hl. induction a as [|t a IH]; [contradiction|].
  cbn [app valid] in Hv. apply andb_true_iff in Hv as [Ht Hv].
  destruct a as [|t' a].
  - cbn [last] in Hl. cbn [app] in Ht.
    apply orb_true_iff in Ht as [Ht | Ht].
    + apply sep_token_spec in Ht as (c & -> & Hc).
      unfold is_word_token in Hl. cbn [nonempty forallb andb] in Hl. rewrite Hc in Hl. discriminate.
    + now apply andb_true_iff in Ht as [_ Ht].
  - apply IH; [exact Hv | discriminate | exact Hl].
Qed.

Lemma word_token_last (t : str) :
  is_word_token t = true -> is_word (last t "000"%char) = true.
Proof.
  intros H. apply word_token_spec in H as [Hne Hw].
  induction t as [|c t IH]; [contradiction|].
  simpl in Hw. apply andb_true_iff in Hw as [Hc Hw].
  destruct t as [|d t]; [exact Hc|]. apply IH; [discriminate | exact Hw].
Qed.

Lemma last_app_ne {B} (u v : list B) (d : B) : v <> [] -> last (u ++ v) d = last v d.
Proof.
  intros Hv. destruct (exists_last Hv) as (v' & x & ->).
  now rewrite app_assoc, !last_last.
Qed.

Lemma valid_app_r (a b : list str) : valid (a ++ b) = true -> valid b = true.
Proof.
  induction a as [|t a IH]; [exact (fun H => H)|].
  cbn [app valid]. intros H. apply andb_true_iff in H as [_ H]. now apply IH.
Qed.

Lemma sep_not_word (t : str) : is_sep_token t = true -> is_word_token t = false.
Proof.
  intros H. apply sep_token_spec in H as (c & -> & Hc).
  unfold is_word_token. cbn [nonempty forallb andb]. now rewrite Hc.
Qed.

Lemma concat_length_lower (a : list str) :
  length (concat (map lower a)) = length (concat a).
Proof. now rewrite <- lower_concat, lower_length. Qed.

(** *** One pattern *)
Section Pass.

Variables pt rt : list str.
Hypothesis pattern_wf : pattern_ok pt.

Local Abbreviation w := (concat pt).
Local Abbreviation r := (concat rt).
Local Abbreviation sub_from := (Re.sub_from (word_bounded w) r).
Local Abbreviation rw := (BaseTransformer.rewrite pt rt).

Lemma w_lower : lower w = w.
Proof. destruct pattern_wf as (_ & _ & _ & H). now rewrite lower_concat, H. Qed.

Lemma w_tokens : tokens w = pt.
Proof. destruct pattern_wf as (H & _). now apply tokens_concat. Qed.

Lemma pt_head : exists c t pt', pt = (c :: t) :: pt' /\ is_word c = true.
Proof.
  destruct pattern_wf as (_ & H & _). destruct pt as [|[|c t] pt']; try discriminate.
  exists c, t, pt'. split; [reflexivity|].
  apply word_token_spec in H as [_ H]. cbn [hd forallb] in H.
  now apply andb_true_iff in H as [H _].
Qed.

Lemma pt_ne : pt <> [].
Proof. destruct pt_head as (c & t & pt' & -> & _). discriminate. Qed.

Lemma w_head : exists c w', w = c :: w' /\ is_word c = true.
Proof.
  destruct pt_head as (c & t & pt' & E & Hc). rewrite E.
  exists c, (t ++ concat pt'). now split.
Qed.

Lemma w_last : is_word (last w "000"%char) = true.
Proof.
  destruct pattern_wf as (_ & _ & H & _).
  destruct (exists_last pt_ne) as (pt' & t & E). rewrite E in *.
  rewrite last_last in H. rewrite concat_app. cbn [concat]. rewrite app_nil_r.
  pose proof (word_token_last t H) as Hl.
  apply word_token_spec in H as [Hne _].
  now rewrite last_app_ne.
Qed.

Lemma w_length : 0 < length w.
Proof. destruct w_head as (c & w' & -> & _). simpl. lia. Qed.

(** No match right after a word character. *)
Lemma wb_word_prev (prev : option ascii) (s : str) :
  boundary prev = false -> word_bounded w prev s = None.
Proof.
  intros H. unfold word_bounded. destruct prev as [p|]; [|discriminate].
  cbn [boundary] in H. now rewrite H.
Qed.

(** No match at a character that is not a word character. *)
Lemma wb_sep_head (prev : option ascii) (c : ascii) (s : str) :
  is_word c = false -> word_bounded w prev (c :: s) = None.
Proof.
  intros Hc. unfold word_bounded.
  destruct w_head as (c0 & w' & -> & H0).
  cbn [length firstn lower map Str.eqb].
  destruct (Ascii.eqb (lower_char c) c0) eqn:E.
  - apply Ascii.eqb_eq in E. rewrite <- E, is_word_lower in H0. congruence.
  - now rewrite andb_false_r.
Qed.

(** A match reads the tokens of the pattern. *)
Lemma wb_match (prev : option ascii) (s : str) (u : unit) (n : nat) :
  word_bounded w prev s = Some (u, n) ->
  n = length w /\ boundary prev = true /\ prefix_ci pt (tokens s) = true.
Proof.
  unfold word_bounded. intros H.
  destruct (_ && _ && _) eqn:E in H; [|discriminate].
  injection H as _ Hn. split; [now symmetry|].
  apply andb_true_iff in E as [E Hafter]. apply andb_true_iff in E as [Hb He].
  split; [destruct prev; exact Hb|].
  apply eqb_eq in He.
  rewrite <- (firstn_skipn (length w) s).
  set (x := firstn (length w) s) in *. set (y := skipn (length w) s) in *.
  assert (Hy : stops is_word y).
  { destruct y as [|c y]; [exact I|]. now apply negb_true_iff in Hafter. }
  assert (Hx : x <> []).
  { intros Ex. rewrite Ex in He. pose proof w_length as Hl. rewrite <- He in Hl.
    simpl in Hl. lia. }
  assert (Hl : is_word (last x "000"%char) = true).
  { pose proof w_last as Hw. rewrite <- He in Hw.
    unfold lower in Hw.
    change "000"%char with (lower_char "000"%char) in Hw.
    rewrite last_map, is_word_lower in Hw. exact Hw. }
  rewrite tokens_app_boundary by assumption.
  apply prefix_ci_app. rewrite <- tokens_lower, He. apply w_tokens.
Qed.

(** The tokens of the pattern, in any case, at a boundary: a match. *)
Lemma wb_prefix (prev : option ascii) (a b : list str) :
  boundary prev = true -> valid (a ++ b) = true -> map lower a = pt ->
  word_bounded w prev (concat a ++ concat b) = Some (tt, length w).
Proof.
  intros Hb Hv Ha. unfold word_bounded.
  assert (Hlen : length w = length (concat a)) by (rewrite <- Ha; apply concat_length_lower).
  rewrite Hlen at 1 2.
  rewrite firstn_app, Nat.sub_diag, firstn_all, firstn_O, app_nil_r.
  rewrite skipn_app_length.
  assert (He : Str.eqb (lower (concat a)) w = true).
  { apply eqb_eq. now rewrite lower_concat, Ha. }
  rewrite He.
  assert (Hs : sep_or_end b = true).
  { apply (valid_app_sep a b Hv).
    - intros ->. apply pt_ne. now rewrite <- Ha.
    - destruct pattern_wf as (_ & _ & Hl & _). rewrite <- Ha in Hl.
      change (@nil ascii) with (lower []) in Hl.
      rewrite last_map, word_token_lower in Hl. exact Hl. }
  pose proof (concat_stops b Hs) as Hstop.
  assert (Hbefore : match prev with Some p => negb (is_word p) | None => true end = true)
    by (destruct prev; exact Hb).
  rewrite Hbefore. destruct (concat b) as [|c rest]; [reflexivity|].
  cbn [stops] in Hstop. now rewrite Hstop.
Qed.

(** Inside a word nothing is replaced. *)
Lemma run_through (u z : str) (prev : option ascii) :
  forallb is_word u = true -> boundary prev = false ->
  sub_from prev 0 (u ++ z) = u ++ sub_from (last (map Some u) prev) 0 z.
Proof.
  revert prev. induction u as [|c u IH]; intros prev Hu Hb; [reflexivity|].
  cbn [forallb] in Hu. apply andb_true_iff in Hu as [Hc Hu].
  cbn [app Re.sub_from]. rewrite wb_word_prev by exact Hb.
  cbn [map]. rewrite last_cons. f_equal. apply IH; [exact Hu|].
  cbn [boundary]. now rewrite Hc.
Qed.

Lemma rewrite_skip (a b : list str) : rw (length a) (a ++ b) = rw 0 b.
Proof. induction a as [|t a IH]; [reflexivity|]. exact IH. Qed.

Lemma prefix_ci_word (t : str) (ts : list str) :
  prefix_ci pt (t :: ts) = true -> is_word_token t = true.
Proof.
  destruct pattern_wf as (_ & H & _). destruct pt as [|p pt']; [discriminate|].
  cbn [prefix_ci hd] in *. intros E. apply andb_true_iff in E as [E _].
  apply eqb_eq in E. now rewrite <- E, word_token_lower in H.
Qed.

(** The substitution on a text, read on its tokens. *)
Lemma pass_tokens (n : nat) :
  forall ts prev, length ts <= n -> valid ts = true ->
    boundary prev = true \/ sep_or_end ts = true ->
    sub_from prev 0 (concat ts) = concat (rw 0 ts).
Proof.
  induction n as [|n IH]; intros ts prev Hn Hv Hb.
  - destruct ts; [reflexivity | simpl in Hn; lia].
  - destruct ts as [|t ts]; [reflexivity|].
    pose proof Hv as Hv0.
    cbn [valid] in Hv. apply andb_true_iff in Hv as [Ht Hv].
    simpl in Hn. apply orb_true_iff in Ht as [Ht | Ht].
    + (* a separator *)
      pose proof (sep_not_word t Ht) as Hnw.
      apply sep_token_spec in Ht as (c & -> & Hc).
      cbn [concat app Re.sub_from]. rewrite wb_sep_head by exact Hc.
      cbn [BaseTransformer.rewrite].
      destruct (prefix_ci pt ([c] :: ts)) eqn:E.
      * apply prefix_ci_word in E. congruence.
      * cbn [concat app]. f_equal. apply IH; [lia | exact Hv |].
        left. cbn [boundary]. now rewrite Hc.
    + (* a word *)
      apply andb_true_iff in Ht as [Ht Hnext].
      assert (Hprev : boundary prev = true).
      { destruct Hb as [Hb | Hb]; [exact Hb|]. cbn [sep_or_end] in Hb.
        apply sep_not_word in Hb. congruence. }
      cbn [BaseTransformer.rewrite].
      destruct (prefix_ci pt (t :: ts)) eqn:E.
      * destruct (prefix_ci_split _ _ E) as (a & b & Eab & Ha).
        assert (Hane : a <> []) by (intros ->; apply pt_ne; now rewrite <- Ha).
        destruct a as [|t0 a]; [contradiction|].
        cbn [app] in Eab. injection Eab as <- ->.
        pose proof (wb_prefix prev (t :: a) b Hprev Hv0 Ha) as Hm.
        rewrite <- concat_app in Hm. cbn [app concat] in Hm.
        apply word_token_spec in Ht as [Hne _].
        destruct t as [|c t']; [contradiction|].
        cbn [concat app] in *. cbn [Re.sub_from]. rewrite Hm.
        rewrite concat_app, app_assoc.
        assert (Hlen : length w - 1 = length (t' ++ concat a)).
        { rewrite <- Ha, concat_length_lower. cbn [concat app length]. lia. }
        rewrite Hlen, sub_from_skip.
        assert (Hp : length pt - 1 = length a).
        { rewrite <- Ha. cbn [map length]. rewrite length_map. lia. }
        rewrite Hp, rewrite_skip, concat_app. f_equal.
        apply IH.
        -- rewrite length_app in Hn. lia.
        -- now apply valid_app_r in Hv.
        -- right. apply (valid_app_sep ((c :: t') :: a) b); try discriminate.
           ++ exact Hv0.
           ++ destruct pattern_wf as (_ & _ & Hl & _). rewrite <- Ha in Hl.
              change (@nil ascii) with (lower []) in Hl.
              rewrite last_map, word_token_lower in Hl. exact Hl.
      * apply word_token_spec in Ht as [Hne Hw].
        destruct t as [|c t']; [contradiction|].
        cbn [forallb] in Hw. apply andb_true_iff in Hw as [Hc Hw].
        cbn [concat app Re.sub_from].
        destruct (word_bounded w prev (c :: t' ++ concat ts)) as [[u k]|] eqn:Em.
        -- apply wb_match in Em as (_ & _ & Em).
           change (c :: t' ++ concat ts) with (concat ((c :: t') :: ts)) in Em.
           rewrite tokens_concat in Em by exact Hv0. congruence.
        -- f_equal. rewrite run_through; [| exact Hw | cbn [boundary]; now rewrite Hc].
           f_equal. apply IH; [lia | exact Hv | now right].
Qed.

(** [re.sub(r"\bw\b", r, text, flags=re.IGNORECASE)] rewrites the tokens of
    the text. *)
Lemma pass (s : str) :
  Re.sub (word_bounded w) r s = concat (rw 0 (tokens s)).
Proof.
  rewrite sub_unbounded. rewrite <- (concat_tokens s) at 1.
  apply (pass_tokens (length (tokens s))); [lia | apply tokens_valid | now left].
Qed.

End Pass.

End PassFacts.

(** * The imperative style as one pass over the tokens *)
Module ImperativeFacts.
Import Str BaseTransformer StrFacts OrdinalFacts TokenFacts PassFacts.

Lemma valid_app (a b : list str) :
  valid a = true -> valid b = true -> sep_or_end b = true -> valid (a ++ b) = true.
Proof.
  intros Ha Hb Hs. induction a as [|t a IH]; [exact Hb|].
  cbn [valid] in Ha. apply andb_true_iff in Ha as [Ht Ha].
  cbn [app valid]. rewrite (IH Ha), andb_true_r.
  destruct a as [|t' a]; [|exact Ht].
  cbn [app]. rewrite Hs. exact Ht.
Qed.

(** *** A substitution keeps a token list well formed *)
Section Shape.

Variables pt rt : list str.
Hypothesis pattern_wf : pattern_ok pt.
Hypothesis repl_valid : valid rt = true.

Local Abbreviation rw := (BaseTransformer.rewrite pt rt).

Lemma rewrite_valid (n : nat) :
  forall ts, length ts <= n -> valid ts = true ->
    valid (rw 0 ts) = true /\ (sep_or_end ts = true -> sep_or_end (rw 0 ts) = true).
Proof.
  induction n as [|n IH]; intros ts Hn Hv.
  - destruct ts; [now split | simpl in Hn; lia].
  - destruct ts as [|t ts]; [now split|].
    simpl in Hn. cbn [BaseTransformer.rewrite].
    destruct (prefix_ci pt (t :: ts)) eqn:E.
    + pose proof (prefix_ci_word pt pattern_wf _ _ E) as Hw.
      destruct (prefix_ci_split _ _ E) as (a & b & Eab & Ha).
      destruct a as [|t0 a].
      { exfalso. apply (pt_ne pt pattern_wf). now rewrite <- Ha. }
      cbn [app] in Eab. injection Eab as <- ->.
      assert (Hp : length pt - 1 = length a).
      { rewrite <- Ha. cbn [map length]. rewrite length_map. lia. }
      rewrite Hp, rewrite_skip.
      assert (Hs : sep_or_end b = true).
      { apply (valid_app_sep (t :: a) b Hv); [discriminate|].
        destruct pattern_wf as (_ & _ & Hl & _). rewrite <- Ha in Hl.
        change (@nil ascii) with (lower []) in Hl.
        rewrite last_map, word_token_lower in Hl. exact Hl. }
      destruct (IH b) as [Hvb Hsb].
      { rewrite length_app in Hn. lia. }
      { exact (valid_app_r (t :: a) b Hv). }
      split.
      * apply valid_app; auto.
      * cbn [sep_or_end]. intros Hsep. apply sep_not_word in Hsep. congruence.
    + cbn [valid] in Hv. apply andb_true_iff in Hv as [Ht Hv].
      destruct (IH ts) as [Hvt Hst]; [lia | exact Hv |].
      split; [|exact (fun H => H)].
      cbn [valid]. rewrite Hvt, andb_true_r.
      apply orb_true_iff in Ht as [Ht | Ht]; [now rewrite Ht|].
      apply andb_true_iff in Ht as [Ht Hnext].
      now rewrite Ht, (Hst Hnext), orb_true_r.
Qed.

Lemma tokens_rewrite (ts : list str) :
  valid ts = true -> tokens (concat (rw 0 ts)) = rw 0 ts.
Proof.
  intros Hv. apply tokens_concat. now apply (rewrite_valid (length ts)).
Qed.

End Shape.

(** *** The table *)

Lemma entry_shape (entry : str * str) :
  In entry replacements ->
  pattern_ok (tokens (fst entry)) /\ valid (tokens (snd entry)) = true.
Proof.
  unfold replacements. cbn [In].
  intros H; repeat (destruct H as [<- | H]; [vm_compute; repeat split|]);
    contradiction.
Qed.

Lemma entry_pass (entry : str * str) (s : str) :
  In entry replacements ->
  Re.sub (word_bounded (fst entry)) (snd entry) s
  = concat (BaseTransformer.rewrite (tokens (fst entry)) (tokens (snd entry)) 0 (tokens s)).
Proof.
  intros H. destruct (entry_shape entry H) as (Hp & _).
  rewrite <- (pass _ (tokens (snd entry)) Hp s). now rewrite !concat_tokens.
Qed.

(** The passes of [_make_imperative], one after the other, on tokens. *)
Lemma passes_tokens (entries : Dict.t str) :
  incl entries replacements ->
  forall ts, valid ts = true ->
    fold_left (fun text entry => Re.sub (word_bounded (fst entry)) (snd entry) text)
              entries (concat ts)
    = concat (fold_left (fun ts entry =>
                BaseTransformer.rewrite (tokens (fst entry)) (tokens (snd entry)) 0 ts)
              entries ts).
Proof.
  induction entries as [|e entries IH]; intros Hin ts Hv; [reflexivity|].
  cbn [fold_left].
  assert (He : In e replacements) by (apply Hin; now left).
  destruct (entry_shape e He) as (Hp & Hr).
  rewrite entry_pass by exact He. rewrite tokens_concat by exact Hv.
  apply IH.
  - intros x Hx. apply Hin. now right.
  - now apply (rewrite_valid _ _ Hp Hr (length ts)).
Qed.

End ImperativeFacts.

(** * The eight substitutions, composed *)
Module WindowFacts.
Import Str BaseTransformer StrFacts OrdinalFacts TokenFacts PassFacts ImperativeFacts.

Lemma eqb_sym (a b : str) : Str.eqb a b = Str.eqb b a.
Proof.
  revert b; induction a as [|x a IH]; intros [|y b]; try reflexivity.
  cbn [Str.eqb]. now rewrite Ascii.eqb_sym, IH.
Qed.

(** *** The one-word entries *)

Lemma rewrite_single (w r : str) (ts : list str) :
  BaseTransformer.rewrite [w] [r] 0 ts
  = map (fun t => if Str.eqb (lower t) w then r else t) ts.
Proof.
  induction ts as [|t ts IH]; [reflexivity|].
  cbn [BaseTransformer.rewrite prefix_ci map length Nat.sub app].
  rewrite andb_true_r. destruct (Str.eqb (lower t) w); now rewrite IH.
Qed.

Lemma singles_pointwise (entries : Dict.t str) :
  Forall (fun e => tokens (fst e) = [fst e] /\ tokens (snd e) = [snd e]) entries ->
  forall ts,
    fold_left (fun ts entry =>
       BaseTransformer.rewrite (tokens (fst entry)) (tokens (snd entry)) 0 ts) entries ts
    = map (fun t => fold_left (fun t entry =>
             if Str.eqb (lower t) (fst entry) then snd entry else t) entries t) ts.
Proof.
  induction 1 as [|e entries [Hw Hr] _ IH]; intros ts.
  - cbn [fold_left]. now rewrite map_id.
  - cbn [fold_left]. rewrite IH, Hw, Hr, rewrite_single, map_map. reflexivity.
Qed.

Lemma replace_word_chain (t : str) :
  fold_left (fun t entry => if Str.eqb (lower t) (fst entry) then snd entry else t)
            single_words t
  = replace_word t.
Proof.
  unfold replace_word, single_words, replacements.
  cbn [firstn fold_left Dict.get fst snd].
  rewrite !(eqb_sym _ (lower t)).
  destruct (Str.eqb (lower t) "must") eqn:E1; [reflexivity | cbv iota].
  destruct (Str.eqb (lower t) "should") eqn:E2; [reflexivity | cbv iota].
  destruct (Str.eqb (lower t) "may") eqn:E3; [reflexivity | cbv iota].
  destruct (Str.eqb (lower t) "never") eqn:E4; [reflexivity | cbv iota].
  destruct (Str.eqb (lower t) "always") eqn:E5; [reflexivity | cbv iota].
  destruct (Str.eqb (lower t) "require") eqn:E6; reflexivity.
Qed.

Lemma singles (ts : list str) :
  fold_left (fun ts entry =>
     BaseTransformer.rewrite (tokens (fst entry)) (tokens (snd entry)) 0 ts)
    single_words ts
  = map replace_word ts.
Proof.
  rewrite singles_pointwise.
  - apply map_ext. exact replace_word_chain.
  - repeat constructor.
Qed.

(** *** What a replaced word can no longer be *)

Lemma get_replaced (d : Dict.t str) (key k r : str) :
  Dict.get d key = Some r -> Dict.get d k = None ->
  existsb (fun e => Str.eqb (lower (snd e)) k) d = false ->
  Str.eqb (lower r) k = false /\ Str.eqb key k = false.
Proof.
  induction d as [|[k' v] d IH]; [discriminate|].
  cbn [Dict.get existsb snd]. intros Hg Hk He.
  apply orb_false_iff in He as [He1 He2].
  destruct (Str.eqb k' k) eqn:Ek; [discriminate|].
  destruct (Str.eqb k' key) eqn:Ekey.
  - injection Hg as <-. apply eqb_eq in Ekey as <-. now split.
  - now apply IH.
Qed.

Lemma replace_word_lower (t k : str) :
  untouched k -> Str.eqb (lower (replace_word t)) k = Str.eqb (lower t) k.
Proof.
  intros [H1 H2]. unfold replace_word.
  destruct (Dict.get single_words (lower t)) as [r|] eqn:E; [|reflexivity].
  destruct (get_replaced _ _ _ _ E H1 H2) as [Hr Hk]. now rewrite Hr, Hk.
Qed.

Lemma prefix_ci_replace (pattern : list str) :
  Forall untouched pattern ->
  forall ts, prefix_ci pattern (map replace_word ts) = prefix_ci pattern ts.
Proof.
  induction 1 as [|k pattern Hk _ IH]; intros ts; [reflexivity|].
  destruct ts as [|t ts]; [reflexivity|].
  cbn [map prefix_ci]. now rewrite replace_word_lower, IH.
Qed.

Lemma eqb_lower_space (t : str) : Str.eqb (lower t) " " = Str.eqb t " ".
Proof.
  destruct t as [|a [|b t]]; try reflexivity.
  - by_ascii_cases a.
  - change (list_ascii_of_string " ") with [" "%char].
    cbn [lower map Str.eqb]. now rewrite !andb_false_r.
Qed.

Lemma eqb_lower_quote (t : str) : Str.eqb (lower t) "'" = Str.eqb t "'".
Proof.
  destruct t as [|a [|b t]]; try reflexivity.
  - by_ascii_cases a.
  - change (list_ascii_of_string "'") with ["'"%char].
    cbn [lower map Str.eqb]. now rewrite !andb_false_r.
Qed.

End WindowFacts.

(** * "do not" and "don't" after the one-word entries *)
Module NegationFacts.
Import Str BaseTransformer StrFacts OrdinalFacts TokenFacts PassFacts ImperativeFacts
  WindowFacts.

Local Abbreviation DO := (list_ascii_of_string "DO").
Local Abbreviation SP := (list_ascii_of_string " ").
Local Abbreviation NOT := (list_ascii_of_string "NOT").
Local Abbreviation do_not := [list_ascii_of_string "do"; SP; list_ascii_of_string "not"].
Local Abbreviation dont :=
  [list_ascii_of_string "don"; list_ascii_of_string "'"; list_ascii_of_string "t"].
Local Abbreviation DO_NOT := [DO; SP; NOT].
Local Abbreviation pass7 := (BaseTransformer.rewrite do_not DO_NOT 0).
Local Abbreviation pass8 := (BaseTransformer.rewrite dont DO_NOT 0).

Lemma rewrite_match3 (pattern repl : list str) (a b c : str) (rest : list str) :
  length pattern = 3 -> prefix_ci pattern (a :: b :: c :: rest) = true ->
  BaseTransformer.rewrite pattern repl 0 (a :: b :: c :: rest)
  = repl ++ BaseTransformer.rewrite pattern repl 0 rest.
Proof.
  intros Hl H. cbn [BaseTransformer.rewrite]. rewrite H, Hl. reflexivity.
Qed.

Lemma rewrite_nomatch (pattern repl : list str) (a : str) (rest : list str) :
  prefix_ci pattern (a :: rest) = false ->
  BaseTransformer.rewrite pattern repl 0 (a :: rest)
  = a :: BaseTransformer.rewrite pattern repl 0 rest.
Proof. intros H. cbn [BaseTransformer.rewrite]. now rewrite H. Qed.

Lemma prefix3_length (pattern : list str) (ts : list str) :
  length pattern = 3 -> prefix_ci pattern ts = true ->
  exists a b c rest, ts = a :: b :: c :: rest.
Proof.
  destruct pattern as [|p1 [|p2 [|p3 [|p4 p]]]]; try discriminate. intros _.
  destruct ts as [|a [|b [|c rest]]]; cbn [prefix_ci]; rewrite ?andb_false_r;
    try discriminate.
  intros _. now exists a, b, c, rest.
Qed.

Lemma pass8_do_not (rest : list str) :
  pass8 (DO :: SP :: NOT :: rest) = DO :: SP :: NOT :: pass8 rest.
Proof. reflexivity. Qed.

(** What [pass7] leaves at the head of a list. *)
Lemma pass7_cases (us : list str) :
  us = []
  \/ exists v vs, us = v :: vs
       /\ ((lower v = "do" /\ exists rest, pass7 us = DO :: rest)
           \/ pass7 us = v :: pass7 vs).
Proof.
  destruct us as [|v vs]; [now left|]. right. exists v, vs. split; [reflexivity|].
  cbn [BaseTransformer.rewrite].
  destruct (prefix_ci do_not (v :: vs)) eqn:E; [left | now right].
  cbn [prefix_ci] in E. apply andb_true_iff in E as [E _]. apply eqb_eq in E.
  split; [exact E|]. now eexists.
Qed.

Lemma prefix_after_pass7 (k : str) (pattern : list str) :
  Str.eqb "do" k = false ->
  (forall vs, prefix_ci pattern (pass7 vs) = prefix_ci pattern vs) ->
  forall us, prefix_ci (k :: pattern) (pass7 us) = prefix_ci (k :: pattern) us.
Proof.
  intros Hk Hp us.
  destruct (pass7_cases us) as [-> | (v & vs & -> & [(Hv & rest & ->) | ->])].
  - reflexivity.
  - cbn [prefix_ci]. rewrite Hv.
    change (lower DO) with (list_ascii_of_string "do"). now rewrite Hk.
  - cbn [prefix_ci]. now rewrite Hp.
Qed.

Lemma dont_after_pass7 (u : str) (us : list str) :
  prefix_ci dont (u :: pass7 us) = prefix_ci dont (u :: us).
Proof.
  cbn [prefix_ci]. f_equal.
  change (prefix_ci [list_ascii_of_string "'"; list_ascii_of_string "t"] (pass7 us)
          = prefix_ci [list_ascii_of_string "'"; list_ascii_of_string "t"] us).
  apply prefix_after_pass7; [reflexivity|]. intros vs.
  apply prefix_after_pass7; [reflexivity|]. reflexivity.
Qed.

Lemma window_prefix (t1 t2 t3 : str) (rest : list str) :
  do_not_window t1 t2 t3
  = prefix_ci do_not (t1 :: t2 :: t3 :: rest) || prefix_ci dont (t1 :: t2 :: t3 :: rest).
Proof.
  unfold do_not_window. cbn [prefix_ci].
  now rewrite eqb_lower_space, eqb_lower_quote, !andb_true_r, !andb_assoc.
Qed.

Lemma do_not_untouched : Forall untouched do_not.
Proof. repeat constructor. Qed.

Lemma dont_untouched : Forall untouched dont.
Proof. repeat constructor. Qed.

Lemma imperative_tokens_cons3 (t1 t2 t3 : str) (rest : list str) :
  imperative_tokens (t1 :: t2 :: t3 :: rest)
  = if do_not_window t1 t2 t3
    then DO :: SP :: NOT :: imperative_tokens rest
    else replace_word t1 :: imperative_tokens (t2 :: t3 :: rest).
Proof. reflexivity. Qed.

Lemma imperative_tokens_plain (t1 : str) (rest : list str) :
  prefix_ci do_not (t1 :: rest) = false -> prefix_ci dont (t1 :: rest) = false ->
  imperative_tokens (t1 :: rest) = replace_word t1 :: imperative_tokens rest.
Proof.
  intros H1 H2. destruct rest as [|t2 [|t3 rest]]; try reflexivity.
  now rewrite imperative_tokens_cons3, (window_prefix _ _ _ rest), H1, H2.
Qed.

(** The last two substitutions, after the first six, are the one pass. *)
Lemma negations (n : nat) :
  forall ts, length ts <= n ->
    pass8 (pass7 (map replace_word ts)) = imperative_tokens ts.
Proof.
  induction n as [|n IH]; intros ts Hn.
  - destruct ts; [reflexivity | simpl in Hn; lia].
  - destruct ts as [|t1 rest]; [reflexivity|]. simpl in Hn.
    pose proof (prefix_ci_replace _ do_not_untouched (t1 :: rest)) as E1.
    pose proof (prefix_ci_replace _ dont_untouched (t1 :: rest)) as E2.
    destruct (prefix_ci do_not (t1 :: rest)) eqn:D1.
    + destruct (prefix3_length do_not _ eq_refl D1) as (a & t2 & t3 & rest3 & [= <- ->]).
      cbn [map] in *. rewrite (rewrite_match3 do_not DO_NOT _ _ _ _ eq_refl E1).
      cbn [app]. rewrite pass8_do_not.
      rewrite imperative_tokens_cons3, (window_prefix _ _ _ rest3), D1.
      cbn [orb]. rewrite IH by (simpl in Hn; lia). reflexivity.
    + cbn [map] in E1, E2 |- *. rewrite (rewrite_nomatch _ _ _ _ E1).
      pose proof (dont_after_pass7 (replace_word t1) (map replace_word rest)) as E3.
      rewrite E2 in E3.
      destruct (prefix_ci dont (t1 :: rest)) eqn:D2.
      * destruct (prefix3_length dont _ eq_refl D2) as (a & t2 & t3 & rest3 & [= <- ->]).
        cbn [prefix_ci] in D2.
        apply andb_true_iff in D2 as [_ D2]. apply andb_true_iff in D2 as [K2 D2].
        apply andb_true_iff in D2 as [K3 _].
        cbn [map] in *.
        assert (N2 : prefix_ci do_not
                       (replace_word t2 :: replace_word t3 :: map replace_word rest3)
                     = false).
        { cbn [prefix_ci]. rewrite replace_word_lower by (now split).
          apply eqb_eq in K2. now rewrite K2. }
        assert (N3 : prefix_ci do_not (replace_word t3 :: map replace_word rest3) = false).
        { cbn [prefix_ci]. rewrite replace_word_lower by (now split).
          apply eqb_eq in K3. now rewrite K3. }
        rewrite (rewrite_nomatch _ _ _ _ N2), (rewrite_nomatch _ _ _ _ N3) in E3 |- *.
        rewrite (rewrite_match3 dont DO_NOT _ _ _ _ eq_refl E3). cbn [app].
        rewrite imperative_tokens_cons3, (window_prefix _ _ _ rest3), D1.
        cbn [prefix_ci]. rewrite K2, K3.
        apply andb_true_iff in E3 as [K1 _].
        rewrite replace_word_lower in K1 by (now split). rewrite K1.
        cbn [andb orb]. rewrite IH by (simpl in Hn; lia). reflexivity.
      * rewrite (rewrite_nomatch _ _ _ _ E3), IH by lia.
        now rewrite imperative_tokens_plain.
Qed.

End NegationFacts.

(** * The imperative style *)
Module StyleFacts.
Import Str BaseTransformer StrFacts OrdinalFacts TokenFacts PassFacts ImperativeFacts
  WindowFacts NegationFacts.

Lemma passes_are_one_pass (ts : list str) :
  fold_left (fun ts entry =>
     BaseTransformer.rewrite (tokens (fst entry)) (tokens (snd entry)) 0 ts)
    replacements ts
  = imperative_tokens ts.
Proof.
  change replacements with (single_words ++ skipn 6 replacements).
  rewrite fold_left_app, singles.
  exact (negations (length ts) ts (le_n _)).
Qed.



End StyleFacts.

(** * Grouping by key *)
Module GroupingFacts.
Import Str StrFacts DictFacts MergeFacts Grouping.

Section Groups.

Context {A : Type} (key : A -> str).

Lemma get_append_to_same (d : Dict.t (list A)) (k : str) (x : A) :
  Dict.get (append_to d k x) k
  = Some (match Dict.get d k with Some xs => xs ++ [x] | None => [x] end).
Proof. unfold append_to. destruct (Dict.get d k); apply get_set_same. Qed.

Lemma get_append_to_other (d : Dict.t (list A)) (k k' : str) (x : A) :
  k <> k' -> Dict.get (append_to d k x) k' = Dict.get d k'.
Proof. intros H. unfold append_to. destruct (Dict.get d k); now apply get_set_other. Qed.

Lemma append_to_nodup (d : Dict.t (list A)) (k : str) (x : A) :
  NoDup (Dict.keys d) -> NoDup (Dict.keys (append_to d k x)).
Proof. intros H. unfold append_to. destruct (Dict.get d k); now apply set_keeps_nodup. Qed.

Lemma members_snoc (k : str) (p : list A) (x : A) :
  members key k (p ++ [x])
  = members key k p ++ (if Str.eqb (key x) k then [x] else []).
Proof. unfold members. rewrite filter_app. cbn [filter]. now destruct (Str.eqb (key x) k). Qed.

Lemma entry_of_snoc (l : list A) (x : A) : entry_of (l ++ [x]) = Some (l ++ [x]).
Proof. destruct l; reflexivity. Qed.

Lemma entry_of_some (l g : list A) : entry_of l = Some g -> l = g /\ g <> [].
Proof. destruct l; [discriminate|]. intros [= <-]. now split. Qed.

Lemma grouped_step (seen : list A) (d : Dict.t (list A)) (x : A) :
  grouped key seen d -> grouped key (seen ++ [x]) (append_to d (key x) x).
Proof.
  intros H k. rewrite members_snoc.
  destruct (Str.eqb (key x) k) eqn:E.
  - apply eqb_eq in E. subst k. rewrite get_append_to_same, H, entry_of_snoc.
    now destruct (members key (key x) seen).
  - apply eqb_neq in E. rewrite get_append_to_other by exact E.
    now rewrite app_nil_r.
Qed.

Lemma grouped_run (xs seen : list A) (d : Dict.t (list A)) :
  grouped key seen d ->
  grouped key (seen ++ xs) (fold_left (fun d x => append_to d (key x) x) xs d).
Proof.
  revert seen d. induction xs as [|x xs IH]; intros seen d H.
  - now rewrite app_nil_r.
  - cbn [fold_left]. replace (seen ++ x :: xs) with ((seen ++ [x]) ++ xs)
      by now rewrite <- app_assoc.
    apply IH. now apply grouped_step.
Qed.

Lemma group_run_nodup (xs : list A) (d : Dict.t (list A)) :
  NoDup (Dict.keys d) ->
  NoDup (Dict.keys (fold_left (fun d x => append_to d (key x) x) xs d)).
Proof.
  revert d. induction xs as [|x xs IH]; intros d H; [exact H|].
  cbn [fold_left]. apply IH. now apply append_to_nodup.
Qed.

Lemma group_by_get (xs : list A) (k : str) :
  Dict.get (group_by key xs) k = entry_of (members key k xs).
Proof.
  unfold group_by.
  exact (grouped_run xs [] Dict.empty (fun _ => eq_refl) k).
Qed.

Lemma group_by_nodup (xs : list A) : NoDup (Dict.keys (group_by key xs)).
Proof. apply group_run_nodup. constructor. Qed.

Lemma in_keys_get {V} (d : Dict.t V) (k : str) :
  In k (Dict.keys d) <-> exists v, Dict.get d k = Some v.
Proof.
  rewrite <- mem_in. unfold Dict.mem. destruct (Dict.get d k) as [v|]; split.
  - intros _. now exists v.
  - reflexivity.
  - discriminate.
  - intros [v H]. discriminate.
Qed.

Lemma members_nonempty (k : str) (xs : list A) :
  members key k xs <> [] <-> exists x, In x xs /\ key x = k.
Proof.
  unfold members. split.
  - destruct (filter _ xs) as [|x l] eqn:E; [contradiction|]. intros _.
    assert (Hin : In x (filter (fun x => Str.eqb (key x) k) xs)) by (rewrite E; now left).
    apply filter_In in Hin as [Hin Hk]. apply eqb_eq in Hk. now exists x.
  - intros (x & Hin & Hk) E.
    assert (H : In x (filter (fun x => Str.eqb (key x) k) xs)).
    { apply filter_In. split; [exact Hin|]. now apply eqb_eq. }
    rewrite E in H. contradiction.
Qed.

Lemma group_by_keys (xs : list A) (k : str) :
  In k (Dict.keys (group_by key xs)) <-> exists x, In x xs /\ key x = k.
Proof.
  rewrite in_keys_get, <- members_nonempty, group_by_get. split.
  - intros [v H]. apply entry_of_some in H as [-> H]. exact H.
  - intros H. destruct (members key k xs) as [|x l]; [contradiction|]. now eexists.
Qed.

(** Every entry of a dictionary with unique keys is what [get] finds. *)
Lemma get_of_entry {V} (d : Dict.t V) (k : str) (v : V) :
  NoDup (Dict.keys d) -> In (k, v) d -> Dict.get d k = Some v.
Proof.
  induction d as [|[k' v'] d IH]; [contradiction|].
  cbn [Dict.keys map fst]. intros Hnd Hin. inversion Hnd as [|? ? Hk Hd]; subst.
  cbn [Dict.get]. destruct Hin as [[= -> ->] | Hin].
  - now rewrite eqb_refl.
  - destruct (Str.eqb k' k) eqn:E.
    + apply eqb_eq in E. subst k'. exfalso. apply Hk.
      change (In (fst (k, v)) (map fst d)). now apply in_map.
    + now apply IH.
Qed.

Lemma group_by_entry (xs : list A) (k : str) (g : list A) :
  In (k, g) (group_by key xs) -> g = members key k xs /\ g <> [].
Proof.
  intros H. apply get_of_entry in H; [|apply group_by_nodup].
  rewrite group_by_get in H. apply entry_of_some in H as [-> H]. now split.
Qed.

Lemma total_set (d : Dict.t (list A)) (k : str) (v : list A) :
  length (concat (map snd (Dict.set d k v)))
  + length (match Dict.get d k with Some xs => xs | None => [] end)
  = length (concat (map snd d)) + length v.
Proof.
  induction d as [|[k' v'] d IH]; cbn [Dict.set Dict.get].
  - cbn [map snd concat length]. rewrite app_nil_r. lia.
  - destruct (Str.eqb k' k); cbn [map snd concat]; rewrite !length_app; lia.
Qed.

Lemma total_append_to (d : Dict.t (list A)) (k : str) (x : A) :
  length (concat (map snd (append_to d k x))) = S (length (concat (map snd d))).
Proof.
  unfold append_to. destruct (Dict.get d k) as [xs|] eqn:E.
  - pose proof (total_set d k (xs ++ [x])) as H. rewrite E, length_app in H.
    cbn [length] in H. lia.
  - pose proof (total_set d k [x]) as H. rewrite E in H. cbn [length] in H. lia.
Qed.

Lemma total_run (xs : list A) (d : Dict.t (list A)) :
  length (concat (map snd (fold_left (fun d x => append_to d (key x) x) xs d)))
  = length (concat (map snd d)) + length xs.
Proof.
  revert d. induction xs as [|x xs IH]; intros d; cbn [fold_left length]; [lia|].
  rewrite IH, total_append_to. lia.
Qed.

(** X1.  The grouping loop files every element under its key, once: the
    keys of the dictionary are unique and are the keys of the elements; the
    list under a key holds exactly the elements with that key, in the order
    of the input; no list is empty; and the lists together have as many
    elements as the input. *)
Theorem group_by_partitions (xs : list A) :
  NoDup (Dict.keys (group_by key xs))
  /\ (forall k, In k (Dict.keys (group_by key xs)) <-> exists x, In x xs /\ key x = k)
  /\ (forall k, Dict.get (group_by key xs) k = entry_of (members key k xs))
  /\ (forall k g, In (k, g) (group_by key xs) -> g = members key k xs /\ g <> [])
  /\ length (concat (map snd (group_by key xs))) = length xs.
Proof.
  split; [apply group_by_nodup|]. split; [apply group_by_keys|].
  split; [apply group_by_get|]. split; [apply group_by_entry|].
  unfold group_by. now rewrite total_run.
Qed.

End Groups.

End GroupingFacts.

(** * The Cursor transformer *)
Module CursorFacts.
Import Str Parser StrFacts DictFacts MergeFacts Grouping GroupingFacts CursorTransformer.

Lemma first_match_range {V} (table : Dict.t V) (title_text : str) (default : V) :
  first_match table title_text default = default
  \/ In (first_match table title_text default) (map snd table).
Proof.
  induction table as [|[k v] table IH]; [now left|].
  cbn [first_match map snd].
  destruct (contains (lower k) (lower title_text)); [right; now left|].
  destruct IH as [IH | IH]; [now left | right; now right].
Qed.

Lemma output_file_listed (rule : Rule) : In (_get_output_file rule) output_files.
Proof.
  unfold _get_output_file.
  match goal with
  | |- In (first_match _ _ ?d) _ =>
      destruct (first_match_range FILE_MAPPING (section rule) d) as [-> | H]
  end.
  - destruct (has_tag "security" rule); [vm_compute; tauto|].
    destruct (has_tag "bash" rule); [vm_compute; tauto|].
    destruct (has_tag "python" rule); vm_compute; tauto.
  - revert H.
    match goal with |- In ?f _ -> _ => generalize f end.
    intros f H. cbn [FILE_MAPPING map snd In] in H. unfold output_files, texts.
    cbn [map In]. tauto.
Qed.

(** X2.  Every rule is sent to one of the seven rule files of Cursor: the
    path is never empty, so the test [if output_file:] of [transform] never
    drops a rule, and it always names an [.mdc] file under [.cursor/rules/]. *)
Theorem cursor_output_file_known (rule : Rule) :
  In (_get_output_file rule) output_files
  /\ nonempty (_get_output_file rule) = true
  /\ startswith ".cursor/rules/" (_get_output_file rule) = true
  /\ endswith ".mdc" (_get_output_file rule) = true.
Proof.
  pose proof (output_file_listed rule) as H.
  split; [exact H|].
  revert H. generalize (_get_output_file rule). intros f H.
  unfold output_files, texts in H. cbn [map In] in H.
  repeat (destruct H as [<- | H]; [repeat split; reflexivity|]). contradiction.
Qed.

Lemma output_file_nonempty (rule : Rule) : nonempty (_get_output_file rule) = true.
Proof.
  pose proof (output_file_listed rule) as H.
  revert H. generalize (_get_output_file rule). intros f H.
  unfold output_files, texts in H. cbn [map In] in H.
  repeat (destruct H as [<- | H]; [reflexivity|]). contradiction.
Qed.

Lemma get_map_values {V W} (f : V -> W) (d : Dict.t V) (k : str) :
  Dict.get (map (fun e => (fst e, f (snd e))) d) k = option_map f (Dict.get d k).
Proof.
  induction d as [|[k' v] d IH]; [reflexivity|].
  cbn [map Dict.get fst snd]. now destruct (Str.eqb k' k).
Qed.

Lemma fold_set_update {V W} (f : V -> W) (d : Dict.t V) (acc : Dict.t W) :
  fold_left (fun out e => Dict.set out (fst e) (f (snd e))) d acc
  = Dict.update acc (map (fun e => (fst e, f (snd e))) d).
Proof.
  unfold Dict.update. revert acc. induction d as [|e d IH]; intros acc; [reflexivity|].
  cbn [fold_left map fst snd]. apply IH.
Qed.

Lemma keys_map_values {V W} (f : V -> W) (d : Dict.t V) :
  Dict.keys (map (fun e => (fst e, f (snd e))) d) = Dict.keys d.
Proof. unfold Dict.keys. rewrite map_map. reflexivity. Qed.

Section Templates.

Variable _render_template : str -> Rule -> str.

Lemma files_rules_group (rules : list Rule) :
  files_rules rules = group_by _get_output_file rules.
Proof.
  unfold files_rules, group_by. generalize (@Dict.empty (list Rule)).
  induction rules as [|r rules IH]; intros d; [reflexivity|].
  cbn [fold_left]. rewrite output_file_nonempty. apply IH.
Qed.

Lemma transform_get (rules : list Rule) (path : str) :
  Dict.get (transform _render_template rules) path
  = option_map (_generate_file_content _render_template)
               (entry_of (members _get_output_file path rules)).
Proof.
  unfold transform. rewrite fold_set_update, files_rules_group.
  rewrite get_update.
  - rewrite get_map_values, group_by_get. cbn [Dict.get Dict.empty].
    now destruct (entry_of (members _get_output_file path rules)).
  - rewrite keys_map_values. apply group_by_nodup.
Qed.

(** X3.  [transform] writes, for every rule file, the rules that
    [_get_output_file] sends there, rendered in the order of the input and
    joined by the separator line; a file no rule is sent to is not written;
    no path is written twice and every path is one of the seven rule
    files. *)
Theorem cursor_transform_files (rules : list Rule) :
  (forall path,
     Dict.get (transform _render_template rules) path
     = option_map (fun file_rules =>
                     join separator (map (_render_template TEMPLATE_NAME) file_rules))
                  (entry_of (members _get_output_file path rules)))
  /\ NoDup (Dict.keys (transform _render_template rules))
  /\ (forall path, In path (Dict.keys (transform _render_template rules)) <->
        exists rule, In rule rules /\ _get_output_file rule = path)
  /\ incl (Dict.keys (transform _render_template rules)) output_files.
Proof.
  assert (Hkeys : forall path,
            In path (Dict.keys (transform _render_template rules)) <->
            exists rule, In rule rules /\ _get_output_file rule = path).
  { intros path. rewrite in_keys_get, transform_get, <- members_nonempty.
    destruct (members _get_output_file path rules) as [|x l]; cbn [entry_of option_map].
    - split; [intros [v H]; discriminate | intros H; now contradiction H].
    - split; [discriminate | intros _; now eexists]. }
  split; [exact (transform_get rules)|]. split.
  - unfold transform. rewrite fold_set_update. apply update_nodup. constructor.
  - split; [exact Hkeys|].
    intros path Hin. apply Hkeys in Hin as (rule & _ & <-). apply output_file_listed.
Qed.

End Templates.

End CursorFacts.

(** * Lines of a text, and stripping *)
Module LinesFacts.
Import Str StrFacts ExampleFacts.

Lemma split_lines_nonempty (s : str) : split_lines s <> [].
Proof.
  induction s as [|c s IH]; [discriminate|]. cbn [split_lines].
  destruct (Ascii.eqb c nl); [discriminate|].
  destruct (split_lines s); [contradiction | discriminate].
Qed.

Lemma join_cons (sep p : str) (rest : list str) :
  rest <> [] -> join sep (p :: rest) = p ++ sep ++ join sep rest.
Proof. destruct rest; [contradiction | reflexivity]. Qed.

(** ["\n".join(s.split("\n")) == s]. *)
Lemma lines_split_lines (s : str) : lines (split_lines s) = s.
Proof.
  unfold lines. induction s as [|c s IH]; [reflexivity|]. cbn [split_lines].
  pose proof (split_lines_nonempty s) as Hne.
  destruct (Ascii.eqb c nl) eqn:E.
  - apply Ascii.eqb_eq in E. subst c. rewrite join_cons by exact Hne.
    now rewrite IH.
  - destruct (split_lines s) as [|p rest]; [contradiction|]. cbn [cons_head].
    destruct rest as [|q rest].
    + cbn [join] in *. now rewrite IH.
    + rewrite join_cons in IH |- * by discriminate. rewrite <- IH. reflexivity.
Qed.

Lemma split_lines_app_nl (p s : str) :
  one_line p = true -> split_lines (p ++ nl :: s) = p :: split_lines s.
Proof.
  unfold one_line. induction p as [|c p IH]; cbn [app forallb split_lines].
  - intros _. now rewrite Ascii.eqb_refl.
  - intros H. apply andb_true_iff in H as [Hc Hp]. apply negb_true_iff in Hc.
    rewrite Hc, IH by exact Hp. reflexivity.
Qed.

(** [("\n".join(parts)).split("\n") == parts] for lines without a newline. *)
Lemma split_lines_lines (parts : list str) :
  parts <> [] -> forallb one_line parts = true -> split_lines (lines parts) = parts.
Proof.
  unfold lines. induction parts as [|p parts IH]; [contradiction|]. intros _ H.
  cbn [forallb] in H. apply andb_true_iff in H as [Hp Hrest].
  destruct parts as [|q parts].
  - cbn [join]. now apply split_lines_single.
  - rewrite join_cons by discriminate. cbn [app].
    rewrite split_lines_app_nl by exact Hp. f_equal. apply IH; [discriminate | exact Hrest].
Qed.

Lemma one_line_cons_head (c : ascii) (parts : list str) :
  Ascii.eqb c nl = false -> forallb one_line parts = true ->
  forallb one_line (cons_head c parts) = true.
Proof.
  intros Hc H. destruct parts as [|p rest]; cbn [cons_head forallb one_line] in *.
  - now rewrite Hc.
  - fold (one_line p) in *. now rewrite Hc.
Qed.

Lemma split_lines_one_line (s : str) : forallb one_line (split_lines s) = true.
Proof.
  induction s as [|c s IH]; [reflexivity|]. cbn [split_lines].
  destruct (Ascii.eqb c nl) eqn:E; [exact IH|]. now apply one_line_cons_head.
Qed.

Lemma one_line_app (a b : str) : one_line (a ++ b) = one_line a && one_line b.
Proof. unfold one_line. apply forallb_app. Qed.

Lemma one_line_dropwhile (f : ascii -> bool) (s : str) :
  one_line s = true -> one_line (dropwhile f s) = true.
Proof.
  induction s as [|c s IH]; [exact (fun H => H)|]. intros H. cbn [dropwhile].
  destruct (f c); [|exact H].
  apply IH. unfold one_line in *. cbn [forallb] in H. now apply andb_true_iff in H as [_ H].
Qed.

Lemma one_line_rstrip (s : str) : one_line s = true -> one_line (rstrip s) = true.
Proof.
  unfold one_line. induction s as [|c s IH]; [exact (fun H => H)|]. intros H.
  cbn [forallb] in H. apply andb_true_iff in H as [Hc Hs]. specialize (IH Hs).
  cbn [rstrip]. destruct (rstrip s) as [|d r].
  - destruct (is_space c); [reflexivity|]. cbn [forallb]. now rewrite Hc.
  - cbn [forallb] in *. now rewrite Hc, IH.
Qed.

Lemma one_line_strip (s : str) : one_line s = true -> one_line (strip s) = true.
Proof. intros H. unfold strip, lstrip. now apply one_line_dropwhile, one_line_rstrip. Qed.

(** *** [strip] *)

Lemma rstrip_suffix (a b : str) : rstrip (a ++ b) = a ++ b -> rstrip b = b.
Proof.
  intros H. destruct (rstrip b) as [|c r] eqn:E.
  - apply rstrip_nil_iff in E. rewrite (rstrip_spaces a b E) in H.
    pose proof (rstrip_length a) as Hl. rewrite H, length_app in Hl.
    destruct b; [reflexivity | simpl in Hl; lia].
  - rewrite rstrip_app in H by (rewrite E; discriminate).
    apply app_inv_head in H. now rewrite <- E.
Qed.

Lemma strip_ends (s : str) : lstrip (strip s) = strip s /\ rstrip (strip s) = strip s.
Proof.
  unfold strip, lstrip. split.
  - apply dropwhile_fixed, dropwhile_stops.
  - apply (rstrip_suffix (takewhile is_space (rstrip s))).
    rewrite takewhile_dropwhile. apply rstrip_idem.
Qed.

(** [s.strip().strip() == s.strip()]. *)
Lemma strip_idem (s : str) : strip (strip s) = strip s.
Proof.
  destruct (strip_ends s) as [Hl Hr]. unfold strip at 1. now rewrite Hr.
Qed.

Lemma strip_nil : strip [] = [].
Proof. reflexivity. Qed.

End LinesFacts.

(** * What every parsed rule satisfies *)
Module ParseFacts.
Import Str Parser StrFacts ReFacts DictFacts SplitFacts RuleFacts TitleFacts LinesFacts
  GroupingFacts CursorFacts.

(** *** The keys of the two splitters are never empty *)
Section Keys.

Variable marker : str.
Variable ordinal : Re.matcher unit.

Local Abbreviation filled := (Forall (fun k : str => k <> [])).

Lemma set_keys_forall {V} (P : str -> Prop) (d : Dict.t V) (k : str) (v : V) :
  Forall P (Dict.keys d) -> P k -> Forall P (Dict.keys (Dict.set d k v)).
Proof.
  intros Hd Hk. rewrite keys_set. destruct (Dict.mem d k); [exact Hd|].
  apply Forall_app. split; [exact Hd | now constructor].
Qed.

Lemma save_keys_filled (st : splitter) :
  filled (Dict.keys (entries st)) -> filled (Dict.keys (save st)).
Proof.
  intros H. unfold save. destruct (open_title (current st)) as [t|] eqn:E; [|exact H].
  apply open_title_inv in E as [_ Hne]. now apply set_keys_forall.
Qed.

Lemma step_keys_filled (st : splitter) (line : str) :
  filled (Dict.keys (entries st)) ->
  filled (Dict.keys (entries (split_step marker ordinal st line))).
Proof.
  intros H. unfold split_step. destruct (startswith marker line).
  - cbn [entries]. now apply save_keys_filled.
  - destruct (open_title (current st)); exact H.
Qed.

Lemma run_keys_filled (text_lines : list str) (st : splitter) :
  filled (Dict.keys (entries st)) ->
  filled (Dict.keys (entries (fold_left (split_step marker ordinal) text_lines st))).
Proof.
  revert st. induction text_lines as [|line rest IH]; intros st H; [exact H|].
  cbn [fold_left]. apply IH. now apply step_keys_filled.
Qed.

Lemma split_loop_keys_filled (text_lines : list str) :
  filled (Dict.keys (split_loop marker ordinal text_lines)).
Proof.
  unfold split_loop. apply save_keys_filled, run_keys_filled. constructor.
Qed.

(** Lines before the first heading are not filed anywhere. *)
Lemma split_loop_preamble (pre rest : list str) :
  Forall (plain marker) pre ->
  split_loop marker ordinal (pre ++ rest) = split_loop marker ordinal rest.
Proof.
  intros H. unfold split_loop. rewrite fold_left_app.
  now rewrite (run_plain_closed marker ordinal pre
                 {| entries := Dict.empty; current := None; gathered := [] |} H eq_refl).
Qed.

End Keys.

Lemma in_entry_key {V} (d : Dict.t V) (k : str) (v : V) :
  In (k, v) d -> In k (Dict.keys d).
Proof. intros H. change k with (fst (k, v)). now apply in_map. Qed.

(** *** Rules *)

Lemma create_rule_inv (t : str) (sub : option str) (body : str) (prio : Z)
    (globs tl : list str) (r : Rule) :
  _create_rule t sub body prio globs tl = Some r ->
  section r = t /\ subsection r = sub
  /\ content r = strip (fst (_extract_content_and_examples body))
  /\ content r <> []
  /\ examples r = snd (_extract_content_and_examples body)
  /\ priority r = prio /\ scope r = globs /\ tags r = tl
  /\ title r = match open_title sub with
               | Some t' => t'
               | None => _extract_title (fst (_extract_content_and_examples body))
               end.
Proof.
  unfold _create_rule. cbv zeta.
  destruct (nonempty (strip (fst (_extract_content_and_examples body)))) eqn:E;
    [|discriminate].
  intros [= <-]. cbn [section subsection content examples priority scope tags title].
  repeat split. intros E0.
  cut (nonempty (@nil ascii) = true); [discriminate|]. rewrite <- E0. exact E.
Qed.

Lemma parse_section_inv (t c : str) (r : Rule) :
  In r (_parse_section t c) ->
  exists sub body,
    _create_rule t sub body (_get_priority t) (_get_scope t) (_get_tags t) = Some r
    /\ ((sub = None /\ body = c)
        \/ exists k, sub = Some k /\ In (k, body) (_split_into_subsections c)).
Proof.
  unfold _parse_section. cbv zeta.
  destruct (_split_into_subsections c) as [|e l] eqn:E; intros H.
  - unfold rule_list in H.
    destruct (_create_rule t None c _ _ _) as [r'|] eqn:Ec; [|contradiction].
    destruct H as [<- | []]. exists None, c. split; [exact Ec | now left].
  - apply in_flat_map in H as (kv & Hkv & Hr). unfold rule_list in Hr.
    destruct (_create_rule t (Some (fst kv)) (snd kv) _ _ _) as [r'|] eqn:Ec;
      [|contradiction].
    destruct Hr as [<- | []]. exists (Some (fst kv)), (snd kv).
    split; [exact Ec|]. right. exists (fst kv). split; [reflexivity|].
    destruct kv. exact Hkv.
Qed.

Lemma parse_inv (document : str) (r : Rule) :
  In r (parse document) ->
  exists t c, In (t, c) (_split_into_sections document) /\ In r (_parse_section t c).
Proof.
  unfold parse. intros H. apply in_flat_map in H as ([t c] & Hin & Hr).
  now exists t, c.
Qed.

Lemma priority_range (section_title : str) :
  (40 <= _get_priority section_title <= 100)%Z.
Proof.
  unfold _get_priority.
  destruct (first_match_range SECTION_PRIORITIES section_title 50%Z) as [-> | H]; [lia|].
  revert H. generalize (first_match SECTION_PRIORITIES section_title 50%Z). intros p H.
  cbn [SECTION_PRIORITIES map snd In] in H.
  repeat (destruct H as [<- | H]; [lia|]). contradiction.
Qed.

Lemma scope_filled (section_title : str) : _get_scope section_title <> [].
Proof.
  unfold _get_scope.
  destruct (first_match_range SECTION_SCOPES section_title ["all" : str]) as [-> | H];
    [discriminate|].
  revert H. generalize (first_match SECTION_SCOPES section_title ["all" : str]).
  intros p H. cbn [SECTION_SCOPES map snd In] in H.
  repeat (destruct H as [<- | H]; [discriminate|]). contradiction.
Qed.

Lemma parse_rule_well_formed (document : str) (r : Rule) :
  In r (parse document) -> well_formed document r.
Proof.
  intros H. apply parse_inv in H as (t & c & Hsec & Hr).
  apply parse_section_inv in Hr as (sub & body & Hc & Hsub).
  apply create_rule_inv in Hc
    as (Es & Esub & Econtent & Hne & _ & Ep & Esc & Etags & Etitle).
  assert (Hkey : In t (Dict.keys (_split_into_sections document)))
    by exact (in_entry_key _ _ _ Hsec).
  assert (Ht : t <> []).
  { pose proof (split_loop_keys_filled "## " section_ordinal (split_lines document)) as F.
    rewrite Forall_forall in F. now apply F. }
  unfold well_formed. rewrite Es, Ep, Esc, Etags.
  split; [exact Hkey|]. split; [exact Ht|]. split; [exact Hne|].
  split; [rewrite Econtent; apply strip_idem|].
  split; [reflexivity|]. split; [apply priority_range|].
  split; [reflexivity|]. split; [apply scope_filled|]. split; [reflexivity|].
  rewrite Esub, Etitle.
  destruct Hsub as [[-> _] | (k & -> & Hin)].
  - cbn [open_title]. apply extract_title_bound.
  - assert (Hk : k <> []).
    { pose proof (split_loop_keys_filled "### " subsection_ordinal (split_lines c)) as F.
      rewrite Forall_forall in F. apply F. exact (in_entry_key _ _ _ Hin). }
    rewrite (open_title_some k Hk). now split.
Qed.


(** *** Examples *)

Lemma extract_step_tidy (parts : list (option str)) (st : list str * list CodeExample)
    (ip : nat * option str) :
  Forall tidy_example (snd st) -> Forall tidy_example (snd (extract_step parts st ip)).
Proof.
  intros H. unfold extract_step. cbv zeta.
  destruct (fst ip mod 3 =? 0); [exact H|].
  destruct (fst ip mod 3 =? 2); [|exact H].
  cbn [snd]. apply Forall_app. split; [exact H|]. constructor; [|constructor].
  unfold tidy_example. cbn [language code explanation].
  split; [|split; [apply strip_idem | reflexivity]].
  destruct (nth (fst ip - 1) parts None) as [l|]; [|discriminate].
  destruct l; cbn [nonempty]; discriminate.
Qed.

Lemma extract_examples_tidy (body : str) :
  Forall tidy_example (snd (_extract_content_and_examples body)).
Proof.
  unfold _extract_content_and_examples. cbv zeta. cbn [snd].
  generalize (combine (seq 0 (length (split_fences body))) (split_fences body)).
  intros l.
  assert (H : Forall tidy_example (snd (@nil str, @nil CodeExample))) by constructor.
  revert H. generalize (@nil str, @nil CodeExample).
  induction l as [|ip l IH]; intros st H; [exact H|].
  cbn [fold_left]. apply IH. now apply extract_step_tidy.
Qed.

(** X5.  Every code example of every parsed rule has a language that is
    not empty (the word after the fence, or "text"), a code without white
    space at its ends, and no explanation. *)
Theorem parse_examples_tidy (document : str) :
  Forall (fun r => Forall tidy_example (examples r)) (parse document).
Proof.
  apply Forall_forall. intros r H.
  apply parse_inv in H as (t & c & _ & Hr).
  apply parse_section_inv in Hr as (sub & body & Hc & _).
  apply create_rule_inv in Hc as (_ & _ & _ & _ & -> & _).
  apply extract_examples_tidy.
Qed.

(** *** A body without a fence *)

Lemma scan_from_nomatch {A} (m : Re.matcher A) (P : str -> Prop) :
  (forall c s, P (c :: s) -> P s) ->
  (forall prev s, P s -> m prev s = None) ->
  forall s limit prev, P s -> Re.scan_from m limit prev 0 s = ([], s).
Proof.
  intros Htail Hno. induction s as [|c s IH]; intros limit prev H; [reflexivity|].
  cbn [Re.scan_from]. rewrite (Hno prev (c :: s) H).
  assert (E : forall l, Re.push c (Re.scan_from m l (Some c) 0 s) = ([], c :: s)).
  { intros l. rewrite IH by exact (Htail c s H). reflexivity. }
  destruct limit; apply E.
Qed.

Lemma fence_block_needs_fence (prev : option ascii) (s : str) :
  contains "```" s = false -> fence_block prev s = None.
Proof.
  intros H. unfold fence_block.
  destruct (startswith "```" s) eqn:E; [|reflexivity].
  apply contains_prefix in E. congruence.
Qed.

Lemma contains_tail (sub : str) (c : ascii) (s : str) :
  contains sub (c :: s) = false -> contains sub s = false.
Proof. rewrite contains_cons. intros H. now apply orb_false_iff in H as [_ H]. Qed.

(** X6.  A body without three backquotes in a row has no example, and all
    of it is prose. *)
Theorem no_fence_no_example (body : str) :
  contains "```" body = false ->
  _extract_content_and_examples body = (body, []).
Proof.
  intros H. unfold _extract_content_and_examples, split_fences, Re.scan. cbv zeta.
  rewrite (scan_from_nomatch fence_block (fun s => contains "```" s = false)
             (contains_tail "```") fence_block_needs_fence body _ None H).
  cbn [fst snd flat_map app length seq combine fold_left].
  unfold extract_step. cbn [fst snd]. change (0 mod 3 =? 0) with true.
  cbn [fst snd or_empty app concat].
  now rewrite app_nil_r.
Qed.

Lemma no_fence_no_example_witness :
  _extract_content_and_examples "Use set -euo pipefail." = ("Use set -euo pipefail." : str, []).
Proof. apply no_fence_no_example. reflexivity. Defined.

(** *** Text outside the sections *)

(** X7.  A document without a line that begins with "## " has no section
    and gives no rule, whatever else it holds. *)
Theorem no_heading_no_rule (document : str) :
  Forall (plain "## ") (split_lines document) ->
  _split_into_sections document = [] /\ parse document = [].
Proof.
  intros H.
  assert (E : _split_into_sections document = []).
  { unfold _split_into_sections.
    rewrite <- (app_nil_r (split_lines document)).
    now rewrite split_loop_preamble. }
  split; [exact E|]. unfold parse. now rewrite E.
Qed.

Lemma no_heading_no_rule_witness :
  parse (lines (texts ["# Standards"; "### 1.1 Naming"; "Use lower case."])) = [].
Proof.
  apply no_heading_no_rule.
  repeat constructor.
Defined.

(** X8.  The lines before the first section heading are ignored: a
    document and the same document without them have the same sections and
    the same rules. *)
Theorem preamble_ignored (pre rest : list str) :
  rest <> [] -> forallb one_line (pre ++ rest) = true -> Forall (plain "## ") pre ->
  _split_into_sections (lines (pre ++ rest)) = _split_into_sections (lines rest)
  /\ parse (lines (pre ++ rest)) = parse (lines rest).
Proof.
  intros Hne Hl Hpre.
  assert (E : _split_into_sections (lines (pre ++ rest))
              = _split_into_sections (lines rest)).
  { unfold _split_into_sections.
    rewrite (split_lines_lines (pre ++ rest)); [| now destruct pre, rest | exact Hl].
    rewrite forallb_app in Hl. apply andb_true_iff in Hl as [_ Hl].
    rewrite (split_lines_lines rest Hne Hl).
    now apply split_loop_preamble. }
  split; [exact E|]. unfold parse. now rewrite E.
Qed.

Lemma preamble_ignored_witness :
  parse (lines (texts ["# Standards"; "An introduction."; "## 1. Security"; "Never commit secrets."]))
  = parse (lines (texts ["## 1. Security"; "Never commit secrets."])).
Proof.
  apply (preamble_ignored (texts ["# Standards"; "An introduction."])
                          (texts ["## 1. Security"; "Never commit secrets."])).
  - discriminate.
  - reflexivity.
  - repeat constructor.
Defined.

End ParseFacts.

(** * Sections in the generated files *)
Module SectionFacts.
Import Str Parser StrFacts DictFacts WindowFacts Grouping GroupingFacts ParseFacts.

Lemma mem_existsb {V} (d : Dict.t V) (k : str) :
  Dict.mem d k = existsb (Str.eqb k) (Dict.keys d).
Proof.
  unfold Dict.mem. induction d as [|[k' v] d IH]; [reflexivity|].
  cbn [Dict.get Dict.keys map fst existsb]. rewrite (eqb_sym k k').
  destruct (Str.eqb k' k); [reflexivity | exact IH].
Qed.

Section Order.

Context {A : Type} (key : A -> str).

Lemma keys_append_to (d : Dict.t (list A)) (k : str) (x : A) :
  Dict.keys (append_to d k x)
  = if Dict.mem d k then Dict.keys d else Dict.keys d ++ [k].
Proof. unfold append_to. destruct (Dict.get d k); apply keys_set. Qed.

Lemma keys_run (xs : list A) (d : Dict.t (list A)) :
  Dict.keys (fold_left (fun d x => append_to d (key x) x) xs d)
  = Dict.keys d ++ firsts (Dict.keys d) (map key xs).
Proof.
  revert d. induction xs as [|x xs IH]; intros d.
  - cbn [fold_left map firsts]. now rewrite app_nil_r.
  - cbn [fold_left map firsts]. rewrite IH, keys_append_to, <- mem_existsb.
    destruct (Dict.mem d (key x)); [reflexivity|]. now rewrite <- app_assoc.
Qed.

(** The keys of the grouping come in the order in which they first
    appear. *)
Lemma group_by_order (xs : list A) :
  Dict.keys (group_by key xs) = firsts [] (map key xs).
Proof. unfold group_by. now rewrite keys_run. Qed.

End Order.

Lemma fold_app_flat_map {A B} (f : A -> list B) (l : list A) (acc : list B) :
  fold_left (fun acc e => acc ++ f e) l acc = acc ++ flat_map f l.
Proof.
  revert acc. induction l as [|e l IH]; intros acc; cbn [fold_left flat_map].
  - now rewrite app_nil_r.
  - now rewrite IH, <- app_assoc.
Qed.

Lemma flat_map_in_ext {A B} (f g : A -> list B) (l : list A) :
  (forall a, In a l -> f a = g a) -> flat_map f l = flat_map g l.
Proof.
  induction l as [|a l IH]; intros H; [reflexivity|]. cbn [flat_map].
  rewrite (H a) by now left. f_equal. apply IH. intros b Hb. apply H. now right.
Qed.

Lemma flat_map_keys {V B} (f : str -> list B) (d : Dict.t V) :
  flat_map f (Dict.keys d) = flat_map (fun e => f (fst e)) d.
Proof. unfold Dict.keys. induction d as [|e d IH]; [reflexivity|]. cbn. now rewrite IH. Qed.

Lemma flat_map_length_groups {A B} (h : str -> B) (f : A -> B) (d : Dict.t (list A)) :
  length (flat_map (fun e => h (fst e) :: map f (snd e)) d)
  = length d + length (concat (map snd d)).
Proof.
  induction d as [|e d IH]; [reflexivity|].
  cbn [flat_map map concat length app]. rewrite !length_app, length_map, IH. lia.
Qed.

(** *** CLAUDE.md *)
Section Templates.
Import ClaudeTransformer.

Variable _render_template : str -> Rule -> str.

(** X9.  The parts of CLAUDE.md are the header, then, for each section in
    the order in which the sections first appear among the rules, one
    heading line "## section" followed by the rules of that section, each
    rendered and stripped, in the order of the input.  Every section that
    has a rule gets exactly one heading, so there are as many parts as one
    header, the distinct sections and the rules. *)
Theorem claude_parts_by_section (rules : list Rule) :
  parts _render_template rules
  = rstrip _build_header
    :: flat_map (fun name =>
                   section_parts _render_template name (members section name rules))
                (firsts [] (map section rules))
  /\ NoDup (firsts [] (map section rules))
  /\ (forall name, In name (firsts [] (map section rules))
                   <-> exists r, In r rules /\ section r = name)
  /\ length (parts _render_template rules)
     = 1 + length (firsts [] (map section rules)) + length rules
  /\ transform _render_template rules
     = [(OUTPUT_FILE, join [nl; nl] (parts _render_template rules) ++ [nl])].
Proof.
  change (sections rules) with (group_by section rules).
  rewrite <- (group_by_order section rules).
  assert (E : parts _render_template rules
              = rstrip _build_header
                :: flat_map (fun e => section_parts _render_template (fst e) (snd e))
                            (group_by section rules)).
  { unfold parts. now rewrite fold_app_flat_map. }
  split.
  - rewrite E, flat_map_keys. f_equal. apply flat_map_in_ext.
    intros [k g] Hin. cbn [fst snd].
    now destruct (group_by_entry section rules k g Hin) as [-> _].
  - split; [apply group_by_nodup|]. split; [apply group_by_keys|].
    split; [|reflexivity].
    rewrite E. cbn [length]. unfold section_parts.
    rewrite (flat_map_length_groups (fun name => "## " ++ name)
               (fun rule => strip (_render_template TEMPLATE_NAME rule))).
    unfold Dict.keys. rewrite length_map. unfold group_by. rewrite total_run.
    cbn [Dict.empty map concat length]. lia.
Qed.

End Templates.

(** *** The count of sections the generator prints *)

(** X10.  The number of sections [sync] reports is the number of distinct
    sections among the rules, the same as the number of section headings in
    CLAUDE.md; it is at most the number of rules, and for the rules of a
    document at most the number of sections of the document (a section
    without prose is not counted). *)
Theorem count_sections_bounds (rules : list Rule) (document : str) :
  SyncGenerator._count_sections rules = length (firsts [] (map section rules))
  /\ SyncGenerator._count_sections rules <= length rules
  /\ SyncGenerator._count_sections (parse document)
     <= length (_split_into_sections document).
Proof.
  unfold SyncGenerator._count_sections.
  assert (Hcount : forall rs,
            length (nodup (list_eq_dec ascii_dec) (map section rs))
            = length (firsts [] (map section rs))).
  { intros rs. rewrite <- (group_by_order section rs).
    apply Permutation.Permutation_length, Permutation.NoDup_Permutation.
    - apply NoDup_nodup.
    - apply group_by_nodup.
    - intros k. rewrite nodup_In, group_by_keys, in_map_iff. split.
      + intros (r & E & Hin). now exists r.
      + intros (r & Hin & E). now exists r. }
  split; [apply Hcount|]. split.
  - rewrite <- (length_map section rules). apply NoDup_incl_length.
    + apply NoDup_nodup.
    + intros k H. now apply nodup_In in H.
  - rewrite <- (length_map fst (_split_into_sections document)).
    apply NoDup_incl_length; [apply NoDup_nodup|].
    intros k H. apply nodup_In, in_map_iff in H as (r & <- & Hin).
    now destruct (parse_rule_well_formed document r Hin) as (Hkey & _).
Qed.

End SectionFacts.

(** * The text filters of the templates *)
Module FilterFacts.
Import Str Parser BaseTransformer StrFacts TitleFacts LinesFacts.

Lemma startswith_prefix (p q s : str) :
  startswith (p ++ q) s = true -> startswith p s = true.
Proof.
  intros H. apply startswith_spec in H as [r ->]. rewrite <- app_assoc.
  apply startswith_app.
Qed.

(** *** [_make_conversational] *)

Lemma starter_begins_you (starter : str) :
  In starter conversational_starters -> exists q, starter = "you" ++ q.
Proof.
  unfold conversational_starters, texts. cbn [map In].
  intros [<- | [<- | [<- | []]]]; eexists; reflexivity.
Qed.

Lemma lower_y (c : ascii) :
  lower_char c = "y"%char ->
  Ascii.eqb "M" c = false /\ Ascii.eqb "N" c = false /\ Ascii.eqb "A" c = false.
Proof.
  destruct c as [[] [] [] [] [] [] [] []]; vm_compute; intros H;
    (discriminate H || (repeat split; reflexivity)).
Qed.

Lemma no_emphasis_after_you (t : str) :
  startswith "you" (lower t) = true ->
  existsb (fun start => startswith start t) emphatic_starts = false.
Proof.
  destruct t as [|c t]; [discriminate|].
  change (list_ascii_of_string "you") with ["y"%char; "o"%char; "u"%char].
  cbn [lower map startswith]. intros H. apply andb_true_iff in H as [H _].
  apply Ascii.eqb_eq in H. symmetry in H. apply lower_y in H as (HM & HN & HA).
  unfold emphatic_starts, texts. cbn [map existsb].
  change (list_ascii_of_string "MUST") with ("M"%char :: list_ascii_of_string "UST").
  change (list_ascii_of_string "Must") with ("M"%char :: list_ascii_of_string "ust").
  change (list_ascii_of_string "NEVER") with ("N"%char :: list_ascii_of_string "EVER").
  change (list_ascii_of_string "Never") with ("N"%char :: list_ascii_of_string "ever").
  change (list_ascii_of_string "ALWAYS") with ("A"%char :: list_ascii_of_string "LWAYS").
  change (list_ascii_of_string "Always") with ("A"%char :: list_ascii_of_string "lways").
  cbn [startswith]. now rewrite HM, HN, HA.
Qed.

(** X11.  The conversational style always gives a text that begins with
    "you", case ignored; a text that already does, once stripped, is
    returned stripped and otherwise unchanged. *)
Theorem conversational_begins_with_you (text : str) :
  startswith "you" (lower (_make_conversational text)) = true
  /\ (startswith "you" (lower (strip text)) = true ->
      _make_conversational text = strip text).
Proof.
  unfold _make_conversational. cbv zeta.
  destruct (existsb (fun starter => startswith starter (lower (strip text)))
              conversational_starters) eqn:E1; cbn [negb].
  - split; [|reflexivity].
    apply existsb_exists in E1 as (starter & Hin & Hs).
    apply starter_begins_you in Hin as [q ->]. now apply startswith_prefix in Hs.
  - destruct (startswith "you" (lower (strip text))) eqn:E3.
    + rewrite (no_emphasis_after_you _ E3). cbn [negb]. now split.
    + cbn [negb]. split; [|discriminate].
      destruct (existsb (fun start => startswith start (strip text)) emphatic_starts);
        rewrite lower_app; reflexivity.
Qed.

(** *** [_summarize] *)

Lemma split_head {A} (m : Re.matcher A) (s : str) :
  forall limit prev,
    exists first rest tail,
      Re.pieces (Re.scan_from m limit prev 0 s) = first :: rest /\ s = first ++ tail.
Proof.
  induction s as [|c s IH]; intros limit prev.
  - now exists [], [], [].
  - assert (Hpush : forall l,
              exists first rest tail,
                Re.pieces (Re.push c (Re.scan_from m l (Some c) 0 s)) = first :: rest
                /\ c :: s = first ++ tail).
    { intros l. destruct (IH l (Some c)) as (first & rest & tail & Hp & Hs).
      destruct (Re.scan_from m l (Some c) 0 s) as [[|[t a] segs] rest0];
        unfold Re.pieces in *; cbn [Re.push fst snd map app] in *.
      - injection Hp as <- <-. exists (c :: rest0), [], tail. split; [reflexivity|].
        now rewrite Hs.
      - injection Hp as <- <-. eexists (c :: t), _, tail. split; [reflexivity|].
        now rewrite Hs. }
    cbn [Re.scan_from]. destruct limit as [|limit']; [apply Hpush|].
    destruct (m prev (c :: s)) as [[a len]|]; [|apply Hpush].
    unfold Re.pieces. cbn [fst snd map app]. now eexists [], _, (c :: s).
Qed.


(** *** [_comment_wrap] *)

Lemma wrap_line_one_line (prefix line : str) :
  one_line prefix = true -> one_line line = true ->
  one_line (wrap_line prefix line) = true.
Proof.
  intros Hp Hl. unfold wrap_line. destruct (nonempty (strip line)).
  - now rewrite one_line_app, Hp, Hl.
  - now apply one_line_strip.
Qed.

Lemma forallb_map_one_line (f : str -> str) (parts : list str) :
  (forall l, one_line l = true -> one_line (f l) = true) ->
  forallb one_line parts = true -> forallb one_line (map f parts) = true.
Proof.
  intros Hf. induction parts as [|p parts IH]; [reflexivity|].
  cbn [forallb map]. intros H. apply andb_true_iff in H as [Hp Hrest].
  now rewrite (Hf p Hp), IH.
Qed.



(** X14.  With the default prefix every line of the result is a YAML
    comment: it begins with "#". *)
Theorem comment_wrap_default_comments (text : str) :
  Forall (fun line => startswith "#" line = true)
         (split_lines (_comment_wrap text default_prefix)).
Proof.
  unfold _comment_wrap.
  rewrite split_lines_lines.
  - apply Forall_forall. intros l H. apply in_map_iff in H as (line & <- & _).
    unfold wrap_line. now destruct (nonempty (strip line)).
  - pose proof (split_lines_nonempty text) as H.
    destruct (split_lines text); [contradiction | discriminate].
  - apply forallb_map_one_line; [|apply split_lines_one_line].
    intros l. now apply wrap_line_one_line.
Qed.

End FilterFacts.

(** * The errors the validator records *)
Module ReportFacts.
Import Str Validator StrFacts ValidatorFacts.

Section Monad.
Context {A B : Type}.

Lemma reports_ret (a : A) : reports (ret a) [].
Proof. intros st. exists a, st. split; [reflexivity | now rewrite app_nil_r]. Qed.

Lemma reports_bind (m : M A) (k : A -> M B) (e1 e2 : list str) :
  reports m e1 -> (forall a, reports (k a) e2) -> reports (bind m k) (e1 ++ e2).
Proof.
  intros Hm Hk st. destruct (Hm st) as (a & st1 & E1 & H1).
  destruct (Hk a st1) as (b & st2 & E2 & H2).
  exists b, st2. unfold bind. rewrite E1. split; [exact E2|].
  now rewrite H2, H1, app_assoc.
Qed.

End Monad.

Lemma reports_nothing_bind {A B} (m : M A) (k : A -> M B) :
  reports m [] -> (forall a, reports (k a) []) -> reports (bind m k) [].
Proof. intros Hm Hk. exact (reports_bind m k [] [] Hm Hk). Qed.

Lemma reports_append_error (message : str) : reports (append_error message) [message].
Proof. intros st. now exists tt, {| errors := errors st ++ [message]; warnings := warnings st |}. Qed.

Lemma reports_append_warning (message : str) : reports (append_warning message) [].
Proof.
  intros st. exists tt, {| errors := errors st; warnings := warnings st ++ [message] |}.
  split; [reflexivity | cbn [errors]; now rewrite app_nil_r].
Qed.

Lemma reports_when_warning (b : bool) (message : str) :
  reports (when b (append_warning message)) [].
Proof. destruct b; [apply reports_append_warning | apply reports_ret]. Qed.

Lemma reports_for_each {A} (xs : list A) (body : A -> M unit) (errs : A -> list str) :
  (forall x, In x xs -> reports (body x) (errs x)) ->
  reports (for_each xs body) (flat_map errs xs).
Proof.
  induction xs as [|x xs IH]; intros H; [apply reports_ret|].
  cbn [for_each flat_map]. apply reports_bind.
  - apply H. now left.
  - intros _. apply IH. intros y Hy. apply H. now right.
Qed.

Lemma reports_for_each_nothing {A} (xs : list A) (body : A -> M unit) :
  (forall x, reports (body x) []) -> reports (for_each xs body) [].
Proof.
  intros H. induction xs as [|x xs IH]; [apply reports_ret|].
  cbn [for_each]. apply reports_nothing_bind; [apply H | intros _; exact IH].
Qed.

Lemma reports_long_lines (filepath : str) (numbered : list (nat * str)) :
  forall in_code_block, reports (long_lines filepath in_code_block numbered) [].
Proof.
  induction numbered as [|[i line] rest IH]; intros in_code_block; [apply reports_ret|].
  cbn [long_lines]. destruct (startswith "```" (strip line)); [apply IH|].
  apply reports_nothing_bind; [apply reports_when_warning | intros _; apply IH].
Qed.

Lemma reports_validate_common (filepath text : str) :
  reports (_validate_common filepath text) [].
Proof.
  unfold _validate_common. cbv zeta.
  apply reports_nothing_bind.
  - apply reports_for_each_nothing. intros il. apply reports_when_warning.
  - intros _. apply reports_nothing_bind; [apply reports_when_warning|].
    intros _. apply reports_long_lines.
Qed.

Lemma reports_validate_markdown (filepath text : str) :
  reports (_validate_markdown filepath text) (fence_errors filepath text).
Proof.
  unfold _validate_markdown, fence_errors. cbv zeta.
  rewrite <- (app_nil_r (if odd_fences text then _ else _)).
  apply reports_bind.
  - destruct (odd_fences text); [apply reports_append_error | apply reports_ret].
  - intros _. apply reports_for_each_nothing. intros i. apply reports_when_warning.
Qed.

Lemma only_warns_reports {A} (m : M A) : reports m [] -> only_warns m.
Proof.
  intros H st. destruct (H st) as (a & st' & E & He). exists a, st'.
  split; [exact E | now rewrite app_nil_r in He].
Qed.

Section WithYaml.

Variable safe_load : Yaml.loader.

Lemma reports_markdown_file (filepath text : str) :
  suffix filepath = ".md" ->
  reports (_validate_file safe_load filepath text) (fence_errors filepath text).
Proof.
  intros Hs. unfold _validate_file. rewrite Hs.
  change (Str.eqb ".md" ".yaml" || Str.eqb ".md" ".yml") with false.
  change (Str.eqb ".md" ".mdc") with false.
  change (Str.eqb ".md" ".md") with true. cbv iota.
  rewrite <- (app_nil_r (fence_errors filepath text)).
  apply reports_bind; [apply reports_validate_markdown|].
  intros _. apply reports_validate_common.
Qed.


(** X16.  For a file map of Markdown files only, [validate_all] returns,
    and returns true exactly when every file has an even number of fences;
    the errors it records are one "Unclosed code fence" for each file with
    an odd number, in the order of the map, and nothing else. *)
Theorem markdown_only_validation (files : Dict.t str) (st0 : state) :
  (forall file, In file files -> suffix (fst file) = ".md") ->
  exists st',
    validate_all safe_load files st0
    = Returned (forallb (fun file => negb (odd_fences (snd file))) files) st'
    /\ errors st' = flat_map (fun file => fence_errors (fst file) (snd file)) files.
Proof.
  intros Hmd. unfold validate_all.
  pose proof (reports_for_each files
                (fun file => _validate_file safe_load (fst file) (snd file))
                (fun file => fence_errors (fst file) (snd file))) as H.
  destruct (H (fun file Hin => reports_markdown_file _ _ (Hmd file Hin))
              {| errors := []; warnings := [] |}) as ([] & st' & E & He).
  cbn [errors app] in He. exists st'. unfold bind. rewrite E. split; [|exact He].
  f_equal. rewrite He. clear. induction files as [|file files IH]; [reflexivity|].
  cbn [flat_map forallb]. unfold fence_errors at 1.
  destruct (odd_fences (snd file)); [reflexivity | exact IH].
Qed.

End WithYaml.


Lemma markdown_only_validation_witness :
  exists st',
    validate_all example_loader
      [("CLAUDE.md" : str, lines (texts ["# Rules"; "```sh"; "set -e"; "```"; ""]));
       (".github/copilot-instructions.md" : str, lines (texts ["# Rules"; "```"; ""]))]
      fresh
    = Returned false st'
    /\ errors st' = [".github/copilot-instructions.md: Unclosed code fence" : str].
Proof.
  apply (markdown_only_validation example_loader
           [("CLAUDE.md" : str, lines (texts ["# Rules"; "```sh"; "set -e"; "```"; ""]));
            (".github/copilot-instructions.md" : str, lines (texts ["# Rules"; "```"; ""]))]
           fresh).
  intros file [<- | [<- | []]]; reflexivity.
Defined.

End ReportFacts.

(** * Tags, and the reasons given for a rule *)
Module TagFacts.
Import Str Parser BaseTransformer StrFacts.

Lemma nodup_map_filter {A B} (g : A -> B) (f : A -> bool) (l : list A) :
  NoDup (map g l) -> NoDup (map g (filter f l)).
Proof.
  induction l as [|a l IH]; [exact (fun H => H)|]. cbn [map filter].
  intros H. inversion H as [|? ? Hn Hd]; subst. destruct (f a); [|now apply IH].
  cbn [map]. constructor; [|now apply IH].
  intros Hin. apply Hn. apply in_map_iff in Hin as (x & E & Hx).
  apply filter_In in Hx as [Hx _]. apply in_map_iff. now exists x.
Qed.

(** X17.  A section gets a tag exactly when one of the keywords of the tag
    occurs in its title, case ignored, anywhere in it: "Docker Images" is
    tagged "documentation" for its "doc".  The tags come in the order of
    the table, each at most once. *)
Theorem tags_by_keyword (section_title : str) :
  (forall tag,
     In tag (_get_tags section_title)
     <-> exists keywords,
           In (tag, keywords) tag_map
           /\ exists keyword,
                In keyword keywords /\ contains keyword (lower section_title) = true)
  /\ NoDup (_get_tags section_title)
  /\ incl (_get_tags section_title)
          (texts ["bash"; "python"; "security"; "yaml"; "json"; "documentation"])
  /\ _get_tags "Docker Images" = ["documentation" : str]
  /\ _get_tags "Secure Shell Scripts" = ["bash" : str].
Proof.
  split; [|split; [|split; [|split; reflexivity]]].
  - intros tag. unfold _get_tags. cbv zeta. rewrite in_map_iff. split.
    + intros ([t keywords] & <- & H). apply filter_In in H as [Hin Hk].
      exists keywords. split; [exact Hin|]. cbn [snd] in Hk.
      apply existsb_exists in Hk as (keyword & Hkw & Hc). now exists keyword.
    + intros (keywords & Hin & keyword & Hkw & Hc). exists (tag, keywords).
      split; [reflexivity|]. apply filter_In. split; [exact Hin|].
      cbn [snd]. apply existsb_exists. now exists keyword.
  - unfold _get_tags. cbv zeta. apply nodup_map_filter.
    unfold tag_map. cbn [map fst].
    repeat (constructor; [cbn [In]; intros H;
                          repeat (destruct H as [H | H]; [discriminate H|]); exact H|]).
    constructor.
  - unfold _get_tags. cbv zeta. intros tag H. apply in_map_iff in H as (e & <- & H).
    apply filter_In in H as [H _]. unfold tag_map in H. cbn [In] in H.
    unfold texts. cbn [map In].
    repeat (destruct H as [<- | H]; [cbn [fst]; tauto|]). contradiction.
Qed.

(** The keywords of a tag occur in a title. *)
Local Abbreviation mentions section_title keywords :=
  (existsb (fun keyword => contains keyword (lower section_title)) keywords).

Lemma get_tags_unfold (section_title : str) :
  _get_tags section_title
  = (if mentions section_title ["bash" : str; "shell" : str; "script" : str]
     then ["bash" : str] else [])
    ++ (if mentions section_title ["python" : str] then ["python" : str] else [])
    ++ (if mentions section_title ["security" : str; "secret" : str; "credential" : str]
        then ["security" : str] else [])
    ++ (if mentions section_title ["yaml" : str] then ["yaml" : str] else [])
    ++ (if mentions section_title ["json" : str] then ["json" : str] else [])
    ++ (if mentions section_title ["documentation" : str; "doc" : str]
        then ["documentation" : str] else []).
Proof.
  unfold _get_tags, tag_map. cbv zeta. cbn [filter snd].
  repeat match goal with
         | |- context [existsb ?f ?l] => destruct (existsb f l)
         end; reflexivity.
Qed.

(** X18.  For a rule that carries the tags of its section, as every parsed
    rule does, the reason given is decided by the title of the section
    before the content is looked at: the reason for Bash when the title
    mentions bash, shell or script; otherwise the reason for Python when it
    mentions python; otherwise the reason for security when it mentions
    security, secret or credential; and only otherwise the reason of the
    first keyword of the table found in the content, or the general
    reason. *)
Theorem reasoning_by_section (rule : Rule) :
  tags rule = _get_tags (section rule) ->
  _generate_reasoning rule
  = if mentions (section rule) ["bash" : str; "shell" : str; "script" : str]
    then "This ensures scripts are reliable, safe, and handle errors properly." : str
    else if mentions (section rule) ["python" : str]
    then "This improves code quality, maintainability, and catches errors early." : str
    else if mentions (section rule) ["security" : str; "secret" : str; "credential" : str]
    then "This prevents security vulnerabilities and protects sensitive data." : str
    else match by_keyword reasoning_map (lower (content rule)) with
         | Some reasoning => reasoning
         | None => default_reasoning
         end.
Proof.
  intros H. unfold _generate_reasoning. rewrite H, get_tags_unfold.
  destruct (mentions (section rule) ["bash" : str; "shell" : str; "script" : str]);
  destruct (mentions (section rule) ["python" : str]);
  destruct (mentions (section rule) ["security" : str; "secret" : str; "credential" : str]);
  destruct (mentions (section rule) ["yaml" : str]);
  destruct (mentions (section rule) ["json" : str]);
  destruct (mentions (section rule) ["documentation" : str; "doc" : str]);
  reflexivity.
Qed.

Lemma reasoning_by_section_witness :
  _generate_reasoning
    {| section := "Secure Shell Scripts"; subsection := None;
       title := "Keys"; content := "Never commit a secret key.";
       examples := []; priority := 50%Z; scope := ["all" : str];
       tags := ["bash" : str] |}
  = ("This ensures scripts are reliable, safe, and handle errors properly." : str).
Proof.
  rewrite reasoning_by_section; reflexivity.
Defined.

End TagFacts.

(** * Prose and examples of a body *)
Module FenceFacts.
Import Str Parser StrFacts.

Local Abbreviation triple :=
  (fun seg : str * (option str * str) =>
     [Some (fst seg); fst (snd seg); Some (snd (snd seg))]).

Lemma mod3_0 (k : nat) : (k * 3) mod 3 = 0.
Proof. apply Nat.Div0.mod_mul. Qed.

Lemma mod3_1 (k : nat) : S (k * 3) mod 3 = 1.
Proof. change (S (k * 3)) with (1 + k * 3). now rewrite Nat.Div0.mod_add. Qed.

Lemma mod3_2 (k : nat) : S (S (k * 3)) mod 3 = 2.
Proof. change (S (S (k * 3))) with (2 + k * 3). now rewrite Nat.Div0.mod_add. Qed.

(** The loop over [enumerate(parts)], from the part of index [3k] on. *)
Lemma extract_loop (parts : list (option str)) (rest : str) :
  forall (segs : list (str * (option str * str))) (pre : list (option str)) (k : nat)
         (st : list str * list CodeExample),
    length pre = k * 3 ->
    parts = pre ++ flat_map triple segs ++ [Some rest] ->
    fold_left (extract_step parts)
      (combine (seq (k * 3) (length (flat_map triple segs ++ [Some rest])))
               (flat_map triple segs ++ [Some rest]))
      st
    = (fst st ++ map fst segs ++ [rest], snd st ++ map example_of segs).
Proof.
  induction segs as [|seg segs IH]; intros pre k st Hlen Hparts.
  - cbn [flat_map app length seq combine fold_left map].
    unfold extract_step. cbn [fst snd]. rewrite mod3_0. cbn [Nat.eqb or_empty].
    now rewrite app_nil_r.
  - cbn [flat_map app length seq combine fold_left map].
    assert (E1 : extract_step parts st (k * 3, Some (fst seg))
                 = (fst st ++ [fst seg], snd st)).
    { unfold extract_step. cbn [fst snd]. now rewrite mod3_0. }
    rewrite E1.
    assert (E2 : forall st1, extract_step parts st1 (S (k * 3), fst (snd seg)) = st1).
    { intros st1. unfold extract_step. cbn [fst snd]. now rewrite mod3_1. }
    rewrite E2.
    assert (E3 : extract_step parts (fst st ++ [fst seg], snd st)
                   (S (S (k * 3)), Some (snd (snd seg)))
                 = (fst st ++ [fst seg], snd st ++ [example_of seg])).
    { unfold extract_step. cbn [fst snd]. rewrite mod3_2. cbn [Nat.eqb or_empty].
      rewrite last_last. unfold example_of.
      replace (nth (S (S (k * 3)) - 1) parts None) with (fst (snd seg)); [reflexivity|].
      replace (S (S (k * 3)) - 1) with (S (k * 3)) by lia.
      rewrite Hparts. rewrite app_nth2 by lia. rewrite Hlen.
      replace (S (k * 3) - k * 3) with 1 by lia. reflexivity. }
    rewrite E3.
    change (S (S (S (k * 3)))) with (S k * 3).
    rewrite (IH (pre ++ triple seg) (S k)).
    + cbn [fst snd]. now rewrite <- !app_assoc.
    + rewrite length_app, Hlen. cbn [length]. lia.
    + rewrite Hparts. cbn [flat_map]. now rewrite <- !app_assoc.
Qed.


End FenceFacts.
